(** * Jason (ai-jason-5408): guardrailed extraction and staging pipeline

    A shallow embedding of the JavaScript sources of the extraction
    scheduler, and the properties of its specification stated over it.

    JavaScript strings are modelled as [string]: one [ascii] per code unit,
    code units restricted to the range 0..255.  The numbers of the
    properties are integers and are modelled as [Z] or [nat]. *)

From Stdlib Require Import ZArith Ascii String DecimalString DecimalNat.
From stdpp Require Import base option list sorting strings gmap.

Set Warnings "-abstract-large-number".

Local Open Scope Z_scope.

(** ** JavaScript string primitives *)
Module Js.

Definition code (c : ascii) : N := N_of_ascii c.

(** [LineTerminator] of ECMAScript, within the modelled range. *)
Definition is_line_terminator (c : ascii) : bool :=
(code c =? 10)%N || (code c =? 13)%N.

(** [WhiteSpace] and [LineTerminator]: what [\s] and [trim] recognise. *)
Definition is_space (c : ascii) : bool :=
((9 <=? code c)%N && (code c <=? 13)%N) || (code c =? 32)%N || (code c =? 160)%N.

Definition is_digit (c : ascii) : bool :=
(48 <=? code c)%N && (code c <=? 57)%N.

Definition is_upper (c : ascii) : bool :=
(65 <=? code c)%N && (code c <=? 90)%N.

Definition is_lower (c : ascii) : bool :=
(97 <=? code c)%N && (code c <=? 122)%N.

(** [a-zA-Z] *)
Definition is_alpha (c : ascii) : bool := is_upper c || is_lower c.

(** The dot of a regular expression without the [s] flag. *)
Definition is_dot (c : ascii) : bool := negb (is_line_terminator c).

Definition is_latin_upper (c : ascii) : bool :=
(192 <=? code c)%N && (code c <=? 222)%N && negb (code c =? 215)%N.

Definition is_latin_lower (c : ascii) : bool :=
(224 <=? code c)%N && (code c <=? 254)%N && negb (code c =? 247)%N.

(** [String.prototype.toLowerCase] on one code unit. *)
Definition lower_char (c : ascii) : ascii :=
if is_upper c || is_latin_upper c then ascii_of_N (code c + 32) else c.

(** [Canonicalize] of the regular expression semantics under flag [i]:
the upper case form when it is a single code unit of the same range. *)
Definition canon_char (c : ascii) : ascii :=
if is_lower c || is_latin_lower c then ascii_of_N (code c - 32) else c.

Fixpoint map_chars (f : ascii → ascii) (s : string) : string :=
match s with
| EmptyString => EmptyString
| String c s' => String (f c) (map_chars f s')
end.

Definition toLowerCase (s : string) : string := map_chars lower_char s.

Fixpoint all_chars (f : ascii → bool) (s : string) : bool :=
match s with
| EmptyString => true
| String c s' => f c && all_chars f s'
end.

(** [s.substring(0, n)] *)
Fixpoint take (n : nat) (s : string) : string :=
match n, s with
| S n', String c s' => String c (take n' s')
| _, _ => EmptyString
end.

Fixpoint drop (n : nat) (s : string) : string :=
match n, s with
| S n', String c s' => drop n' s'
| _, _ => s
end.

(** [s.startsWith(p)] *)
Fixpoint startsWith (s p : string) {struct p} : bool :=
match p, s with
| EmptyString, _ => true
| String a p', String b s' => bool_decide (a = b) && startsWith s' p'
| String _ _, EmptyString => false
end.

(** [s.includes(p)] *)
Fixpoint includes (s p : string) : bool :=
startsWith s p ||
match s with
| EmptyString => false
| String _ s' => includes s' p
end.

Fixpoint trimStart (s : string) : string :=
match s with
| String c s' => if is_space c then trimStart s' else s
| EmptyString => EmptyString
end.

(** Drops the trailing white space; [None] while everything seen so far
from the right is white space. *)
Fixpoint trimEnd_go (s : string) : option string :=
match s with
| EmptyString => None
| String c s' =>
  match trimEnd_go s' with
  | Some t => Some (String c t)
  | None => if is_space c then None else Some (String c EmptyString)
  end
end.

Definition trimEnd (s : string) : string := default EmptyString (trimEnd_go s).

(** [s.trim()] *)
Definition trim (s : string) : string := trimEnd (trimStart s).

(** [s.split('\n')[0]] *)
Fixpoint first_line (s : string) : string :=
match s with
| EmptyString => EmptyString
| String c s' =>
  if (code c =? 10)%N then EmptyString else String c (first_line s')
end.

(** Truthiness of a string value. *)
Definition truthy (s : string) : bool :=
match s with EmptyString => false | String _ _ => true end.

(** [o || d] on a possibly absent string. *)
Definition or_else (o : option string) (d : string) : string :=
match o with
| Some s => if truthy s then s else d
| None => d
end.

(** The decimal digits at the start of [s], read as a number after [acc]. *)
Fixpoint parseInt_go (acc : Z) (s : string) : Z :=
match s with
| String c s' =>
  if is_digit c then parseInt_go (10 * acc + Z.of_N (code c - 48)) s' else acc
| EmptyString => acc
end.

(** [parseInt(s, 10)]: the white space at the start is skipped, a sign is
taken, and the decimal digits that follow are read, up to the first code
unit that is no digit.  [0] stands for the [NaN] of a text in which no
digit follows. *)
Definition parseInt (s : string) : Z :=
match trimStart s with
| String c s' =>
  if bool_decide (c = "-"%char) then - parseInt_go 0 s'
  else if bool_decide (c = "+"%char) then parseInt_go 0 s'
  else parseInt_go 0 (String c s')
| EmptyString => 0
end.

(** The decimal text of a non-negative integer, as a template literal
prints it. *)
Definition show_nat (n : nat) : string := NilZero.string_of_uint (Nat.to_uint n).

End Js.

(** ** Regular expressions

    The fragment of ECMAScript regular expressions that the sources use,
    with the backtracking semantics of the language: greedy quantifiers over
    character classes, alternation tried left to right, capture groups, and
    the two line assertions under the [m] flag. *)
Module Regex.

Record flags : Type := Flags { ignoreCase : bool; multiline : bool }.

Inductive regex : Type :=
| Eps
| Bol                                          (* ^ *)
| Eol                                          (* $ *)
| Chr (c : ascii)                              (* a literal character *)
| Cls (f : ascii → bool)                       (* a character class *)
| Rep (f : ascii → bool) (lo : nat) (hi : option nat)   (* greedy f{lo,hi} *)
| Seq (r1 r2 : regex)
| Alt (r1 r2 : regex)
| Cap (i : nat) (r : regex).                   (* the i-th capture group *)

(** A literal word. *)
Fixpoint Lit (s : string) : regex :=
match s with
| EmptyString => Eps
| String c s' => Seq (Chr c) (Lit s')
end.

(** A sequence of sub-expressions. *)
Definition Cat (rs : list regex) : regex := foldr Seq Eps rs.

Definition star (f : ascii → bool) : regex := Rep f 0 None.
Definition plus (f : ascii → bool) : regex := Rep f 1 None.

(** The position of the matcher in the subject: the code unit before it,
what is left of the subject, and the index. *)
Record cursor : Type := Cursor { prev : option ascii; rest : string; index : nat }.

Abbreviation captures := (gmap nat string).

Definition cont : Type := cursor → captures → option (cursor * captures).

Definition advance (c : ascii) (s' : string) (cur : cursor) : cursor :=
Cursor (Some c) s' (S (index cur)).

Definition at_bol (fl : flags) (cur : cursor) : bool :=
match prev cur with
| None => true
| Some c => multiline fl && Js.is_line_terminator c
end.

Definition at_eol (fl : flags) (cur : cursor) : bool :=
match rest cur with
| EmptyString => true
| String c _ => multiline fl && Js.is_line_terminator c
end.

Definition chr_eq (fl : flags) (c x : ascii) : bool :=
if ignoreCase fl then bool_decide (Js.canon_char c = Js.canon_char x)
else bool_decide (c = x).

(** Greedy repetition of a class: one more character first, and the
continuation only when that fails or is not possible. *)
Fixpoint rep_greedy (f : ascii → bool) (lo : nat) (hi : option nat)
(k : cont) (p : option ascii) (s : string) (i : nat) (caps : captures)
: option (cursor * captures) :=
let stop := match lo with O => k (Cursor p s i) caps | S _ => None end in
match s with
| String c s' =>
  if f c && negb (bool_decide (hi = Some O)) then
    match rep_greedy f (pred lo) (pred <$> hi) k (Some c) s' (S i) caps with
    | Some res => Some res
    | None => stop
    end
  else stop
| EmptyString => stop
end.

Fixpoint rmatch (fl : flags) (r : regex) (k : cont) (cur : cursor) (caps : captures)
: option (cursor * captures) :=
match r with
| Eps => k cur caps
| Bol => if at_bol fl cur then k cur caps else None
| Eol => if at_eol fl cur then k cur caps else None
| Chr c =>
  match rest cur with
  | String x s' => if chr_eq fl c x then k (advance x s' cur) caps else None
  | EmptyString => None
  end
| Cls f =>
  match rest cur with
  | String x s' => if f x then k (advance x s' cur) caps else None
  | EmptyString => None
  end
| Rep f lo hi => rep_greedy f lo hi k (prev cur) (rest cur) (index cur) caps
| Seq r1 r2 => rmatch fl r1 (rmatch fl r2 k) cur caps
| Alt r1 r2 =>
  match rmatch fl r1 k cur caps with
  | Some res => Some res
  | None => rmatch fl r2 k cur caps
  end
| Cap i r1 =>
  rmatch fl r1
    (λ cur' caps',
       k cur' (<[i := Js.take (index cur' - index cur) (rest cur)]> caps'))
    cur caps
end.

(** The match object: index, matched text ([m[0]]) and the groups. *)
Record result : Type := Result { m_index : nat; m_text : string; m_groups : captures }.

Definition group (i : nat) (m : result) : option string := m_groups m !! i.

Definition match_here (fl : flags) (r : regex) (cur : cursor) : option result :=
match rmatch fl r (λ cur' caps, Some (cur', caps)) cur ∅ with
| Some (cur', caps) =>
  Some (Result (index cur) (Js.take (index cur' - index cur) (rest cur)) caps)
| None => None
end.

(** The leftmost match at or after the cursor. *)
Fixpoint search (fl : flags) (r : regex) (p : option ascii) (s : string) (i : nat)
: option result :=
match match_here fl r (Cursor p s i) with
| Some m => Some m
| None =>
  match s with
  | String c s' => search fl r (Some c) s' (S i)
  | EmptyString => None
  end
end.

(** [r.exec(s)] from index 0, and [s.match(r)] for [r] without flag [g]. *)
Definition exec (fl : flags) (r : regex) (s : string) : option result :=
search fl r None s 0.

(** [r.test(s)] *)
Definition test (fl : flags) (r : regex) (s : string) : bool :=
bool_decide (is_Some (exec fl r s)).

(** All the successive matches of a regular expression with flag [g]: what
the loop [while ((m = r.exec(s)) !== null)] visits, and what
[s.match(r)] collects.  [skip] counts the code units of the last match
that are still to be passed. *)
Fixpoint scan (fl : flags) (r : regex) (skip : nat) (p : option ascii) (s : string)
(i : nat) : list result :=
match skip with
| S skip' =>
  match s with
  | String c s' => scan fl r skip' (Some c) s' (S i)
  | EmptyString => []
  end
| O =>
  match match_here fl r (Cursor p s i) with
  | Some m =>
      m :: match s with
           | String c s' =>
               scan fl r (pred (String.length (m_text m))) (Some c) s' (S i)
           | EmptyString => []
           end
  | None =>
      match s with
      | String c s' => scan fl r O (Some c) s' (S i)
      | EmptyString => []
      end
  end
end.

Definition exec_all (fl : flags) (r : regex) (s : string) : list result :=
scan fl r O None s 0.

(** The code unit before the position once [taken] has been passed. *)
Fixpoint prev_after (p : option ascii) (taken : string) : option ascii :=
match taken with
| EmptyString => p
| String c taken' => prev_after (Some c) taken'
end.

(** The subject starts with the literal word, up to the flags. *)
Fixpoint starts_like (fl : flags) (word s : string) : bool :=
match word, s with
| EmptyString, _ => true
| String c word', String x s' => chr_eq fl c x && starts_like fl word' s'
| String _ _, EmptyString => false
end.

Definition gmi : flags := Flags true true.
Definition gm : flags := Flags false true.
Definition no_flags : flags := Flags false false.

End Regex.

Import Regex.

(** ** The digest of [crypto.createHash('md5')]

    MD5 over the UTF-8 bytes of the string, printed as 32 lower case
    hexadecimal digits.  Words are 32-bit integers held in [Z], additions
    wrap around modulo 2^32. *)
Module Md5.

Definition w32 (x : Z) : Z := x mod 2 ^ 32.

Definition add32 (x y : Z) : Z := w32 (x + y).

Definition not32 (x : Z) : Z := Z.lxor x 4294967295.

Definition rotl32 (x : Z) (n : Z) : Z :=
Z.lor (w32 (Z.shiftl x n)) (Z.shiftr x (32 - n)).

(** [update(data)] takes the UTF-8 encoding: code units from 128 up take
two bytes. *)
Fixpoint utf8 (s : string) : list Z :=
match s with
| EmptyString => []
| String c s' =>
  let n := Z.of_N (N_of_ascii c) in
  if n <? 128 then n :: utf8 s'
  else Z.lor 192 (Z.shiftr n 6) :: Z.lor 128 (Z.land n 63) :: utf8 s'
end.

Definition le_bytes (count : nat) (x : Z) : list Z :=
(λ i : nat, Z.land (Z.shiftr x (8 * Z.of_nat i)) 255) <$> seq 0 count.

Definition pad (msg : list Z) : list Z :=
let len := Z.of_nat (length msg) in
let zeros := Z.to_nat ((55 - len) mod 64) in
msg ++ [128] ++ replicate zeros 0 ++ le_bytes 8 (8 * len).

Fixpoint le_word (bytes : list Z) : Z :=
match bytes with
| [] => 0
| b :: bs => Z.lor b (Z.shiftl (le_word bs) 8)
end.

(** Cuts the bytes in words of four; [fuel] bounds the number of words. *)
Fixpoint words (fuel : nat) (bytes : list Z) : list Z :=
match fuel, bytes with
| S fuel', _ :: _ => le_word (take 4 bytes) :: words fuel' (drop 4 bytes)
| _, _ => []
end.

Fixpoint chunks (fuel : nat) (ws : list Z) : list (list Z) :=
match fuel, ws with
| S fuel', _ :: _ => take 16 ws :: chunks fuel' (drop 16 ws)
| _, _ => []
end.

Definition K : list Z :=
[ 3614090360; 3905402710; 606105819; 3250441966;
4118548399; 1200080426; 2821735955; 4249261313;
1770035416; 2336552879; 4294925233; 2304563134;
1804603682; 4254626195; 2792965006; 1236535329;
4129170786; 3225465664; 643717713; 3921069994;
3593408605; 38016083; 3634488961; 3889429448;
568446438; 3275163606; 4107603335; 1163531501;
2850285829; 4243563512; 1735328473; 2368359562;
4294588738; 2272392833; 1839030562; 4259657740;
2763975236; 1272893353; 4139469664; 3200236656;
681279174; 3936430074; 3572445317; 76029189;
3654602809; 3873151461; 530742520; 3299628645;
4096336452; 1126891415; 2878612391; 4237533241;
1700485571; 2399980690; 4293915773; 2240044497;
1873313359; 4264355552; 2734768916; 1309151649;
4149444226; 3174756917; 718787259; 3951481745 ].

Definition shifts : list Z :=
[ 7; 12; 17; 22; 7; 12; 17; 22; 7; 12; 17; 22; 7; 12; 17; 22;
5; 9; 14; 20; 5; 9; 14; 20; 5; 9; 14; 20; 5; 9; 14; 20;
4; 11; 16; 23; 4; 11; 16; 23; 4; 11; 16; 23; 4; 11; 16; 23;
6; 10; 15; 21; 6; 10; 15; 21; 6; 10; 15; 21; 6; 10; 15; 21 ].

Record regs : Type := Regs { rA : Z; rB : Z; rC : Z; rD : Z }.

Definition init : regs := Regs 1732584193 4023233417 2562383102 271733878.

Definition step (m : list Z) (r : regs) (i : nat) : regs :=
let '(Regs a b c d) := r in
let '(f, g) :=
if (i <? 16)%nat then (Z.lor (Z.land b c) (Z.land (not32 b) d), i)
else if (i <? 32)%nat then
  (Z.lor (Z.land d b) (Z.land (not32 d) c), ((5 * i + 1) mod 16)%nat)
else if (i <? 48)%nat then (Z.lxor (Z.lxor b c) d, ((3 * i + 5) mod 16)%nat)
else (Z.lxor c (Z.lor b (not32 d)), ((7 * i) mod 16)%nat) in
let f' := add32 (add32 (add32 f a) (K !!! i)) (m !!! g) in
Regs d (add32 b (rotl32 f' (shifts !!! i))) b c.

Definition compress (r : regs) (m : list Z) : regs :=
let '(Regs a b c d) := foldl (step m) r (seq 0 64) in
Regs (add32 (rA r) a) (add32 (rB r) b) (add32 (rC r) c) (add32 (rD r) d).

Definition hex_digit (n : Z) : ascii :=
ascii_of_N (Z.to_N (if n <? 10 then 48 + n else 87 + n)).

Fixpoint hex (bytes : list Z) : string :=
match bytes with
| [] => EmptyString
| b :: bs => String (hex_digit (Z.shiftr b 4)) (String (hex_digit (Z.land b 15)) (hex bs))
end.

(** [crypto.createHash('md5').update(data).digest('hex')] *)
Definition md5 (data : string) : string :=
let bytes := pad (utf8 data) in
let n := length bytes in
let '(Regs a b c d) := foldl compress init (chunks n (words n bytes)) in
hex (le_bytes 4 a ++ le_bytes 4 b ++ le_bytes 4 c ++ le_bytes 4 d).

End Md5.

(** ** Data model *)

(** The column [extraction_metadata] as [markExtracted] writes it. *)
Record ExtractionMetadata : Type := mkExtractionMetadata {
  em_extraction_version : string;
  em_items_created : nat;
  em_duplicates_skipped : nat;
  em_extractor : string;
  em_timestamp : Z;
}.

(** A row of [dev_ai_sessions]; the times in milliseconds. *)
Record Session : Type := Build_Session {
  sess_id : string;
  sess_project_slug : option string;
  sess_status : string;
  sess_created_at : Z;
  sess_summary : option string;
  sess_extracted_at : option Z;
  sess_extraction_metadata : option ExtractionMetadata;
}.

(** A session that no extraction has touched. *)
Definition mkSession (id : string) (slug : option string) (status : string)
    (created_at : Z) : Session :=
  Build_Session id slug status created_at None None None.

(** A row of [dev_projects]. *)
Record Project : Type := mkProject {
  proj_id : string;
  proj_slug : option string;
  proj_name : string;
}.

(** A row of [dev_ai_clean_transcripts]. *)
Record CleanTranscript : Type := mkCleanTranscript {
  ct_session_id : string;
  ct_clean_text : string;
  ct_file_refs : list string;
}.

Record Evidence : Type := mkEvidence {
  session_id : option string;
  excerpt : string;
  location : string;
}.

(** A candidate item, as the extractor builds it. *)
Record Item : Type := mkItem {
  bucket : string;
  title : option string;
  content : string;
  priority : option string;
  tags : list string;
  evidence : list Evidence;
}.

Record RowMetadata : Type := mkRowMetadata {
  md_evidence : list Evidence;
  md_extractor : string;
  md_project_slug : option string;
  md_extracted_at : Z;
}.

(** What [map[bucket] || 'general'] evaluates to in [mapBucketToCategory]:
    the name of a category or, for a bucket that bears the name of a
    property of [Object.prototype], that property, which the object literal
    inherits and which is no text. *)
Inductive Category : Type :=
| category (name : string)
| inherited (property : string).

(** A row of [dev_ai_smart_extractions], the staging table. *)
Record Row : Type := mkRow {
  row_bucket : string;
  row_category : Category;
  row_content : string;
  row_title : string;
  row_priority : string;
  row_status : string;
  row_session_id : string;
  row_project_id : string;
  row_hash : string;
  row_metadata : RowMetadata;
  row_created_at : Z;
}.

(** ** The record store and the process state *)

Inductive Table : Type :=
  dev_ai_sessions | dev_ai_clean_transcripts | dev_ai_smart_extractions | dev_projects.

Inductive Verb : Type := Select | Insert | Update.

(** The tables, the module variables of [lib/resolveProject] and the
    environment: the clock ([Date.now()]), the outcome of the coming store
    requests ([true]: the request reports an error) and the requests made
    so far. *)
Record World : Type := mkWorld {
  sessions : list Session;
  clean_transcripts : list CleanTranscript;
  extractions : list Row;
  projects : list Project;
  projectCache : option (list Project);
  cacheTime : Z;
  clock : Z;
  faults : list bool;
  requests : list (Table * Verb);
}.

Definition State (A : Type) : Type := World → A * World.

#[global] Instance state_ret : MRet State := λ A x w, (x, w).

#[global] Instance state_bind : MBind State :=
  λ A B f m w, let '(x, w') := m w in f x w'.

Definition get {A : Type} (proj : World → A) : State A := λ w, (proj w, w).

Definition modify (f : World → World) : State unit := λ w, (tt, f w).

(** The pair [{ data, error }] that a store request resolves to. *)
Inductive Reply (A : Type) : Type :=
| Data (data : A)
| Error (message : string).
Arguments Data {A} data.
Arguments Error {A} message.

Definition note_request (t : Table) (v : Verb) (w : World) : World :=
  mkWorld (sessions w) (clean_transcripts w) (extractions w) (projects w)
    (projectCache w) (cacheTime w) (clock w) (tail (faults w))
    (requests w ++ [(t, v)]).

Definition set_cache (ps : list Project) (now : Z) (w : World) : World :=
  mkWorld (sessions w) (clean_transcripts w) (extractions w) (projects w)
    (Some ps) now (clock w) (faults w) (requests w).

Definition add_extraction (row : Row) (w : World) : World :=
  mkWorld (sessions w) (clean_transcripts w) (extractions w ++ [row]) (projects w)
    (projectCache w) (cacheTime w) (clock w) (faults w) (requests w).

Definition set_sessions (ss : list Session) (w : World) : World :=
  mkWorld ss (clean_transcripts w) (extractions w) (projects w)
    (projectCache w) (cacheTime w) (clock w) (faults w) (requests w).

(** Modelled from the spec: the record store behind [lib/db], which is not
    among the sources: "a generic queryable/mutable record interface
    exposing point lookup by identity, filtered range queries with
    ordering/limit, and insert/update by identity".  A request is recorded,
    takes the next outcome of [faults], and either reports an error and
    leaves the tables alone, or answers from the tables and applies its
    effect. *)
Definition request {A : Type} (t : Table) (v : Verb)
    (answer : World → A) (effect : World → World) : State (Reply A) :=
  λ w,
    let w' := note_request t v w in
    match faults w with
    | true :: _ => (Error "store error", w')
    | _ => (Data (answer w), effect w')
    end.

(** The filters of the query builder that the selector uses on
    [dev_ai_sessions]. *)
Inductive Filter : Type :=
| eq_id (v : string)                 (* .eq('id', v) *)
| eq_status (v : string)             (* .eq('status', v) *)
| not_eq_status (v : string)         (* .not('status', 'eq', v) *)
| gte_created_at (t : Z).            (* .gte('created_at', t) *)

Record Query : Type := mkQuery {
  q_filters : list Filter;
  q_ascending : option bool;         (* .order('created_at', { ascending }) *)
  q_limit : option nat;              (* .limit(n) *)
}.

(** [db.from('dev_ai_sessions').select('*')] *)
Definition from_sessions : Query := mkQuery [] None None.

Definition where_ (f : Filter) (q : Query) : Query :=
  mkQuery (q_filters q ++ [f]) (q_ascending q) (q_limit q).

Definition order_created_at (ascending : bool) (q : Query) : Query :=
  mkQuery (q_filters q) (Some ascending) (q_limit q).

Definition limit_ (n : nat) (q : Query) : Query :=
  mkQuery (q_filters q) (q_ascending q) (Some n).

Definition holds (f : Filter) (s : Session) : bool :=
  match f with
  | eq_id v => bool_decide (sess_id s = v)
  | eq_status v => bool_decide (sess_status s = v)
  | not_eq_status v => negb (bool_decide (sess_status s = v))
  | gte_created_at t => bool_decide (t ≤ sess_created_at s)
  end.

Definition satisfies (q : Query) (s : Session) : bool :=
  forallb (λ f, holds f s) (q_filters q).

Definition older (a b : Session) : Prop := sess_created_at a ≤ sess_created_at b.
Definition newer (a b : Session) : Prop := sess_created_at b ≤ sess_created_at a.

#[global] Instance older_dec : RelDecision older.
Proof. intros a b. unfold older. apply _. Defined.

#[global] Instance newer_dec : RelDecision newer.
Proof. intros a b. unfold newer. apply _. Defined.

(** Modelled from the spec: how the store evaluates a query. The rows that
    pass every filter, in the requested order, cut at the limit; the
    builder calls only accumulate, whatever their order. *)
Definition rows_of (q : Query) (table : list Session) : list Session :=
  let kept := filter (λ s, satisfies q s = true) table in
  let sorted :=
    match q_ascending q with
    | Some true => merge_sort older kept
    | Some false => merge_sort newer kept
    | None => kept
    end in
  match q_limit q with
  | Some n => take n sorted
  | None => sorted
  end.

(** [await query] *)
Definition run (q : Query) : State (Reply (list Session)) :=
  request dev_ai_sessions Select (λ w, rows_of q (sessions w)) id.

(** [await query.single()] *)
Definition single (q : Query) : State (Reply (option Session)) :=
  request dev_ai_sessions Select (λ w, head (rows_of q (sessions w))) id.

(** [db.from('dev_ai_clean_transcripts').select(..).eq('session_id', sid).single()] *)
Definition clean_transcript_of (sid : string) : State (Reply (option CleanTranscript)) :=
  request dev_ai_clean_transcripts Select
    (λ w, head (filter (λ t, ct_session_id t = sid) (clean_transcripts w))) id.

(** [db.from('dev_projects').select('id, slug, name')] *)
Definition all_projects : State (Reply (list Project)) :=
  request dev_projects Select projects id.

(** [db.from('dev_ai_smart_extractions').select('id').eq('hash', h).limit(1)] *)
Definition extractions_with_hash (h : string) : State (Reply (list Row)) :=
  request dev_ai_smart_extractions Select
    (λ w, take 1 (filter (λ r, row_hash r = h) (extractions w))) id.

(** [db.from('dev_ai_smart_extractions').insert(row)] *)
Definition insert_extraction (row : Row) : State (Reply unit) :=
  request dev_ai_smart_extractions Insert (λ _, tt) (add_extraction row).

(** The time stamps that [new Date(t).toISOString()] accepts. *)
Definition valid_time (t : Z) : bool :=
  (-8640000000000000 <=? t) && (t <=? 8640000000000000).

(** ** selectSessions.js: the duration parser *)

(** [/^(\d+)(m|h|d)$/] *)
Definition DURATION_RE : regex :=
  Cat [Bol; Cap 1 (plus Js.is_digit); Cap 2 (Alt (Chr "m") (Alt (Chr "h") (Chr "d"))); Eol].

(** The table [ms] of [parseDuration]. *)
Definition ms (unit : string) : option Z :=
  if bool_decide (unit = "m") then Some (60 * 1000)
  else if bool_decide (unit = "h") then Some (60 * 60 * 1000)
  else if bool_decide (unit = "d") then Some (24 * 60 * 60 * 1000)
  else None.

(** [parseDuration], with the default of the file as a parameter: the two
    versions of the selector differ in it only.  The product is exact as
    long as it stays below 2^53; [0] stands for the [NaN] of a unit outside
    the table, which the regular expression excludes. *)
Definition parseDuration_with (default_ms : Z) (duration : string) : Z :=
  match exec no_flags DURATION_RE duration with
  | None => default_ms
  | Some m =>
      match group 1 m, group 2 m ≫= ms with
      | Some value, Some per_unit => Js.parseInt value * per_unit
      | _, _ => 0
      end
  end.


Notation "q |> f" := (f q) (at level 45, left associativity, only parsing).

(** The options object of [selectSessions]; the defaults of the
    destructuring are those of [default_options] in each version. *)
Record Options : Type := mkOptions {
  sessionId : option string;
  since : string;
  slugs : list string;
  limit : nat;
  status : option string;
}.

(** [s.project_slug || ''] *)
Definition sessionSlug (s : Session) : string := Js.or_else (sess_project_slug s) "".

(** The callback of the filter when [slugs] is not empty. *)
Definition matches_allowed (slugs : list string) (s : Session) : bool :=
  if negb (Js.truthy (sessionSlug s)) then false
  else existsb (λ slug, Js.includes (sessionSlug s) slug) slugs.

(** The callback of the filter when no slug is given. *)
Definition is_assigned (s : Session) : bool :=
  Js.truthy (sessionSlug s)
  && negb (bool_decide (sessionSlug s = "unassigned"))
  && negb (bool_decide (sessionSlug s = "terminal")).

(** The truth gate: both branches of the slug filter. *)
Definition truth_gate (slugs : list string) (sessions : list Session) : list Session :=
  if (0 <? length slugs)%nat
  then filter (λ s, matches_allowed slugs s = true) sessions
  else filter (λ s, is_assigned s = true) sessions.

(** The branch [if (sessionId)], the same in both versions. *)
Definition select_by_id (sid : string) : State (list Session) :=
  reply ← single (from_sessions |> where_ (eq_id sid));
  match reply with
  | Error _ => mret []
  | Data data => mret (option_list data)
  end.

(** *** src/selectSessions.js *)
Module SelectSessions.

Definition parseDuration : string → Z := parseDuration_with (30 * 60 * 1000).

Definition default_options : Options := mkOptions None "30m" [] 10 None.

(** The query of the window mode. *)
Definition window_query (cutoffTime : Z) (limit : nat) (status : option string) : Query :=
let query :=
from_sessions
|> where_ (gte_created_at cutoffTime)
|> where_ (not_eq_status "extracted")
|> order_created_at true
|> limit_ (limit * 3) in
match status with
| Some st => if Js.truthy st then query |> where_ (eq_status st) else query
| None => query
end.

Definition selectSessions (options : Options) : State (list Session) :=
match sessionId options with
| Some (String _ _ as sid) => select_by_id sid
| _ =>
  now ← get clock;
  let cutoffMs := parseDuration (since options) in
  if negb (valid_time (now - cutoffMs)) then mret []
  else
    let cutoffTime := now - cutoffMs in
    reply ← run (window_query cutoffTime (limit options) (status options));
    match reply with
    | Error _ => mret []
    | Data [] => mret []
    | Data sessions =>
        let filtered := truth_gate (slugs options) sessions in
        mret (take (limit options) filtered)
    end
end.

End SelectSessions.

(** *** The selector of src/unnamed/part_001, which also verifies that a
    clean transcript exists *)
Module SelectCleaned.

Definition parseDuration : string → Z := parseDuration_with (3 * 60 * 60 * 1000).

Definition default_options : Options := mkOptions None "3h" [] 20 None.

Definition window_query (cutoffTime : Z) (limit : nat) : Query :=
from_sessions
|> where_ (eq_status "cleaned")
|> where_ (gte_created_at cutoffTime)
|> order_created_at false
|> limit_ (limit * 3).

(** The loop that keeps the sessions with a clean transcript. *)
Fixpoint with_clean_transcript (filtered : list Session) : State (list Session) :=
match filtered with
| [] => mret []
| session :: more =>
  reply ← clean_transcript_of (sess_id session);
  validSessions ← with_clean_transcript more;
  match reply with
  | Data (Some _) => mret (session :: validSessions)
  | _ => mret validSessions
  end
end.

Definition selectSessions (options : Options) : State (list Session) :=
match sessionId options with
| Some (String _ _ as sid) => select_by_id sid
| _ =>
  now ← get clock;
  let cutoffMs := parseDuration (since options) in
  if negb (valid_time (now - cutoffMs)) then mret []
  else
    let cutoffTime := now - cutoffMs in
    reply ← run (window_query cutoffTime (limit options));
    match reply with
    | Error _ => mret []
    | Data [] => mret []
    | Data sessions =>
        let filtered := truth_gate (slugs options) sessions in
        validSessions ← with_clean_transcript filtered;
        mret (take (limit options) validSessions)
    end
end.

End SelectCleaned.

(** ** lib/resolveProject (src/unnamed/part_000) *)

Definition CACHE_TTL : Z := 5 * 60 * 1000.

Definition loadProjects : State (list Project) :=
  now ← get clock;
  cache ← get projectCache;
  cachedAt ← get cacheTime;
  match cache with
  | Some cached =>
      if bool_decide (now - cachedAt < CACHE_TTL) then mret cached
      else
        reply ← all_projects;
        match reply with
        | Error _ => mret []
        | Data data => _ ← modify (set_cache data now); mret data
        end
  | None =>
      reply ← all_projects;
      match reply with
      | Error _ => mret []
      | Data data => _ ← modify (set_cache data now); mret data
      end
  end.

(** [p.slug === slug] *)
Definition slug_is (slug : string) (p : Project) : bool :=
  bool_decide (proj_slug p = Some slug).

(** [p.slug && p.slug.startsWith(slug + '-')] *)
Definition slug_starts_with (slug : string) (p : Project) : bool :=
  match proj_slug p with
  | Some ps => Js.truthy ps && Js.startsWith ps (slug +:+ "-")
  | None => false
  end.

(** [p.slug && p.slug.includes(slug)] *)
Definition slug_includes (slug : string) (p : Project) : bool :=
  match proj_slug p with
  | Some ps => Js.truthy ps && Js.includes ps slug
  | None => false
  end.

(** The guard of [resolveProjectId]:
    [!slug || slug === 'null' || slug === 'terminal' || slug === 'unassigned'] *)
Definition unresolvable (slug : option string) : bool :=
  match slug with
  | None => true
  | Some s =>
      negb (Js.truthy s)
      || bool_decide (s = "null")
      || bool_decide (s = "terminal")
      || bool_decide (s = "unassigned")
  end.

(** The three searches, in the order of the source. *)
Definition match_project (slug : string) (projects : list Project) : option Project :=
  match List.find (slug_is slug) projects with
  | Some m => Some m
  | None =>
      match List.find (slug_starts_with slug) projects with
      | Some m => Some m
      | None => List.find (slug_includes slug) projects
      end
  end.

Definition resolveProjectId (slug : option string) : State (option string) :=
  if unresolvable slug then mret None
  else
    projects ← loadProjects;
    mret (proj_id <$> match_project (default "" slug) projects).

(** ** extract/extractItems.js *)

(** What [loadTranscript] returns: the content and the metadata. *)
Record Transcript : Type := mkTranscript {
  tr_content : string;
  tr_source : string;
  tr_summary : option string;
  tr_slug : option string;
  tr_fileRefs : list string;
}.

Definition Todos : string := "Todos".
Definition Bugs_Open : string := "Bugs Open".
Definition Decisions : string := "Decisions".
Definition Work_Log : string := "Work Log".

(** The table [PATTERNS]; every expression has flag [g]. *)
Module PATTERNS.

Definition todo : list (flags * regex) :=
[ (* /^\s*TODO:\s*(.{10,200})$/gmi *)
(gmi, Cat [Bol; star Js.is_space; Lit "TODO:"; star Js.is_space;
           Cap 1 (Rep Js.is_dot 10 (Some 200%nat)); Eol]);
(* /^\s*FIXME:\s*(.{10,200})$/gmi *)
(gmi, Cat [Bol; star Js.is_space; Lit "FIXME:"; star Js.is_space;
           Cap 1 (Rep Js.is_dot 10 (Some 200%nat)); Eol]);
(* /^\s*ACTION ITEM:\s*(.{10,200})$/gmi *)
(gmi, Cat [Bol; star Js.is_space; Lit "ACTION ITEM:"; star Js.is_space;
           Cap 1 (Rep Js.is_dot 10 (Some 200%nat)); Eol]);
(* /^\s*(?:-|\x2A)\s*\[\s*\]\s+(.{10,200})$/gm, \x2A being the star *)
(gm, Cat [Bol; star Js.is_space; Alt (Chr "-") (Chr "*"); star Js.is_space;
          Chr "["; star Js.is_space; Chr "]"; plus Js.is_space;
          Cap 1 (Rep Js.is_dot 10 (Some 200%nat)); Eol]) ].

Definition bug : list (flags * regex) :=
[ (* /^\s*BUG:\s*(.{10,200})$/gmi *)
(gmi, Cat [Bol; star Js.is_space; Lit "BUG:"; star Js.is_space;
           Cap 1 (Rep Js.is_dot 10 (Some 200%nat)); Eol]);
(* /^\s*ISSUE:\s*(.{10,200})$/gmi *)
(gmi, Cat [Bol; star Js.is_space; Lit "ISSUE:"; star Js.is_space;
           Cap 1 (Rep Js.is_dot 10 (Some 200%nat)); Eol]);
(* /^\s*ERROR:\s*(.{10,200})$/gmi *)
(gmi, Cat [Bol; star Js.is_space; Lit "ERROR:"; star Js.is_space;
           Cap 1 (Rep Js.is_dot 10 (Some 200%nat)); Eol]) ].

Definition decision : list (flags * regex) :=
[ (* /^\s*DECISION:\s*(.{10,200})$/gmi *)
(gmi, Cat [Bol; star Js.is_space; Lit "DECISION:"; star Js.is_space;
           Cap 1 (Rep Js.is_dot 10 (Some 200%nat)); Eol]);
(* /^\s*DECIDED:\s*(.{10,200})$/gmi *)
(gmi, Cat [Bol; star Js.is_space; Lit "DECIDED:"; star Js.is_space;
           Cap 1 (Rep Js.is_dot 10 (Some 200%nat)); Eol]) ].

End PATTERNS.

(** [/^USER:/gm] and [/^ASSISTANT:/gm] *)
Definition USER_TURN : regex := Cat [Bol; Lit "USER:"].
Definition ASSISTANT_TURN : regex := Cat [Bol; Lit "ASSISTANT:"].

(** [/^USER:\s*(.{20,200})/m] *)
Definition FIRST_USER : regex :=
  Cat [Bol; Lit "USER:"; star Js.is_space; Cap 1 (Rep Js.is_dot 20 (Some 200%nat))].

(** The topic of [generateWorklog]. *)
Definition topic (content : string) : string :=
  match exec gm FIRST_USER content with
  | Some firstUserMatch =>
      Js.trim (Js.first_line (default "" (group 1 firstUserMatch)))
  | None => "Development work"
  end.

Definition turns (content : string) : nat :=
  let userTurns := length (exec_all gm USER_TURN content) in
  let assistantTurns := length (exec_all gm ASSISTANT_TURN content) in
  (userTurns + assistantTurns)%nat.

Definition generateWorklog (content : string) (session : Session) : Item :=
  let slug := Js.or_else (sess_project_slug session) "unknown" in
  {| bucket := Work_Log;
     title := Some (slug +:+ ": " +:+ Js.take 80 (topic content));
     content :=
       "Development session on " +:+ slug +:+ ". " +:+ Js.show_nat (turns content)
       +:+ " conversation turns.";
     priority := None;
     tags := [slug];
     evidence :=
       [ {| session_id := Some (sess_id session);
            excerpt := topic content;
            location := "session-summary" |} ] |}.

(** The body of the three [while] loops of [extractWithRules], which differ
    in the bucket and the priority only: one match, the items and the set
    [seen] so far. *)
Definition consider (bucket : string) (priority : option string) (session : Session)
    (acc : list Item * gset string) (m : result) : list Item * gset string :=
  let '(items, seen) := acc in
  match Js.trim <$> group 1 m with
  | Some text =>
      if Js.truthy text && (10 <=? String.length text)%nat
         && negb (bool_decide (Js.toLowerCase text ∈ seen))
      then
        (items ++
           [ {| bucket := bucket;
                title := Some (Js.take 150 text);
                content := text;
                priority := priority;
                tags := [];
                evidence :=
                  [ {| session_id := Some (sess_id session);
                       excerpt := Js.take 150 (m_text m);
                       location := "strict-marker" |} ] |} ],
         {[ Js.toLowerCase text ]} ∪ seen)
      else acc
  | None => acc
  end.

(** One [for (const pattern of ...)] loop. *)
Definition sweep (patterns : list (flags * regex)) (bucket : string)
    (priority : option string) (content : string) (session : Session)
    (acc : list Item * gset string) : list Item * gset string :=
  foldl
    (λ acc pattern,
       foldl (consider bucket priority session) acc
         (exec_all pattern.1 pattern.2 content))
    acc patterns.

Definition extractWithRules (content : string) (session : Session) : list Item :=
  let acc := ([], ∅) in
  let acc := sweep PATTERNS.todo Todos (Some "medium") content session acc in
  let acc := sweep PATTERNS.bug Bugs_Open (Some "high") content session acc in
  let acc := sweep PATTERNS.decision Decisions None content session acc in
  acc.1.

Definition extractItems (transcript : option Transcript) (session : Session) : list Item :=
  match transcript with
  | Some tr =>
      if negb (Js.truthy (tr_content tr)) then []
      else
        let worklog := generateWorklog (tr_content tr) session in
        let ruleItems := extractWithRules (tr_content tr) session in
        [worklog] ++ ruleItems
  | None => []
  end.

(** ** extract/validateItems (second half of src/unnamed/part_001) *)

Definition VALID_BUCKETS : list string :=
  [ "Bugs Open"; "Bugs Fixed"; "Todos"; "Journal"; "Work Log"; "Ideas"; "Decisions";
    "Lessons"; "System Breakdown"; "How-To Guide"; "Schematic"; "Reference";
    "Naming Conventions"; "File Structure"; "Database Patterns"; "API Patterns";
    "Component Patterns"; "Quirks & Gotchas"; "Snippets"; "Other" ].

Definition VALID_PRIORITIES : list string := [ "low"; "medium"; "high"; "critical" ].

(** The messages of the schema validator for the keywords [minLength] and
    [maxLength] of a string property. *)
Definition length_errors (path : string) (minLength : option nat) (maxLength : nat)
    (s : string) : list string :=
  (match minLength with
   | Some lo =>
       if (String.length s <? lo)%nat
       then [path +:+ " must NOT have fewer than " +:+ Js.show_nat lo +:+ " characters"]
       else []
   | None => []
   end)
  ++ (if (maxLength <? String.length s)%nat
      then [path +:+ " must NOT have more than " +:+ Js.show_nat maxLength +:+ " characters"]
      else []).

(** The sub-schema of one evidence entry, at index [i]. *)
Definition evidence_errors (i : nat) (e : Evidence) : list string :=
  let path := "/evidence/" +:+ Js.show_nat i in
  (match session_id e with
   | Some _ => []
   | None => [path +:+ " must have required property 'session_id'"]
   end)
  ++ length_errors (path +:+ "/excerpt") None 500 (excerpt e).

(** [validateBase], the compiled [baseItemSchema] with [allErrors]: the
    messages [instancePath + ' ' + message] of every keyword that fails. *)
Definition validateBase (item : Item) : list string :=
  (if bool_decide (bucket item ∈ VALID_BUCKETS) then []
   else ["/bucket must be equal to one of the allowed values"])
  ++ (match title item with
      | Some t => length_errors "/title" (Some 1%nat) 500 t
      | None => []
      end)
  ++ length_errors "/content" (Some 5%nat) 10000 (content item)
  ++ (match priority item with
      | Some p =>
          if bool_decide (p ∈ VALID_PRIORITIES) then []
          else ["/priority must be equal to one of the allowed values"]
      | None => []
      end)
  ++ (if (length (evidence item) <? 1)%nat
      then ["/evidence must NOT have fewer than 1 items"] else [])
  ++ concat (imap evidence_errors (evidence item)).

(** The list [garbagePatterns] of [validateItem]. *)
Definition garbagePatterns : list regex :=
  [ Cat [Bol; Chr "|"];                                     (* /^\|/ *)
    Cat [Bol; Chr "["; plus Js.is_digit; Chr "]"];          (* /^\[\d+\]/ *)
    Cat [Bol; Lit "http"];                                  (* /^http/ *)
    Cat [Bol; star Js.is_space; Eol];                       (* /^\s*$/ *)
    Cat [Bol; star (λ c, negb (Js.is_alpha c)); Eol] ].     (* /^[^a-zA-Z]*$/ *)

Definition title_is_garbage (t : string) : bool :=
  existsb (λ p, test no_flags p t) garbagePatterns.

Record Verdict : Type := mkVerdict { valid : bool; errors : list string }.

Definition validateItem (item : Item) : Verdict :=
  let errors := validateBase item in
  let errors :=
    if negb (Js.truthy (Js.trim (content item)))
    then errors ++ ["content is empty or whitespace only"] else errors in
  let errors :=
    if negb (existsb (λ e, Js.truthy (default "" (session_id e))) (evidence item))
    then errors ++ ["evidence must include at least one session_id"] else errors in
  let errors :=
    match title item with
    | Some (String _ _ as t) =>
        if title_is_garbage t then errors ++ ["title appears to be garbage"] else errors
    | _ => errors
    end in
  let errors :=
    if Js.truthy (content item) && (String.length (content item) <? 10)%nat
    then errors ++ ["content too short to be meaningful"] else errors in
  mkVerdict (bool_decide (length errors = 0%nat)) errors.

Fixpoint join (sep : string) (parts : list string) : string :=
  match parts with
  | [] => ""
  | [p] => p
  | p :: more => p +:+ sep +:+ join sep more
  end.

Record Invalid : Type := mkInvalid { inv_item : Item; inv_error : string }.

Definition validateItems (items : list Item) : list Item * list Invalid :=
  foldl
    (λ acc item,
       let result := validateItem item in
       if valid result then (acc.1 ++ [item], acc.2)
       else (acc.1, acc.2 ++ [mkInvalid item (join "; " (errors result))]))
    ([], []) items.

(** ** extract/insertStaging.js *)

Definition generateHash (item : Item) : string :=
  let data :=
    join "|"
      [ Js.or_else (title item) "";
        Js.take 200 (content item);
        Js.or_else (head (evidence item) ≫= session_id) "" ] in
  Md5.md5 data.

Definition isDuplicate (hash : string) : State bool :=
  reply ← extractions_with_hash hash;
  match reply with
  | Data data => mret (0 <? length data)%nat
  | Error _ => mret false
  end.

Definition bucket_categories : gmap string string :=
  list_to_map
    [ ("Bugs Open", "bug"); ("Bugs Fixed", "bug"); ("Todos", "todo");
      ("Journal", "general"); ("Work Log", "general"); ("Ideas", "knowledge");
      ("Decisions", "decision"); ("Lessons", "lesson"); ("System Breakdown", "knowledge");
      ("How-To Guide", "knowledge"); ("Schematic", "knowledge"); ("Reference", "knowledge");
      ("Naming Conventions", "config"); ("File Structure", "config");
      ("Database Patterns", "config"); ("API Patterns", "config");
      ("Component Patterns", "config"); ("Quirks & Gotchas", "knowledge");
      ("Snippets", "knowledge"); ("Other", "general") ].

(** The properties that an object literal inherits from [Object.prototype];
    each of them is a function or an object, and so truthy. *)
Definition OBJECT_PROTOTYPE : list string :=
  [ "constructor"; "__defineGetter__"; "__defineSetter__"; "hasOwnProperty";
    "__lookupGetter__"; "__lookupSetter__"; "isPrototypeOf"; "propertyIsEnumerable";
    "toString"; "valueOf"; "__proto__"; "toLocaleString" ].

Definition mapBucketToCategory (bucket : string) : Category :=
  match bucket_categories !! bucket with
  | Some name => category (Js.or_else (Some name) "general")
  | None =>
      if bool_decide (bucket ∈ OBJECT_PROTOTYPE) then inherited bucket
      else category "general"
  end.

(** What [insertStaging] returns; [error] only on the guardrail path. *)
Record Staged : Type := mkStaged {
  inserted : nat;
  duplicates : nat;
  rejected : nat;
  error : option string;
}.

(** The row that the loop builds for an item that is not a duplicate. *)
Definition row_of (item : Item) (sessionId : string) (projectSlug : option string)
    (projectId hash : string) (now : Z) : Row :=
  {| row_bucket := bucket item;
     row_category := mapBucketToCategory (bucket item);
     row_content := content item;
     row_title := Js.or_else (title item) (Js.first_line (Js.take 200 (content item)));
     row_priority := Js.or_else (priority item) "medium";
     row_status := "pending";
     row_session_id := sessionId;
     row_project_id := projectId;
     row_hash := hash;
     row_metadata :=
       {| md_evidence := evidence item;
          md_extractor := "jason-v1";
          md_project_slug := projectSlug;
          md_extracted_at := now |};
     row_created_at := now |}.

(** The loop [for (const item of items)], with the three counters. *)
Fixpoint stage (items : list Item) (sessionId : string) (projectSlug : option string)
    (projectId : string) (counts : Staged) : State Staged :=
  match items with
  | [] => mret counts
  | item :: more =>
      let hash := generateHash item in
      dup ← isDuplicate hash;
      if dup : bool then
        stage more sessionId projectSlug projectId
          (mkStaged (inserted counts) (S (duplicates counts)) (rejected counts) None)
      else
        now ← get clock;
        reply ← insert_extraction (row_of item sessionId projectSlug projectId hash now);
        match reply with
        | Error _ =>
            stage more sessionId projectSlug projectId
              (mkStaged (inserted counts) (duplicates counts) (S (rejected counts)) None)
        | Data _ =>
            stage more sessionId projectSlug projectId
              (mkStaged (S (inserted counts)) (duplicates counts) (rejected counts) None)
        end
  end.

Definition insertStaging (items : list Item) (sessionId : string)
    (projectSlug : option string) : State Staged :=
  projectId ←
    (if Js.truthy (default "" projectSlug) then resolveProjectId projectSlug
     else mret None);
  match projectId with
  | Some (String _ _ as projectId) =>
      stage items sessionId projectSlug projectId (mkStaged 0 0 0 None)
  | _ => mret (mkStaged 0 0 (length items) (Some "project_id unresolved"))
  end.

(** ** extract/loadTranscript.js *)

Definition loadTranscript (sessionId : string) : State (option Transcript) :=
  reply ← clean_transcript_of sessionId;
  match reply with
  | Error _ => mret None
  | Data None => mret None
  | Data (Some cleanTranscript) =>
      if negb (Js.truthy (ct_clean_text cleanTranscript)) then mret None
      else
        meta ← single (from_sessions |> where_ (eq_id sessionId));
        let session := match meta with Data data => data | Error _ => None end in
        mret (Some {| tr_content := ct_clean_text cleanTranscript;
                      tr_source := "dev_ai_clean_transcripts";
                      tr_summary := session ≫= sess_summary;
                      tr_slug := session ≫= sess_project_slug;
                      tr_fileRefs := ct_file_refs cleanTranscript |})
  end.

(** ** extract/markExtracted.js *)

(** The update of [markExtracted] on one row. *)
Definition extracted (metadata : ExtractionMetadata) (now : Z) (s : Session) : Session :=
  Build_Session (sess_id s) (sess_project_slug s) "extracted" (sess_created_at s)
    (sess_summary s) (Some now) (Some metadata).

(** [db.from('dev_ai_sessions').update(updateData).eq('id', sessionId)] *)
Definition update_session (sessionId : string) (change : Session → Session)
    : State (Reply unit) :=
  request dev_ai_sessions Update (λ _, tt)
    (λ w, set_sessions
            ((λ s, if bool_decide (sess_id s = sessionId) then change s else s)
               <$> sessions w) w).

Definition markExtracted (sessionId : string) (extraction_version : string)
    (items_created duplicates_skipped : nat) : State bool :=
  now ← get clock;
  let metadata :=
    mkExtractionMetadata extraction_version items_created duplicates_skipped
      "jason-v1" now in
  reply ← update_session sessionId (extracted metadata now);
  match reply with
  | Error _ => mret false
  | Data _ => mret true
  end.

(** ** run.js: the command [extract] *)

Definition ALLOWED_SLUGS : list string :=
  [ "ai-chad"; "ai-jen"; "ai-susan"; "ai-clair"; "ai-jason"; "dev-studio";
    "kodiack-dashboard"; "kodiack-studio"; "nextbid"; "premier-group" ].

(** The options of the command; [--limit] as the text that [parseInt]
    reads. *)
Record Command : Type := mkCommand {
  cmd_scheduled : bool;
  cmd_session : option string;
  cmd_since : string;
  cmd_slugs : string;
  cmd_dryRun : bool;
  cmd_limit : string;
}.

(** The defaults of the command line. *)
Definition default_command : Command :=
  mkCommand false None "3h" (join "," ALLOWED_SLUGS) false "10".

Record Stats : Type := mkStats {
  sessions_scanned : nat;
  sessions_processed : nat;
  todos : nat;
  bugs : nat;
  worklogs : nat;
  decisions : nat;
  stat_duplicates : nat;
  stat_errors : nat;
}.

(** How the command ends: [process.exit(1)], or the report of the run. *)
Inductive Outcome : Type :=
| Exit (code : nat)
| Report (stats : Stats).

(** [s.split(',')] *)
Fixpoint split_commas (s : string) : list string :=
  match s with
  | EmptyString => [""]
  | String c s' =>
      if bool_decide (c = ","%char) then "" :: split_commas s'
      else
        match split_commas s' with
        | part :: parts => String c part :: parts
        | [] => [String c ""]
        end
  end.

(** [options.slugs.split(',').map(s => s.trim()).filter(Boolean)], and the
    filter against [ALLOWED_SLUGS]. *)
Definition validSlugs (slugs : string) : list string :=
  let slugs := List.filter Js.truthy (Js.trim <$> split_commas slugs) in
  List.filter (λ s, existsb (λ allowed, Js.startsWith s allowed) ALLOWED_SLUGS) slugs.

(** The callback of [valid.forEach]. *)
Definition count_item (stats : Stats) (item : Item) : Stats :=
  let '(mkStats scanned processed t b w d dup err) := stats in
  if bool_decide (bucket item = "Todos") then mkStats scanned processed (S t) b w d dup err
  else if bool_decide (bucket item = "Bugs Open") || bool_decide (bucket item = "Bugs Fixed")
  then mkStats scanned processed t (S b) w d dup err
  else if bool_decide (bucket item = "Work Log") then mkStats scanned processed t b (S w) d dup err
  else if bool_decide (bucket item = "Decisions") then mkStats scanned processed t b w (S d) dup err
  else stats.

Definition add_duplicates (n : nat) (stats : Stats) : Stats :=
  let '(mkStats scanned processed t b w d dup err) := stats in
  mkStats scanned processed t b w d (dup + n) err.

Definition add_processed (stats : Stats) : Stats :=
  let '(mkStats scanned processed t b w d dup err) := stats in
  mkStats scanned (S processed) t b w d dup err.

(** The body of the loop over the sessions. *)
Definition process (dryRun : bool) (session : Session) (stats : Stats) : State Stats :=
  transcript ← loadTranscript (sess_id session);
  match transcript with
  | None => mret stats
  | Some tr =>
      if negb (Js.truthy (tr_content tr)) then mret stats
      else
        let items := extractItems (Some tr) session in
        let '(valid, invalid) := validateItems items in
        if bool_decide (length valid = 0%nat) then mret stats
        else
          let stats := foldl count_item stats valid in
          if dryRun then mret (add_processed stats)
          else
            staged ← insertStaging valid (sess_id session) (sess_project_slug session);
            let stats := add_duplicates (duplicates staged) stats in
            _ ← markExtracted (sess_id session) "1.0.0" (inserted staged) (duplicates staged);
            mret (add_processed stats)
  end.

Fixpoint process_all (dryRun : bool) (sessions : list Session) (stats : Stats)
    : State Stats :=
  match sessions with
  | [] => mret stats
  | session :: more =>
      stats ← process dryRun session stats;
      process_all dryRun more stats
  end.

(** The action of the command, for a selector [selectSessions]: the command
    works with either version.  The limit is what [Js.parseInt] reads of
    the option; a text without digits selects nothing, as the limit [NaN]
    does ([slice(0, NaN)] is empty).  The limit of [Options] is a count: the
    run with a negative limit is not modelled, and what is stated of the
    limit is stated of limits that are not negative. *)
Definition extract (selectSessions : Options → State (list Session)) (options : Command)
    : State Outcome :=
  if bool_decide (length (validSlugs (cmd_slugs options)) = 0%nat) then mret (Exit 1)
  else
    sessions ←
      (if Js.truthy (default "" (cmd_session options))
       then selectSessions (mkOptions (cmd_session options) "30m" [] 10 None)
       else selectSessions
              (mkOptions None (cmd_since options) (validSlugs (cmd_slugs options))
                 (Z.to_nat (Js.parseInt (cmd_limit options))) (Some "cleaned")));
    let stats := mkStats (length sessions) 0 0 0 0 0 0 0 in
    stats ← process_all (cmd_dryRun options) sessions stats;
    mret (Report stats).

(** ** The statements of the specification *)

(** The form [<integer><unit>] of a lookback expression: decimal digits, at
    least one, and then one of [m], [h] and [d]. *)
Definition is_unit (c : ascii) : bool :=
  bool_decide (c = "m"%char) || bool_decide (c = "h"%char) || bool_decide (c = "d"%char).

Fixpoint duration_form_go (digits_seen : bool) (s : string) : bool :=
  match s with
  | EmptyString => false
  | String c EmptyString => digits_seen && is_unit c
  | String c s' => Js.is_digit c && duration_form_go true s'
  end.

Definition duration_form (s : string) : bool := duration_form_go false s.

(** [token] occurs in [s] as a substring. *)
Definition substring_of (token s : string) : Prop :=
  ∃ pre post, s = pre +:+ token +:+ post.

(** The truth gate, in the words of the specification: the slug is not
    empty, and it is none of the reserved values when no slug is allowed
    explicitly, or else it contains an allowed token. *)
Definition passes_truth_gate (allowed : list string) (s : Session) : Prop :=
  ∃ slug,
    sess_project_slug s = Some slug ∧ slug ≠ ""
    ∧ match allowed with
      | [] => slug ≠ "unassigned" ∧ slug ≠ "terminal"
      | _ :: _ => ∃ token, token ∈ allowed ∧ substring_of token slug
      end.

(** Selection by window: no session identity is given. *)
Definition by_window (options : Options) : Prop :=
  sessionId options = None ∨ sessionId options = Some "".

(** The next store request succeeds. *)
Definition next_request_succeeds (w : World) : Prop := head (faults w) ≠ Some true.

(** The predicate that [truth_gate] filters with. *)
Definition admits (allowed : list string) (s : Session) : bool :=
  if (0 <? length allowed)%nat then matches_allowed allowed s else is_assigned s.

(** The sessions of the store that pass every filter of the window mode of
    src/selectSessions.js: the conditions of the query and the truth gate. *)
Definition eligible (options : Options) (w : World) : list Session :=
  truth_gate (slugs options)
    (filter
       (λ s, satisfies
               (SelectSessions.window_query
                  (clock w - SelectSessions.parseDuration (since options))
                  (limit options) (status options)) s = true)
       (sessions w)).

(** [kept] is the part of [candidates] that comes first in the order [R]:
    whatever was left out comes after everything that was kept. *)
Definition keeps_first (R : relation Session) (candidates kept : list Session) : Prop :=
  ∃ left_out,
    candidates ≡ₚ kept ++ left_out
    ∧ ∀ r s, r ∈ kept → s ∈ left_out → R r s.

(** The statement that the selector never hands out an extracted session,
    whatever the mode. *)
Definition never_selects_extracted (select : Options → State (list Session)) : Prop :=
  ∀ options w s, s ∈ (select options w).1 → sess_status s ≠ "extracted".

(** The staging table of [w'] is that of [w] with new rows at the end, all
    of them satisfying [P]. *)
Definition staged_more (P : Row → Prop) (w w' : World) : Prop :=
  ∃ new, extractions w' = extractions w ++ new ∧ Forall P new.

(** The identity of a session is borne by no other session of the store. *)
Definition unique_id (s : Session) (w : World) : Prop :=
  ∀ s', s' ∈ sessions w → sess_id s' = sess_id s → s' = s.

(** The statement that a run stages nothing for a session whose status is
    [extracted] already, whatever the mode: the staged rows of that session
    are the same after the run. *)
Definition runs_skip_extracted (select : Options → State (list Session)) : Prop :=
  ∀ (command : Command) (w : World) (s : Session),
    s ∈ sessions w →
    unique_id s w →
    sess_status s = "extracted" →
    filter (λ row, row_session_id row = sess_id s) (extractions (extract select command w).2)
    = filter (λ row, row_session_id row = sess_id s) (extractions w).

(** A run by window: the command names no session. *)
Definition run_by_window (command : Command) : Prop :=
  cmd_session command = None ∨ cmd_session command = Some "".

(** The statement that the window mode keeps the most recent of the
    eligible sessions. *)
Definition keeps_most_recent (select : Options → State (list Session)) : Prop :=
  ∀ options w,
    by_window options →
    next_request_succeeds w →
    valid_time (clock w - SelectSessions.parseDuration (since options)) = true →
    keeps_first newer (eligible options w) (select options w).1.


(** A clean transcript is on record for the session. *)
Definition has_clean_transcript (w : World) (s : Session) : Prop :=
  is_Some (head (filter (λ t, ct_session_id t = sess_id s) (clean_transcripts w))).

(** The sessions that pass every filter of the selector of
    src/unnamed/part_001: the query, the truth gate and the transcript
    check. *)
Definition eligible_cleaned (options : Options) (w : World) : list Session :=
  filter (has_clean_transcript w)
    (truth_gate (slugs options)
       (filter
          (λ s, satisfies
                  (SelectCleaned.window_query
                     (clock w - SelectCleaned.parseDuration (since options))
                     (limit options)) s = true)
          (sessions w))).

(** The first project, in the order of the list, whose slug passes [test]. *)
Definition first_project (test : string → bool) (projects : list Project) : option Project :=
  head (filter (λ p, from_option test false (proj_slug p) = true) projects).

(** The resolution order in the words of the specification: the first exact
    match, else the first project whose slug starts with the input and a
    hyphen, else the first project whose slug contains the input. *)
Definition resolution_order (slug : string) (projects : list Project) : option Project :=
  match first_project (λ ps, bool_decide (ps = slug)) projects with
  | Some p => Some p
  | None =>
      match first_project (λ ps, Js.startsWith ps (slug +:+ "-")) projects with
      | Some p => Some p
      | None => first_project (λ ps, Js.includes ps slug) projects
      end
  end.

(** The statement of the specification about [resolveProjectId]: [null],
    "unassigned" and "terminal" resolve to nothing without a lookup, every
    other input follows the resolution order. *)
Definition resolves_as_stated : Prop :=
  ∀ (slug : option string) (w : World),
    (slug ∈ [None; Some "unassigned"; Some "terminal"] →
     resolveProjectId slug w = (None, w))
    ∧ (∀ s, slug = Some s → s ∉ ["unassigned"; "terminal"] →
       (resolveProjectId slug w).1
       = proj_id <$> resolution_order s (loadProjects w).1).

(** Two items agree on what the fingerprint reads: the title (none counts
    as empty), the first 200 characters of the content, and the session
    reference of the first evidence entry. *)
Definition same_fingerprint_input (a b : Item) : Prop :=
  default "" (title a) = default "" (title b)
  ∧ Js.take 200 (content a) = Js.take 200 (content b)
  ∧ head (evidence a) ≫= session_id = head (evidence b) ≫= session_id.

(** A row with this fingerprint is staged. *)
Definition staged_with (hash : string) (w : World) : Prop :=
  Exists (λ row, row_hash row = hash) (extractions w).

(** What a resolution may change in the world: the cache, and one more
    request to the project table. *)
Definition only_looked_up (w w' : World) : Prop :=
  extractions w' = extractions w
  ∧ sessions w' = sessions w
  ∧ (requests w' = requests w ∨ requests w' = requests w ++ [(dev_projects, Select)]).

(** The title rule, in the words of the specification. *)
Definition with_title (t : option string) (item : Item) : Item :=
  mkItem (bucket item) t (content item) (priority item) (tags item) (evidence item).

Definition begins_with_pipe (t : string) : bool :=
  match t with
  | String c _ => bool_decide (c = "|"%char)
  | EmptyString => false
  end.

(** Digits, at least one, and a closing bracket. *)
Fixpoint digits_then_bracket (digit_seen : bool) (s : string) : bool :=
  match s with
  | String c s' =>
      if Js.is_digit c then digits_then_bracket true s'
      else digit_seen && bool_decide (c = "]"%char)
  | EmptyString => false
  end.

(** A bracketed ordinal such as [[12]] at the start. *)
Definition begins_with_ordinal (t : string) : bool :=
  match t with
  | String c rest => bool_decide (c = "["%char) && digits_then_bracket false rest
  | EmptyString => false
  end.

Definition is_blank (t : string) : bool := Js.all_chars Js.is_space t.

Definition has_no_letter (t : string) : bool :=
  Js.all_chars (λ c, negb (Js.is_alpha c)) t.

(** The characters of a URL scheme after the first letter, up to [://]. *)
Fixpoint scheme_then_slashes (s : string) : bool :=
  match s with
  | String ":" (String "/" (String "/" _)) => true
  | String c s' =>
      (Js.is_alpha c || Js.is_digit c
       || bool_decide (c = "+"%char) || bool_decide (c = "-"%char)
       || bool_decide (c = "."%char))
      && scheme_then_slashes s'
  | EmptyString => false
  end.

(** A URL scheme at the start: [http://], [https://], [ftp://] and the like. *)
Definition begins_with_url_scheme (t : string) : bool :=
  match t with
  | String c rest => Js.is_alpha c && scheme_then_slashes rest
  | EmptyString => false
  end.

(** The titles that the title rule refuses, with [begins] for what the
    third condition looks at. *)
Definition garbage_title (begins : string → bool) (t : string) : bool :=
  begins_with_pipe t || begins_with_ordinal t || begins t || is_blank t || has_no_letter t.

(** The statement of the specification about titles. *)
Definition rejects_titles_as_stated : Prop :=
  ∀ (item : Item) (t : string),
    title item = Some t →
    garbage_title begins_with_url_scheme t = true →
    valid (validateItem item) = false.



(** The lines of a text: what lies between line terminators. *)
Fixpoint lines (s : string) : list string :=
  match s with
  | EmptyString => [""]
  | String c s' =>
      if Js.is_line_terminator c then "" :: lines s'
      else
        match lines s' with
        | l :: ls => String c l :: ls
        | [] => [String c ""]
        end
  end.

(** The position after a code unit [p] is at the start of a line. *)
Definition bol (p : option ascii) : bool :=
  match p with
  | None => true
  | Some c => Js.is_line_terminator c
  end.

(** The lines that begin at or after a position of the text: all the lines
    of what follows when the position is at the start of a line, all but the
    first otherwise. *)
Definition lines_from (at_start : bool) (s : string) : list string :=
  if at_start then lines s else tail (lines s).

(** The number of lines that begin with a word. *)
Definition lines_starting (word content : string) : nat :=
  length (filter (λ l, Js.startsWith l word = true) (lines content)).

(** The turns of a transcript: the lines that begin with one of the two
    turn markers. *)
Definition turn_lines (content : string) : nat :=
  (lines_starting "USER:" content + lines_starting "ASSISTANT:" content)%nat.

(** The first line that begins with the USER turn marker. *)
Definition first_user_line (content : string) : option string :=
  head (filter (λ l, Js.startsWith l "USER:" = true) (lines content)).

(** No line begins with the USER turn marker. *)
Definition no_user_line (ls : list string) : Prop :=
  Forall (λ l, Js.startsWith l "USER:" = false) ls.

(** A text that ends a line, or ends the subject: it is empty or begins
    with a line terminator. *)
Definition ends_line (after : string) : Prop :=
  match after with
  | EmptyString => True
  | String c _ => Js.is_line_terminator c = true
  end.

(** The first user turn of a transcript with text to show: the transcript
    is [before], the marker at the start of a line, white space, the text
    [t] of 20 to 200 characters on one line, and [after]; no line of
    [before] begins with the marker. *)
Record first_user_turn (content before sp t after : string) : Prop := {
  fut_content : content = before +:+ "USER:" +:+ sp +:+ t +:+ after;
  fut_line_start : bol (prev_after None before) = true;
  fut_first : no_user_line (lines before);
  fut_space : Js.all_chars Js.is_space sp = true;
  fut_text : Js.all_chars Js.is_dot t = true;
  fut_no_space : Js.trimStart t = t;
  fut_min : (20 ≤ String.length t)%nat;
  fut_max : (String.length t ≤ 200)%nat;
  fut_end : String.length t = 200%nat ∨ ends_line after;
}.

(** The slug that the work log prints. *)
Definition worklog_slug (session : Session) : string :=
  Js.or_else (sess_project_slug session) "unknown".

(** The statement of the specification about the title of the work log:
    the slug, and then either the generic label or text of the first line
    that begins with the USER turn marker. *)
Definition title_from_first_user_line (content : string) (session : Session)
    (t : string) : Prop :=
  t = worklog_slug session +:+ ": Development work"
  ∨ ∃ line text,
      first_user_line content = Some line
      ∧ substring_of text line
      ∧ t = worklog_slug session +:+ ": " +:+ text.

Definition worklog_title_as_stated : Prop :=
  ∀ (tr : Transcript) (session : Session),
    tr_content tr ≠ "" →
    ∃ worklog t,
      head (extractItems (Some tr) session) = Some worklog
      ∧ title worklog = Some t
      ∧ title_from_first_user_line (tr_content tr) session t.














(** ** A small store, for the examples *)
Module Example.

Definition newline : string := String (ascii_of_N 10) "".

Definition extracted_session : Session :=
mkSession "s-0" (Some "ai-jason-5408") "extracted" 500.
Definition old_session : Session :=
mkSession "s-1" (Some "ai-jason-5408") "cleaned" 1000.
Definition recent_session : Session :=
mkSession "s-2" (Some "ai-jason-5408") "cleaned" 2000.

Definition jason : Project := mkProject "p-jason" (Some "ai-jason-5408") "Jason".

Definition transcript_text : string :=
"USER: hi" +:+ newline +:+
"ASSISTANT: hello" +:+ newline +:+
"USER: please refactor the parser module" +:+ newline +:+
"TODO: fix the login bug" +:+ newline +:+
"BUG: payments fail silently".




Definition store : World :=
{| sessions := [extracted_session; old_session; recent_session];
 clean_transcripts :=
   [ mkCleanTranscript "s-0" transcript_text [];
     mkCleanTranscript "s-1" transcript_text [];
     mkCleanTranscript "s-2" transcript_text [] ];
 extractions := [];
 projects := [jason];
 projectCache := None;
 cacheTime := 0;
 clock := 3000;
 faults := [];
 requests := [] |}.

(** [--since 30m --slugs ai-jason --limit 1], as [run.js] passes them. *)
Definition window_options : Options :=
mkOptions None "30m" ["ai-jason"] 1 (Some "cleaned").

(** [--session s-0] *)
Definition identity_options : Options :=
mkOptions (Some "s-0") "30m" [] 10 None.

(** [extract --session s-1] *)
Definition session_command : Command :=
mkCommand false (Some "s-1") "3h" (join "," ALLOWED_SLUGS) false "10".

(** The store when its sixth request is going to fail: in a run of
  [session_command] that is the insert of the first item. *)
Definition flaky_store : World :=
mkWorld (sessions store) (clean_transcripts store) [] (projects store) None 0 3000
[false; false; false; false; false; true] [].

(** The store that a first run of [session_command] leaves. *)
Definition after_first_run : World :=
(extract SelectSessions.selectSessions session_command flaky_store).2.

(** The session [s-1] as that run marks it. *)
Definition old_session_extracted : Session :=
extracted (mkExtractionMetadata "1.0.0" 2 0 "jason-v1" 3000) 3000 old_session.

(** The sessions of [store] that pass the filters of [window_options]. *)
Definition eligible_sessions : list Session := [old_session; recent_session].

(** A project whose slug starts with the word "null". *)
Definition null_island : Project := mkProject "p-null" (Some "null-island") "Null Island".

Definition store_with_null_island : World :=
mkWorld [] [] [] [jason; null_island] None 0 3000 [] [].

Definition todo_item : Item :=
{| bucket := "Todos";
 title := Some "fix the login bug";
 content := "fix the login bug";
 priority := Some "medium";
 tags := [];
 evidence := [mkEvidence (Some "s-1") "TODO: fix the login bug" "strict-marker"] |}.

(** The same title, content and session, filed as a bug. *)
Definition bug_item : Item :=
{| bucket := "Bugs Open";
 title := Some "fix the login bug";
 content := "fix the login bug";
 priority := Some "high";
 tags := [];
 evidence := [mkEvidence (Some "s-1") "BUG: fix the login bug" "strict-marker"] |}.

(** A transcript whose first user turn is a short greeting. *)
Definition greeting_transcript : Transcript :=
mkTranscript ("USER: hi" +:+ newline +:+ "USER: please refactor the parser module")
  "dev_ai_clean_transcripts" None None [].

(** An item whose title is the address of a file server. *)
Definition ftp_item : Item :=
with_title (Some "ftp://files.example.com/readme") todo_item.

End Example.

(** ** The world at a later time *)

(** The world when [elapsed] milliseconds have passed and the project table
    has become [table]; the module variables of the resolver stay. *)
Definition later (elapsed : Z) (table : list Project) (w : World) : World :=
  mkWorld (sessions w) (clean_transcripts w) (extractions w) table
    (projectCache w) (cacheTime w) (clock w + elapsed) (faults w) (requests w).

(** The cache of the resolver holds nothing that is still fresh. *)
Definition cache_is_cold (w : World) : Prop :=
  projectCache w = None ∨ CACHE_TTL ≤ clock w - cacheTime w.

(** Some project of the list has a slug that contains [slug]. *)
Definition some_slug_contains (slug : string) (projects : list Project) : Prop :=
  ∃ p ps, p ∈ projects ∧ proj_slug p = Some ps ∧ substring_of slug ps.

(** ** The staging table *)

(** None of the coming requests to the store fails. *)
Definition store_answers (w : World) : Prop := Forall (λ fault, fault = false) (faults w).

(** The fingerprints of the staged rows are pairwise distinct. *)
Definition distinct_hashes (w : World) : Prop := NoDup (row_hash <$> extractions w).

(** The row is the one that [insertStaging] builds for one of the items of
    a batch, for this session and this project: it has the bucket, the
    content and the evidence of the item, the category of the bucket, the
    title of the item or else the first line of the first 200 characters
    of the content, its priority or else [medium], the status [pending],
    the session, the project and its slug, the fingerprint of the item, the
    name of the extractor and the time of the insertion. *)
Definition row_for (items : list Item) (sessionId : string) (projectSlug : option string)
    (projectId : string) (now : Z) (row : Row) : Prop :=
  ∃ item,
    item ∈ items
    ∧ row_bucket row = bucket item
    ∧ row_category row = mapBucketToCategory (bucket item)
    ∧ row_content row = content item
    ∧ row_title row = Js.or_else (title item) (Js.first_line (Js.take 200 (content item)))
    ∧ row_priority row = Js.or_else (priority item) "medium"
    ∧ row_status row = "pending"
    ∧ row_session_id row = sessionId
    ∧ row_project_id row = projectId
    ∧ row_hash row = generateHash item
    ∧ md_evidence (row_metadata row) = evidence item
    ∧ md_extractor (row_metadata row) = "jason-v1"
    ∧ md_project_slug (row_metadata row) = projectSlug
    ∧ md_extracted_at (row_metadata row) = now
    ∧ row_created_at row = now.

(** Between the two worlds only the staging table, the outcomes of the
    coming requests and the log of the requests may differ. *)
Definition staging_only (w w' : World) : Prop :=
  sessions w' = sessions w
  ∧ clean_transcripts w' = clean_transcripts w
  ∧ projects w' = projects w
  ∧ projectCache w' = projectCache w
  ∧ cacheTime w' = cacheTime w
  ∧ clock w' = clock w.

(** ** Items that pass validation *)

(** The conditions that [validateItem] puts on an item, one by one: the
    schema, and the guardrails that follow it. *)
Definition well_formed (item : Item) : Prop :=
  bucket item ∈ VALID_BUCKETS
  ∧ (∀ t, title item = Some t →
       (1 ≤ String.length t ≤ 500)%nat ∧ title_is_garbage t = false)
  ∧ (10 ≤ String.length (content item) ≤ 10000)%nat
  ∧ Js.trim (content item) ≠ ""
  ∧ (∀ p, priority item = Some p → p ∈ VALID_PRIORITIES)
  ∧ Forall (λ e, is_Some (session_id e) ∧ (String.length (excerpt e) ≤ 500)%nat)
      (evidence item)
  ∧ Exists (λ e, ∃ sid, session_id e = Some sid ∧ sid ≠ "") (evidence item).

(** ** The items of the marker lines *)

(** What [extractWithRules] builds from a transcript: the bucket with its
    priority, the text of the marker line as content, its first 150
    characters as title, and one evidence entry with the start of the
    line. *)
Definition marker_item (transcript : string) (session : Session) (item : Item) : Prop :=
  (bucket item, priority item)
    ∈ [(Todos, Some "medium"); (Bugs_Open, Some "high"); (Decisions, None)]
  ∧ title item = Some (Js.take 150 (content item))
  ∧ (10 ≤ String.length (content item) ≤ 200)%nat
  ∧ Js.trim (content item) = content item
  ∧ Js.all_chars Js.is_dot (content item) = true
  ∧ substring_of (content item) transcript
  ∧ tags item = []
  ∧ ∃ e, evidence item
         = [ {| session_id := Some (sess_id session);
                excerpt := e;
                location := "strict-marker" |} ]
         ∧ (String.length e ≤ 150)%nat
         ∧ substring_of e transcript.

(** ** Reading the store *)

(** From [w] to [w'] the store has only been read: the tables and the clock
    are the same, and the requests that were added are all selections. *)
Definition reads_only (w w' : World) : Prop :=
  sessions w' = sessions w
  ∧ clean_transcripts w' = clean_transcripts w
  ∧ extractions w' = extractions w
  ∧ projects w' = projects w
  ∧ clock w' = clock w
  ∧ ∃ added, requests w' = requests w ++ added ∧ Forall (λ r, r.2 = Select) added.

(** ** lib/logger (the second half of src/lib/healthServer.js): the log file

    The files of the log directory, each path with its content.  The
    operations of [fs] are taken to succeed; the size of a file is the
    number of bytes of its content in UTF-8. *)
Abbreviation Files := (gmap string string).

Definition MAX_LOG_SIZE : Z := 10 * 1024 * 1024.
Definition MAX_LOG_FILES : nat := 5.

(** [stats.size] *)
Definition size (content : string) : Z := Z.of_nat (length (Md5.utf8 content)).

(** [`${this.logFile}.${i}`] *)
Definition generation (logFile : string) (i : nat) : string :=
  logFile +:+ "." +:+ Js.show_nat i.

(** [fs.renameSync(oldFile, newFile)], which replaces [newFile] when it
    exists; nothing happens when [oldFile] does not exist, the exception
    being caught by [_rotateLog] at its end. *)
Definition renameSync (oldFile newFile : string) (files : Files) : Files :=
  match files !! oldFile with
  | Some content => <[newFile := content]> (delete oldFile files)
  | None => files
  end.

(** One turn of the loop of [_rotateLog]. *)
Definition rotate_generation (logFile : string) (files : Files) (i : nat) : Files :=
  let oldFile := generation logFile i in
  let newFile := generation logFile (i + 1) in
  if bool_decide (is_Some (files !! oldFile)) then
    if bool_decide (i = (MAX_LOG_FILES - 1)%nat) then delete oldFile files
    else renameSync oldFile newFile files
  else files.

(** [_rotateLog()]: the loop [for (let i = MAX_LOG_FILES - 1; i >= 1; i--)]
    and the renaming of the log file itself. *)
Definition rotateLog (logFile : string) (files : Files) : Files :=
  let files := foldl (rotate_generation logFile) files (rev (seq 1 (MAX_LOG_FILES - 1))) in
  renameSync logFile (generation logFile 1) files.

(** [_writeToFile(formatted)] *)
Definition writeToFile (logFile formatted : string) (files : Files) : Files :=
  let files :=
    match files !! logFile with
    | Some content =>
        if (MAX_LOG_SIZE <? size content) then rotateLog logFile files else files
    | None => files
    end in
  <[logFile := default "" (files !! logFile) +:+ formatted +:+ Example.newline]> files.

(** ** The transcript formatter *)

(** [s.replace(r, by)] for a regular expression with flag [g] and a
    replacement without [$]: every successive match gives way to the
    replacement.  [skip] counts the code units of the last match that are
    still to be dropped; after an empty match the next code unit is kept. *)
Fixpoint replace_from (fl : flags) (r : regex) (replacement : string) (skip : nat)
    (p : option ascii) (s : string) (i : nat) : string :=
  match skip with
  | S skip' =>
      match s with
      | String c s' => replace_from fl r replacement skip' (Some c) s' (S i)
      | EmptyString => ""
      end
  | O =>
      match match_here fl r (Cursor p s i) with
      | Some m =>
          replacement +:+
          match s with
          | String c s' =>
              match String.length (m_text m) with
              | O => String c (replace_from fl r replacement O (Some c) s' (S i))
              | S n => replace_from fl r replacement n (Some c) s' (S i)
              end
          | EmptyString => ""
          end
      | None =>
          match s with
          | String c s' => String c (replace_from fl r replacement O (Some c) s' (S i))
          | EmptyString => ""
          end
      end
  end.

Definition replace_all (fl : flags) (r : regex) (replacement s : string) : string :=
  replace_from fl r replacement O None s 0.

Definition ESC : ascii := ascii_of_N 27.
Definition BEL : ascii := ascii_of_N 7.
Definition LF : ascii := ascii_of_N 10.

(** [/\x1B\[[0-9;]*[a-zA-Z]/g] *)
Definition ANSI_CODE : regex :=
  Cat [ Chr ESC; Chr "["; star (λ c, Js.is_digit c || bool_decide (c = ";"%char));
        Cls Js.is_alpha ].

(** [/\x1B\][^\x07]*\x07/g] *)
Definition OTHER_ESCAPE : regex :=
  Cat [ Chr ESC; Chr "]"; star (λ c, negb (bool_decide (c = BEL))); Chr BEL ].

(** [/\n{3,}/g] *)
Definition MANY_NEWLINES : regex := Rep (λ c, bool_decide (c = LF)) 3 None.

(** [s.split('\n')] *)
Fixpoint split_newline (s : string) : list string :=
  match s with
  | EmptyString => [""]
  | String c s' =>
      if bool_decide (c = LF) then "" :: split_newline s'
      else
        match split_newline s' with
        | line :: more => String c line :: more
        | [] => [String c ""]
        end
  end.

(** [formatTranscript(content)] of src/extract/loadTranscript.js *)
Definition formatTranscript (content : string) : string :=
  if negb (Js.truthy content) then ""
  else
    let cleaned := replace_all no_flags ANSI_CODE "" content in
    let cleaned := replace_all no_flags OTHER_ESCAPE "" cleaned in
    let cleaned :=
      replace_all no_flags MANY_NEWLINES (Example.newline +:+ Example.newline) cleaned in
    let cleaned := join Example.newline (Js.trimEnd <$> split_newline cleaned) in
    Js.trim cleaned.

(** No line of the text ends in white space: the code unit before a line
    feed is no white space, unless it is a line feed itself. *)
Definition no_space_before_newline (s : string) : Prop :=
  ∀ front c back,
    s = front +:+ String c (String LF back) → Js.is_space c = true → c = LF.

(** ** More examples *)
Module Sample.

(** The store of the examples when its next request is going to fail. *)
Definition failing_store : World :=
mkWorld (sessions Example.store) (clean_transcripts Example.store) []
  (projects Example.store) None 0 3000 [true] [].

(** A lookback of ten thousand million days. *)
Definition endless_options : Options :=
mkOptions None "10000000000d" ["ai-jason"] 1 (Some "cleaned").

(** [extract --since 30m --limit 5 --dry-run] *)
Definition dry_command : Command :=
mkCommand false None "30m" (join "," ALLOWED_SLUGS) true "5".

(** A session of a project that is not in the project table, and the store
    with that session and its clean transcript. *)
Definition orphan_session : Session :=
mkSession "s-9" (Some "nowhere") "cleaned" 1500.

Definition orphan_store : World :=
mkWorld [orphan_session] [mkCleanTranscript "s-9" Example.transcript_text []] []
  [Example.jason] None 0 3000 [] [].

(** [extract --session s-1 --slugs " my-app , jason"] *)
Definition foreign_command : Command :=
mkCommand false (Some "s-1") "3h" " my-app , jason" false "10".

(** [extract --since 30m --slugs ai-jason --limit ' +1'] *)
Definition one_command : Command :=
mkCommand false None "30m" "ai-jason" false " +1".

(** A log directory with the log file and two generations. *)
Definition log_files : Files :=
list_to_map
  [ ("jason.log", "today"); ("jason.log.1", "yesterday"); ("jason.log.4", "long ago") ].

(** A terminal capture: a colour code, a title sequence, trailing blanks and
    a run of empty lines. *)
Definition raw_capture : string :=
String ESC "[1;32mUSER:" +:+ String ESC "]0;title" +:+ String BEL " hi  " +:+
String LF (String LF (String LF (String LF "done "))).

End Sample.

(** * Properties *)

(** ** Strings *)
Section StringFacts.

Lemma append_cons (c : ascii) (s t : string) : String c s +:+ t = String c (s +:+ t).
Proof. reflexivity. Qed.

Lemma append_empty_l (s : string) : "" +:+ s = s.
Proof. reflexivity. Qed.

Lemma append_empty_r (s : string) : s +:+ "" = s.
Proof. induction s as [|c s IH]; [done|]. by rewrite append_cons, IH. Qed.

Lemma append_assoc (s t u : string) : (s +:+ t) +:+ u = s +:+ t +:+ u.
Proof. induction s as [|c s IH]; [done|]. by rewrite !append_cons, IH. Qed.

Lemma length_append (s t : string) :
String.length (s +:+ t) = (String.length s + String.length t)%nat.
Proof. induction s as [|c s IH]; [done|]. rewrite append_cons. simpl. by rewrite IH. Qed.

Lemma length_take_le (n : nat) (s : string) :
(String.length (Js.take n s) ≤ String.length s)%nat.
Proof.
revert n. induction s as [|c s IH]; intros [|n]; simpl; try lia.
specialize (IH n). lia.
Qed.

Lemma take_append_length (s t : string) : Js.take (String.length s) (s +:+ t) = s.
Proof. induction s as [|c s IH]; simpl; [by destruct t|]. by rewrite IH. Qed.


Lemma length_trimStart_le (s : string) :
(String.length (Js.trimStart s) ≤ String.length s)%nat.
Proof. induction s as [|c s IH]; simpl; [lia|]. destruct (Js.is_space c); simpl; lia. Qed.

Lemma length_trimEnd_go_le (s t : string) :
Js.trimEnd_go s = Some t → (String.length t ≤ String.length s)%nat.
Proof.
revert t. induction s as [|c s IH]; intros t; simpl; [done|].
destruct (Js.trimEnd_go s) as [t'|].
- intros [= <-]. specialize (IH t' eq_refl). simpl. lia.
- destruct (Js.is_space c); [done|]. intros [= <-]. simpl. lia.
Qed.

Lemma length_trimEnd_le (s : string) :
(String.length (Js.trimEnd s) ≤ String.length s)%nat.
Proof.
unfold Js.trimEnd. destruct (Js.trimEnd_go s) as [t|] eqn:E; simpl; [|lia].
by apply length_trimEnd_go_le.
Qed.

Lemma length_trim_le (s : string) :
(String.length (Js.trim s) ≤ String.length s)%nat.
Proof.
unfold Js.trim. etrans; [apply length_trimEnd_le|apply length_trimStart_le].
Qed.

Lemma all_chars_append (f : ascii → bool) (s t : string) :
Js.all_chars f (s +:+ t) = Js.all_chars f s && Js.all_chars f t.
Proof.
induction s as [|c s IH]; [done|]. rewrite append_cons. simpl.
rewrite IH. by destruct (f c).
Qed.

End StringFacts.

(** ** The matcher *)
Section RegexFacts.

Implicit Types (f : ascii → bool) (k : cont) (p : option ascii) (s : string).

(** What a successful greedy repetition has consumed. *)
Lemma rep_greedy_sound f lo hi k p s i caps res :
rep_greedy f lo hi k p s i caps = Some res →
∃ taken s',
s = taken +:+ s'
∧ Js.all_chars f taken = true
∧ (lo ≤ String.length taken)%nat
∧ (∀ h, hi = Some h → (String.length taken ≤ h)%nat)
∧ k (Cursor (prev_after p taken) s' (i + String.length taken)) caps = Some res.
Proof.
revert lo hi p i.
induction s as [|c s IH]; intros lo hi p i H; simpl in H.
- destruct lo; [|done].
exists "", "". rewrite Nat.add_0_r. simpl. repeat split; try done; lia.
- destruct (f c && negb (bool_decide (hi = Some 0%nat))) eqn:Hc.
+ apply andb_true_iff in Hc as [Hf Hhi].
  apply negb_true_iff, bool_decide_eq_false in Hhi.
  destruct (rep_greedy f (pred lo) (pred <$> hi) k (Some c) s (S i) caps)
    as [res'|] eqn:Hrec.
  * injection H as <-.
    apply IH in Hrec as (taken & s' & -> & Hall & Hlo & Hhi' & Hk).
    exists (String c taken), s'. simpl. rewrite Hf, Hall.
    replace (i + S (String.length taken))%nat with (S i + String.length taken)%nat by lia.
    repeat split; try done; [lia|].
    intros h ->. destruct h as [|h]; [done|].
    specialize (Hhi' h eq_refl). lia.
  * destruct lo; [|done].
    exists "", (String c s). rewrite Nat.add_0_r. simpl.
    repeat split; try done; lia.
+ destruct lo; [|done].
  exists "", (String c s). rewrite Nat.add_0_r. simpl.
  repeat split; try done; lia.
Qed.

(** A greedy repetition stops where the class or the bound stops it, when
the continuation accepts there. *)
Lemma rep_greedy_max f lo hi k p taken s' i caps res :
Js.all_chars f taken = true →
(lo ≤ String.length taken)%nat →
(∀ h, hi = Some h → (String.length taken ≤ h)%nat) →
(hi = Some (String.length taken)
 ∨ match s' with EmptyString => True | String c _ => f c = false end) →
k (Cursor (prev_after p taken) s' (i + String.length taken)) caps = Some res →
rep_greedy f lo hi k p (taken +:+ s') i caps = Some res.
Proof.
revert lo hi p i.
induction taken as [|c taken IH]; intros lo hi p i Hall Hlo Hhi Hstop Hk; simpl in *.
- rewrite Nat.add_0_r in Hk. destruct lo; [|lia].
destruct s' as [|c s']; simpl; [done|].
destruct Hstop as [-> | ->]; [|done].
rewrite bool_decide_eq_true_2 by done. simpl. by rewrite andb_false_r.
- apply andb_true_iff in Hall as [Hc Hall]. rewrite Hc. simpl.
rewrite bool_decide_eq_false_2.
2:{ intros ->. specialize (Hhi _ eq_refl). lia. }
simpl. erewrite IH; first done; try done.
+ lia.
+ intros h Hh. destruct hi as [h'|]; [|done]. injection Hh as <-.
  specialize (Hhi _ eq_refl). lia.
+ destruct Hstop as [-> | Hs]; [by left | by right].
+ by replace (S i + String.length taken)%nat with (i + S (String.length taken))%nat by lia.
Qed.

Lemma rep_greedy_max_some f lo hi k p taken s' i caps :
Js.all_chars f taken = true →
(lo ≤ String.length taken)%nat →
(∀ h, hi = Some h → (String.length taken ≤ h)%nat) →
(hi = Some (String.length taken)
 ∨ match s' with EmptyString => True | String c _ => f c = false end) →
is_Some (k (Cursor (prev_after p taken) s' (i + String.length taken)) caps) →
is_Some (rep_greedy f lo hi k p (taken +:+ s') i caps).
Proof. intros ???? [res H]. exists res. by apply rep_greedy_max. Qed.

Lemma match_here_some fl r cur :
is_Some (rmatch fl r (λ cur' caps, Some (cur', caps)) cur ∅) →
is_Some (match_here fl r cur).
Proof. intros [[cur' caps] H]. unfold match_here. rewrite H. eauto. Qed.

(** An expression anchored with [^] does not match inside a line. *)
Lemma match_here_inside fl r c s i :
multiline fl && Js.is_line_terminator c = false →
match_here fl (Seq Bol r) (Cursor (Some c) s i) = None.
Proof. intros H. unfold match_here. simpl. unfold at_bol. simpl. by rewrite H. Qed.

Lemma search_inside fl r c s i :
multiline fl = false → search fl (Seq Bol r) (Some c) s i = None.
Proof.
intros Hm. revert c i. induction s as [|x s IH]; intros c i; simpl;
rewrite match_here_inside by (by rewrite Hm); [done|apply IH].
Qed.

(** Without the flag [m], only the start of the subject is tried. *)
Lemma exec_anchored fl r s :
multiline fl = false →
exec fl (Seq Bol r) s = match_here fl (Seq Bol r) (Cursor None s 0).
Proof.
intros Hm. unfold exec. destruct s as [|c s]; simpl.
- by destruct (match_here _ _ _).
- destruct (match_here _ _ _); [done|]. by apply search_inside.
Qed.


End RegexFacts.

(** ** The duration parser *)
Section DurationFacts.

Lemma duration_form_go_append b digits u :
Js.all_chars Js.is_digit digits = true →
is_unit u = true →
b = true ∨ digits ≠ "" →
duration_form_go b (digits +:+ String u "") = true.
Proof.
revert b. induction digits as [|c ds IH]; intros b Hall Hu Hb; simpl in *.
- destruct Hb as [-> | ?]; [done|congruence].
- apply andb_true_iff in Hall as [Hc Hall].
destruct (ds +:+ String u "") as [|x rest] eqn:E.
{ by destruct ds. }
rewrite Hc. cbn [andb]. apply IH; auto.
Qed.

Lemma duration_match_form s m :
exec no_flags DURATION_RE s = Some m → duration_form s = true.
Proof.
unfold DURATION_RE, Cat. simpl foldr. rewrite exec_anchored by done.
unfold match_here. simpl.
destruct (rep_greedy _ _ _ _ _ _ _ _) as [res|] eqn:H; [|done]. intros _.
apply rep_greedy_sound in H as (ds & s' & -> & Hds & Hlen & _ & Hk).
simpl in Hk. destruct s' as [|u s'']; simpl in Hk; [done|].
unfold chr_eq in Hk. simpl in Hk.
assert (is_unit u = true ∧ s'' = "") as [Hu ->].
{ unfold is_unit. repeat case_bool_decide; simpl in *; subst;
  unfold at_eol in Hk; simpl in Hk; destruct s''; try done. }
apply duration_form_go_append; auto. right. intros ->. simpl in Hlen. lia.
Qed.

Lemma unit_not_digit u : is_unit u = true → Js.is_digit u = false.
Proof. unfold is_unit. repeat case_bool_decide; subst; done. Qed.

Lemma parseDuration_of_form d digits u :
digits ≠ "" →
Js.all_chars Js.is_digit digits = true →
is_unit u = true →
parseDuration_with d (digits +:+ String u "")
= Js.parseInt digits * default 0 (ms (String u "")).
Proof.
intros Hne Hds Hu.
assert (Hlen : (1 ≤ String.length digits)%nat) by (destruct digits; [done|simpl; lia]).
assert (Hnd : Js.is_digit u = false) by by apply unit_not_digit.
assert (Hcases : u = "m"%char ∨ u = "h"%char ∨ u = "d"%char).
{ unfold is_unit in Hu. repeat case_bool_decide; auto. done. }
unfold parseDuration_with, DURATION_RE, Cat. simpl foldr.
rewrite exec_anchored by done. unfold match_here. cbn [rmatch at_bol prev plus rest index].
match goal with
| |- context [rep_greedy ?f ?lo ?hi ?k ?p _ ?i ?caps] =>
  destruct (k (Cursor (prev_after p digits) (String u "") (i + String.length digits)) caps)
    as [res|] eqn:Hk
end.
- erewrite rep_greedy_max; [ | exact Hds | exact Hlen | done | by right | exact Hk ].
destruct Hcases as [-> | [-> | ->]]; cbn in Hk; injection Hk as <-;
  unfold group; cbn [m_groups]; rewrite lookup_insert_ne by done;
  rewrite !lookup_insert_eq; cbn [mbind option_bind];
  rewrite Nat.sub_0_r, take_append_length;
  replace (S (String.length digits) - String.length digits)%nat with 1%nat by lia;
  reflexivity.
- destruct Hcases as [-> | [-> | ->]]; cbn in Hk; done.
Qed.

End DurationFacts.

(** C9.  [parseDuration] maps "30m" to 1,800,000 ms and "2h" to 7,200,000 ms,
    and every string that is not of the form integer-then-unit, with the unit
    among m, h and d, to the fixed default of its file: 30 minutes in
    src/selectSessions.js, 3 hours in the selector of src/unnamed/part_001.
    It never fails. *)
Theorem parseDuration_examples_and_default :
  (SelectSessions.parseDuration "30m" = 1800000
   ∧ SelectSessions.parseDuration "2h" = 7200000
   ∧ ∀ s, duration_form s = false → SelectSessions.parseDuration s = 1800000)
  ∧ (SelectCleaned.parseDuration "30m" = 1800000
     ∧ SelectCleaned.parseDuration "2h" = 7200000
     ∧ ∀ s, duration_form s = false → SelectCleaned.parseDuration s = 10800000).
Proof.
  assert (Hdefault : ∀ d s, duration_form s = false → parseDuration_with d s = d).
  { intros d s Hs. unfold parseDuration_with.
    destruct (exec no_flags DURATION_RE s) as [m|] eqn:E; [|done].
    apply duration_match_form in E. congruence. }
  repeat split; try reflexivity; intros s Hs; by apply Hdefault.
Qed.

Lemma parseDuration_examples_and_default_witness :
  SelectSessions.parseDuration "soon" = 1800000
  ∧ SelectCleaned.parseDuration "1.5h" = 10800000.
Proof.
  split.
  - apply (proj2 (proj2 (proj1 parseDuration_examples_and_default))). reflexivity.
  - apply (proj2 (proj2 (proj2 parseDuration_examples_and_default))). reflexivity.
Defined.

(** ** The session selector *)
Section SelectorFacts.

Lemma startsWith_spec (s p : string) :
Js.startsWith s p = true ↔ ∃ post, s = p +:+ post.
Proof.
revert s. induction p as [|a p IH]; intros s; simpl.
- split; [intros _; by exists s|done].
- destruct s as [|b s].
+ split; [done|]. by intros [post [=]].
+ rewrite andb_true_iff, bool_decide_eq_true, IH. split.
  * intros [-> [post ->]]. by exists post.
  * intros [post [= -> ->]]. split; [done|by exists post].
Qed.

Lemma includes_spec (s token : string) :
Js.includes s token = true ↔ substring_of token s.
Proof.
unfold substring_of. induction s as [|c s IH]; simpl.
- rewrite orb_false_r, startsWith_spec. split.
+ intros [post H]. by exists "", post.
+ intros (pre & post & H). destruct pre; [by exists post|done].
- rewrite orb_true_iff, IH.
change (match token with
        | "" => true
        | String a p' => bool_decide (a = c) && Js.startsWith s p'
        end) with (Js.startsWith (String c s) token).
rewrite startsWith_spec. split.
+ intros [[post H] | (pre & post & H)].
  * by exists "", post.
  * exists (String c pre), post. simpl. by rewrite H.
+ intros (pre & post & H). destruct pre as [|c' pre].
  * left. by exists post.
  * right. injection H as -> ->. by exists pre, post.
Qed.

Lemma truthy_spec (s : string) : Js.truthy s = true ↔ s ≠ "".
Proof. by destruct s. Qed.

Lemma sessionSlug_truthy (s : Session) :
Js.truthy (sessionSlug s) = true →
sess_project_slug s = Some (sessionSlug s) ∧ sessionSlug s ≠ "".
Proof.
unfold sessionSlug, Js.or_else.
destruct (sess_project_slug s) as [[|c slug]|]; simpl; try done.
Qed.

(** The filter of the selector lets through what the truth gate of the
specification admits, and nothing else. *)
Lemma truth_gate_spec (allowed : list string) (table : list Session) (s : Session) :
s ∈ truth_gate allowed table ↔ s ∈ table ∧ passes_truth_gate allowed s.
Proof.
unfold truth_gate, passes_truth_gate.
destruct allowed as [|a allowed]; simpl; rewrite list_elem_of_filter.
- unfold is_assigned. rewrite !andb_true_iff, !negb_true_iff, !bool_decide_eq_false.
split.
+ intros [[[Ht H1] H2] Hin]. apply sessionSlug_truthy in Ht as [Hs Hne]. eauto 10.
+ intros [Hin (slug & Hs & Hne & H1 & H2)].
  assert (sessionSlug s = slug) as ->.
  { unfold sessionSlug. rewrite Hs. by destruct slug. }
  by rewrite truthy_spec.
- unfold matches_allowed. split.
+ intros [H Hin]. destruct (Js.truthy (sessionSlug s)) eqn:Ht; [|done].
  apply sessionSlug_truthy in Ht as [Hs Hne]. simpl in H.
  split; [done|]. exists (sessionSlug s). repeat split; try done.
  apply orb_true_iff in H as [H|H].
  * exists a. split; [left|]. by apply includes_spec.
  * apply existsb_exists in H as (token & Hin' & H).
    exists token. split; [right; by apply list_elem_of_In|by apply includes_spec].
+ intros [Hin (slug & Hs & Hne & token & Htok & Hsub)].
  assert (sessionSlug s = slug) as ->.
  { unfold sessionSlug. rewrite Hs. by destruct slug. }
  split; [|done]. apply truthy_spec in Hne as ->. simpl.
  apply includes_spec in Hsub.
  apply list_elem_of_In in Htok as [<- | Htok]; [by rewrite Hsub|].
  apply orb_true_iff. right. apply existsb_exists. eauto.
Qed.

Lemma rows_of_elem (q : Query) (table : list Session) (s : Session) :
s ∈ rows_of q table → s ∈ table ∧ satisfies q s = true.
Proof.
unfold rows_of. intros H.
assert (s ∈ filter (λ s, satisfies q s = true) table) as Hin.
{ destruct (q_limit q) as [n|]; [apply subseteq_take in H|];
  destruct (q_ascending q) as [[]|]; try done;
  by rewrite merge_sort_Permutation in H. }
apply list_elem_of_filter in Hin. tauto.
Qed.

(** What the window mode of src/selectSessions.js returns. *)
Lemma window_result (options : Options) (w : World) :
by_window options →
let query :=
SelectSessions.window_query
  (clock w - SelectSessions.parseDuration (since options))
  (limit options) (status options) in
let all := take (limit options) (truth_gate (slugs options) (rows_of query (sessions w))) in
((SelectSessions.selectSessions options w).1 = [] 
 ∨ (SelectSessions.selectSessions options w).1 = all)
∧ (next_request_succeeds w →
 valid_time (clock w - SelectSessions.parseDuration (since options)) = true →
 (SelectSessions.selectSessions options w).1 = all).
Proof.
intros Hw. unfold SelectSessions.selectSessions, next_request_succeeds.
assert (match sessionId options with Some (String _ _) => False | _ => True end) as Hid.
{ by destruct Hw as [-> | ->]. }
destruct (sessionId options) as [[|? ?]|]; try done;
unfold mbind, state_bind, get, run, request, mret, state_ret; simpl;
(destruct (valid_time _); simpl; [|split; [by left|done]]);
(destruct (faults w) as [|[] ?]; simpl; [|split; [by left|done]|]);
(destruct (rows_of _ _) eqn:E; simpl;
  [ rewrite take_nil || (unfold truth_gate; destruct (_ <? _)%nat; rewrite filter_nil, take_nil)
  | ]); auto.
Qed.

Lemma truth_gate_filter (allowed : list string) (table : list Session) :
truth_gate allowed table = filter (λ s, admits allowed s = true) table.
Proof. unfold truth_gate, admits. by destruct (0 <? length allowed)%nat. Qed.

Lemma with_clean_transcript_sublist (filtered : list Session) (w : World) :
(SelectCleaned.with_clean_transcript filtered w).1 `sublist_of` filtered.
Proof.
revert w. induction filtered as [|session more IH]; intros w; simpl; [done|].
unfold mbind, state_bind, clean_transcript_of, request. simpl.
destruct (faults w) as [|[] ?]; simpl;
match goal with
| |- context [SelectCleaned.with_clean_transcript more ?w'] =>
    specialize (IH w'); destruct (SelectCleaned.with_clean_transcript more w') as [v w'']
end; simpl in *; try (by apply sublist_cons);
destruct (head _); simpl; first [by apply sublist_skip | by apply sublist_cons].
Qed.

(** Both selectors, in window mode, return sessions that the query has
returned and the truth gate has let through. *)
Lemma window_selected (options : Options) (w : World) (s : Session) :
by_window options →
s ∈ (SelectSessions.selectSessions options w).1 →
s ∈ truth_gate (slugs options)
    (rows_of
       (SelectSessions.window_query
          (clock w - SelectSessions.parseDuration (since options))
          (limit options) (status options))
       (sessions w)).
Proof.
intros Hw Hs. destruct (window_result options w Hw) as [[H|H] _];
rewrite H in Hs; [by apply elem_of_nil in Hs|].
by apply subseteq_take in Hs.
Qed.

Lemma cleaned_window_selected (options : Options) (w : World) (s : Session) :
by_window options →
s ∈ (SelectCleaned.selectSessions options w).1 →
s ∈ truth_gate (slugs options)
    (rows_of
       (SelectCleaned.window_query
          (clock w - SelectCleaned.parseDuration (since options)) (limit options))
       (sessions w)).
Proof.
intros Hw. unfold SelectCleaned.selectSessions.
assert (match sessionId options with Some (String _ _) => False | _ => True end) as Hid.
{ by destruct Hw as [-> | ->]. }
destruct (sessionId options) as [[|? ?]|]; try done;
unfold mbind, state_bind, get, run, request, mret, state_ret; simpl;
(destruct (valid_time _); simpl; [|by intros ?%elem_of_nil]);
(destruct (faults w) as [|[] ?]; simpl; [|by intros ?%elem_of_nil|]);
(destruct (rows_of _ _) eqn:E; simpl; [by intros ?%elem_of_nil|]);
match goal with
| |- context [SelectCleaned.with_clean_transcript ?l ?w'] =>
    pose proof (with_clean_transcript_sublist l w') as Hsub;
    destruct (SelectCleaned.with_clean_transcript l w') as [v w'']
end; simpl in *; intros Hs%subseteq_take; by apply (sublist_subseteq _ _ Hsub).
Qed.

End SelectorFacts.

(** C3.  Every session that the window mode returns passes the truth gate:
    its project slug is not empty and, when no slug is allowed explicitly, is
    neither "unassigned" nor "terminal", or else contains one of the allowed
    tokens as a substring.  A session that fails the gate is never returned,
    whatever the store holds for it.  This holds for both versions of the
    selector. *)
Theorem window_selection_passes_truth_gate (options : Options) (w : World) (s : Session) :
  by_window options →
  (s ∈ (SelectSessions.selectSessions options w).1 → passes_truth_gate (slugs options) s)
  ∧ (s ∈ (SelectCleaned.selectSessions options w).1 → passes_truth_gate (slugs options) s)
  ∧ (¬ passes_truth_gate (slugs options) s →
     (s ∉ (SelectSessions.selectSessions options w).1)
     ∧ (s ∉ (SelectCleaned.selectSessions options w).1)).
Proof.
  intros Hw.
  assert (H1 : s ∈ (SelectSessions.selectSessions options w).1 →
               passes_truth_gate (slugs options) s).
  { intros Hs. apply window_selected in Hs; [|done]. by apply truth_gate_spec in Hs as [_ ?]. }
  assert (H2 : s ∈ (SelectCleaned.selectSessions options w).1 →
               passes_truth_gate (slugs options) s).
  { intros Hs. apply cleaned_window_selected in Hs; [|done].
    by apply truth_gate_spec in Hs as [_ ?]. }
  repeat split; auto.
Qed.


Lemma window_selection_passes_truth_gate_witness :
  passes_truth_gate ["ai-jason"] Example.old_session.
Proof.
  apply (proj1 (window_selection_passes_truth_gate
                  Example.window_options Example.store Example.old_session
                  (or_introl eq_refl))).
  vm_compute. left.
Defined.

Section OrderFacts.

Context {A : Type} (R : relation A) (P : A → Prop) `{!∀ x, Decision (P x)}.

Lemma StronglySorted_filter (l : list A) :
StronglySorted R l → StronglySorted R (filter P l).
Proof.
induction 1 as [|x l Hl IH Hx]; [constructor|].
rewrite filter_cons. destruct (decide (P x)); [|done].
constructor; [done|]. rewrite Forall_forall in *. intros y Hy.
apply list_elem_of_filter in Hy as [_ Hy]. auto.
Qed.

(** Cutting a sorted list, filtering, and cutting again keeps a part that
comes first in the order. *)
Lemma take_filter_take_first `{!Transitive R} (n m : nat) (l : list A) :
StronglySorted R l →
∃ left_out,
filter P l ≡ₚ take m (filter P (take n l)) ++ left_out
∧ ∀ r s, r ∈ take m (filter P (take n l)) → s ∈ left_out → R r s.
Proof.
intros Hl.
exists (drop m (filter P (take n l)) ++ filter P (drop n l)). split.
- rewrite (assoc_L (++)), take_drop, <- filter_app, take_drop. done.
- intros r s Hr Hs. apply elem_of_app in Hs as [Hs|Hs].
+ assert (StronglySorted R (filter P (take n l))) as Hsorted.
  { apply StronglySorted_filter.
    rewrite <- (take_drop n l) in Hl. by apply StronglySorted_app_1_l in Hl. }
  rewrite <- (take_drop m (filter P (take n l))) in Hsorted.
  by eapply StronglySorted_app_1_elem_of.
+ apply subseteq_take, list_elem_of_filter in Hr as [_ Hr].
  apply list_elem_of_filter in Hs as [_ Hs].
  rewrite <- (take_drop n l) in Hl.
  by eapply StronglySorted_app_1_elem_of.
Qed.

End OrderFacts.

#[global] Instance older_trans : Transitive older.
Proof. intros a b c. unfold older. lia. Qed.

#[global] Instance older_total : Total older.
Proof. intros a b. unfold older. lia. Qed.

#[global] Instance newer_trans : Transitive newer.
Proof. intros a b c. unfold newer. lia. Qed.

#[global] Instance newer_total : Total newer.
Proof. intros a b. unfold newer. lia. Qed.

Section ExtractedFacts.

Lemma window_query_excludes_extracted cutoff lim st (s : Session) :
satisfies (SelectSessions.window_query cutoff lim st) s = true →
sess_status s ≠ "extracted".
Proof.
unfold satisfies. destruct st as [[|c st]|]; simpl;
rewrite !andb_true_iff, negb_true_iff, bool_decide_eq_false; tauto.
Qed.

Lemma cleaned_query_excludes_extracted cutoff lim (s : Session) :
satisfies (SelectCleaned.window_query cutoff lim) s = true →
sess_status s ≠ "extracted".
Proof.
unfold satisfies. simpl. rewrite !andb_true_iff, bool_decide_eq_true.
intros [-> _]. done.
Qed.

Lemma rows_of_window cutoff lim st (table : list Session) :
rows_of (SelectSessions.window_query cutoff lim st) table
= take (lim * 3)
  (merge_sort older
     (filter (λ s, satisfies (SelectSessions.window_query cutoff lim st) s = true)
             table)).
Proof. by destruct st as [[|c st]|]. Qed.

Lemma select_by_id_result (sid : string) (w : World) :
next_request_succeeds w →
(select_by_id sid w).1
= option_list (head (filter (λ s, sess_id s = sid) (sessions w))).
Proof.
unfold next_request_succeeds, select_by_id, single, request, mbind, state_bind.
intros Hw. destruct (faults w) as [|[] ?]; simpl in *; try done;
(erewrite list_filter_iff; [reflexivity|]);
intros s; unfold satisfies; simpl;
rewrite andb_true_r, bool_decide_eq_true; done.
Qed.

End ExtractedFacts.

(** The window mode of src/selectSessions.js orders the query by ascending
    creation time.  When the store answers, what it returns comes first in
    that order among the eligible sessions: an eligible session that is left
    out was created no earlier than any session that is returned. *)
Lemma window_keeps_oldest (options : Options) (w : World) :
  by_window options →
  next_request_succeeds w →
  valid_time (clock w - SelectSessions.parseDuration (since options)) = true →
  keeps_first older (eligible options w) (SelectSessions.selectSessions options w).1.
Proof.
  intros Hw Hok Htime.
  destruct (window_result options w Hw) as [_ H]. rewrite (H Hok Htime). clear H.
  unfold keeps_first, eligible. rewrite rows_of_window, !truth_gate_filter.
  set (kept := filter _ (sessions w)).
  destruct (take_filter_take_first older (λ s, admits (slugs options) s = true)
              (limit options * 3) (limit options) (merge_sort older kept))
    as (left_out & Hperm & Hord).
  { apply StronglySorted_merge_sort; apply _. }
  exists left_out. split; [|done].
  rewrite <- Hperm. by rewrite merge_sort_Permutation.
Qed.

Lemma window_keeps_oldest_witness :
  keeps_first older
    (Example.eligible_sessions)
    [Example.old_session].
Proof.
  apply (window_keeps_oldest Example.window_options Example.store (or_introl eq_refl));
    [done|reflexivity].
Defined.

(** The selector of src/selectSessions.js does not keep the most recent of
    the eligible sessions. *)
Lemma window_drops_most_recent :
  ¬ keeps_most_recent SelectSessions.selectSessions.
Proof.
  intros H.
  destruct (H Example.window_options Example.store (or_introl eq_refl))
    as (left_out & Hperm & Hord); [done|reflexivity|].
  change (eligible Example.window_options Example.store) with Example.eligible_sessions in Hperm.
  change ((SelectSessions.selectSessions Example.window_options Example.store).1)
    with [Example.old_session] in Hperm, Hord.
  apply (inj (cons Example.old_session)) in Hperm.
  assert (Example.recent_session ∈ left_out) as Hin.
  { rewrite <- Hperm. left. }
  specialize (Hord Example.old_session Example.recent_session).
  unfold newer in Hord. simpl in Hord.
  assert (2000 ≤ 1000); [|lia].
  apply Hord; [left|done].
Qed.

(** C7.  The window mode of src/selectSessions.js does not retain the most
    recent sessions.  In a store with two eligible sessions, [s-1] created
    at 1000 and [s-2] created at 2000, the selection with limit 1 returns
    the older one, [s-1], and leaves the most recent one out; the selector
    of src/unnamed/part_001, which orders by descending creation time,
    returns [s-2] on the same store and options. *)
Theorem window_returns_the_older_session :
  eligible Example.window_options Example.store
  = [Example.old_session; Example.recent_session]
  ∧ sess_created_at Example.old_session < sess_created_at Example.recent_session
  ∧ (SelectSessions.selectSessions Example.window_options Example.store).1
    = [Example.old_session]
  ∧ (SelectCleaned.selectSessions Example.window_options Example.store).1
    = [Example.recent_session].
Proof. split_and!; by vm_compute. Qed.

Section CleanedSelectorFacts.

Lemma with_clean_transcript_no_faults (filtered : list Session) (w : World) :
faults w = [] →
(SelectCleaned.with_clean_transcript filtered w).1
= filter (has_clean_transcript w) filtered.
Proof.
revert w. induction filtered as [|session more IH]; intros w Hw; simpl; [done|].
unfold mbind, state_bind, clean_transcript_of, request. rewrite Hw. simpl.
specialize (IH (note_request dev_ai_clean_transcripts Select w)).
destruct (SelectCleaned.with_clean_transcript more _) as [v w'] eqn:E.
simpl in IH. rewrite Hw in IH. specialize (IH eq_refl).
rewrite filter_cons.
destruct (decide (has_clean_transcript w session)) as [[t Ht]|Hno].
- rewrite Ht. simpl. by rewrite IH.
- apply eq_None_not_Some in Hno. rewrite Hno. simpl. by rewrite IH.
Qed.

Lemma cleaned_window_result (options : Options) (w : World) :
by_window options →
faults w = [] →
valid_time (clock w - SelectCleaned.parseDuration (since options)) = true →
(SelectCleaned.selectSessions options w).1
= take (limit options)
  (filter (has_clean_transcript w)
     (truth_gate (slugs options)
        (rows_of
           (SelectCleaned.window_query
              (clock w - SelectCleaned.parseDuration (since options)) (limit options))
           (sessions w)))).
Proof.
intros Hw Hok Htime. unfold SelectCleaned.selectSessions.
assert (match sessionId options with Some (String _ _) => False | _ => True end) as Hid.
{ by destruct Hw as [-> | ->]. }
destruct (sessionId options) as [[|? ?]|]; try done;
unfold mbind, state_bind, get, run, request, mret, state_ret; simpl;
rewrite Htime; simpl; rewrite Hok; simpl;
(destruct (rows_of _ (sessions w)) as [|s0 l0] eqn:E;
 [by rewrite truth_gate_filter, !filter_nil, take_nil|]);
match goal with
| |- context [SelectCleaned.with_clean_transcript ?l ?w'] =>
    pose proof (with_clean_transcript_no_faults l w') as Hv;
    simpl in Hv; rewrite Hok in Hv; specialize (Hv eq_refl);
    destruct (SelectCleaned.with_clean_transcript l w') as [v w'']
end; simpl in *; by rewrite Hv.
Qed.

(** The selector of src/unnamed/part_001 orders by descending creation
time: there the sessions that are kept are the most recent of the
eligible ones. *)
Lemma cleaned_window_keeps_most_recent (options : Options) (w : World) :
by_window options →
faults w = [] →
valid_time (clock w - SelectCleaned.parseDuration (since options)) = true →
keeps_first newer (eligible_cleaned options w) (SelectCleaned.selectSessions options w).1.
Proof.
intros Hw Hok Htime. rewrite cleaned_window_result by done.
unfold keeps_first, eligible_cleaned. rewrite !truth_gate_filter.
change (rows_of _ (sessions w))
with (take (limit options * 3)
        (merge_sort newer
           (filter
              (λ s, satisfies
                      (SelectCleaned.window_query
                         (clock w - SelectCleaned.parseDuration (since options))
                         (limit options)) s = true)
              (sessions w)))).
set (kept := filter _ (sessions w)).
destruct (take_filter_take_first newer
          (λ s, has_clean_transcript w s ∧ admits (slugs options) s = true)
          (limit options * 3) (limit options) (merge_sort newer kept))
as (left_out & Hperm & Hord).
{ apply StronglySorted_merge_sort; apply _. }
rewrite !list_filter_filter. exists left_out. split; [|done].
rewrite <- Hperm. by rewrite merge_sort_Permutation.
Qed.

End CleanedSelectorFacts.

(** ** The project resolver *)
Section ResolverFacts.

Lemma find_head_filter {A : Type} (f : A → bool) (l : list A) :
List.find f l = head (filter (λ x, f x = true) l).
Proof.
induction l as [|x l IH]; [done|]. simpl. rewrite filter_cons.
destruct (f x) eqn:E; simpl; done.
Qed.

Lemma find_ext {A : Type} (f g : A → bool) (l : list A) :
(∀ x, f x = g x) → List.find f l = List.find g l.
Proof. intros H. induction l as [|x l IH]; [done|]. simpl. by rewrite H, IH. Qed.

Lemma startsWith_empty (p : string) : p ≠ "" → Js.startsWith "" p = false.
Proof. by destruct p. Qed.

Lemma includes_empty (p : string) : p ≠ "" → Js.includes "" p = false.
Proof. intros H. simpl. by rewrite startsWith_empty. Qed.

(** The three searches of the source are the resolution order. *)
Lemma match_project_order (slug : string) (projects : list Project) :
slug ≠ "" → match_project slug projects = resolution_order slug projects.
Proof.
intros Hne. unfold match_project, resolution_order, first_project.
rewrite <- !find_head_filter.
rewrite (find_ext (slug_is slug) (λ p, from_option (λ ps, bool_decide (ps = slug)) false (proj_slug p))).
2:{ intros p. unfold slug_is. destruct (proj_slug p) as [ps|]; simpl.
  - apply bool_decide_ext. split; [by intros [= ->]|by intros ->].
  - done. }
rewrite (find_ext (slug_starts_with slug)
         (λ p, from_option (λ ps, Js.startsWith ps (slug +:+ "-")) false (proj_slug p))).
2:{ intros p. unfold slug_starts_with. destruct (proj_slug p) as [[|c ps]|]; simpl; try done.
  by destruct slug. }
rewrite (find_ext (slug_includes slug)
         (λ p, from_option (λ ps, Js.includes ps slug) false (proj_slug p))).
2:{ intros p. unfold slug_includes. destruct (proj_slug p) as [[|c ps]|]; try done.
  cbn [from_option Js.truthy andb]. by rewrite includes_empty. }
done.
Qed.

Lemma unresolvable_spec (slug : option string) :
unresolvable slug = true
↔ slug ∈ [None; Some ""; Some "null"; Some "terminal"; Some "unassigned"].
Proof.
unfold unresolvable. destruct slug as [s|].
- rewrite !orb_true_iff, negb_true_iff, !bool_decide_eq_true.
rewrite !elem_of_cons, elem_of_nil. split.
+ intros [[[H| ->]| ->]| ->]; auto 10. destruct s; [auto|done].
+ intros [?|[[= ->]|[[= ->]|[[= ->]|[[= ->]|[]]]]]]; try done; simpl; auto 10.
- split; [left|done].
Qed.

End ResolverFacts.

Lemma resolve_guarded (slug : option string) (w : World) :
  slug ∈ [None; Some ""; Some "null"; Some "terminal"; Some "unassigned"] →
  resolveProjectId slug w = (None, w).
Proof. intros H. apply unresolvable_spec in H. unfold resolveProjectId. by rewrite H. Qed.

Lemma resolve_ordered (s : string) (w : World) :
  s ∉ [""; "null"; "terminal"; "unassigned"] →
  (resolveProjectId (Some s) w).1 = proj_id <$> resolution_order s (loadProjects w).1.
Proof.
  intros Hs. unfold resolveProjectId.
  assert (unresolvable (Some s) = false) as ->.
  { apply not_true_iff_false. rewrite unresolvable_spec.
    rewrite !elem_of_cons, elem_of_nil in *.
    intros [?|[[= ->]|[[= ->]|[[= ->]|[[= ->]|[]]]]]]; try done; apply Hs; auto 10. }
  unfold mbind, state_bind, mret, state_ret.
  destruct (loadProjects w) as [ps w']. simpl.
  rewrite match_project_order; [done|]. intros ->. apply Hs. left.
Qed.

(** C6, as the code has it.  [resolveProjectId] returns null at once, without
    a lookup and without touching the cache, when the slug is null, the
    empty string, or one of the strings "null", "terminal" and "unassigned".
    For every other slug it returns the identity of the first project in the
    resolution order (exact slug, then slug starting with the input and a
    hyphen, then slug containing the input), and null when no project
    matches. *)
Theorem resolveProjectId_resolution (slug : option string) (w : World) :
  (slug ∈ [None; Some ""; Some "null"; Some "terminal"; Some "unassigned"] →
   resolveProjectId slug w = (None, w))
  ∧ (∀ s, slug = Some s → s ∉ [""; "null"; "terminal"; "unassigned"] →
     (resolveProjectId slug w).1 = proj_id <$> resolution_order s (loadProjects w).1).
Proof.
  split.
  - apply resolve_guarded.
  - intros s -> Hs. by apply resolve_ordered.
Qed.

Lemma resolveProjectId_resolution_witness :
  resolveProjectId (Some "null") Example.store_with_null_island
  = (None, Example.store_with_null_island)
  ∧ (resolveProjectId (Some "ai-jason") Example.store_with_null_island).1 = Some "p-jason".
Proof.
  split.
  - apply (proj1 (resolveProjectId_resolution (Some "null") Example.store_with_null_island)).
    right. right. left.
  - apply (proj2 (resolveProjectId_resolution (Some "ai-jason") Example.store_with_null_island)
             "ai-jason" eq_refl).
    rewrite !elem_of_cons, elem_of_nil. intros [?|[?|[?|[?|[]]]]]; done.
Defined.

(** C6, as stated, fails: the string "null" is none of the three inputs of
    the statement, and a project matches it by prefix, yet nothing is
    resolved. *)
Lemma null_string_is_not_resolved : ¬ resolves_as_stated.
Proof.
  intros H.
  destruct (H (Some "null") Example.store_with_null_island) as [_ H2].
  specialize (H2 "null" eq_refl).
  assert (@None string = Some "p-null") as Habs; [|done].
  apply H2. rewrite !elem_of_cons, elem_of_nil. intros [?|[?|[]]]; done.
Qed.

(** ** The stager *)
Section StagerFacts.

Lemma loadProjects_world (w : World) : only_looked_up w (loadProjects w).2.
Proof.
unfold only_looked_up, loadProjects, all_projects, request, get, modify,
mbind, state_bind, mret, state_ret. simpl.
destruct (projectCache w) as [cached|]; [case_bool_decide|];
destruct (faults w) as [|[] ?]; simpl; auto.
Qed.

Lemma resolveProjectId_world (slug : option string) (w : World) :
only_looked_up w (resolveProjectId slug w).2.
Proof.
unfold resolveProjectId. destruct (unresolvable slug); simpl.
- unfold only_looked_up. auto.
- unfold mbind, state_bind. pose proof (loadProjects_world w) as H.
by destruct (loadProjects w).
Qed.

(** Each of the three cases of the specification is a failed resolution. *)
Lemma unresolved_cases (slug : option string) (w : World) :
slug = None
∨ slug ∈ [Some ""; Some "null"; Some "terminal"; Some "unassigned"]
∨ (∃ s, slug = Some s ∧ resolution_order s (loadProjects w).1 = None) →
(resolveProjectId slug w).1 = None.
Proof.
intros H.
destruct (decide (slug ∈ [None; Some ""; Some "null"; Some "terminal"; Some "unassigned"]))
as [Hin|Hout].
{ by rewrite (resolve_guarded slug w Hin). }
destruct H as [-> | [H | (s & -> & H)]].
- exfalso. apply Hout. left.
- exfalso. apply Hout. by right.
- rewrite resolve_ordered; [by rewrite H|].
intros Hs. apply Hout. right. clear -Hs.
rewrite !elem_of_cons, elem_of_nil in Hs. rewrite !elem_of_cons.
destruct Hs as [->|[->|[->|[->|[]]]]]; auto 10.
Qed.

End StagerFacts.

(** C1.  When the project slug of a batch cannot be resolved (it is absent,
    one of the reserved values, or matches no project), [insertStaging]
    returns inserted = 0, duplicates = 0, rejected = the size of the batch
    and the marker 'project_id unresolved'; the staging table is left as it
    was and no insert is requested. *)
Theorem insertStaging_rejects_unresolved
    (items : list Item) (sessionId : string) (projectSlug : option string) (w : World) :
  (resolveProjectId projectSlug w).1 = None →
  (insertStaging items sessionId projectSlug w).1
  = mkStaged 0 0 (length items) (Some "project_id unresolved")
  ∧ extractions (insertStaging items sessionId projectSlug w).2 = extractions w
  ∧ ∀ t, (t, Insert) ∈ requests (insertStaging items sessionId projectSlug w).2 →
         (t, Insert) ∈ requests w.
Proof.
  intros H. unfold insertStaging, mbind, state_bind.
  destruct (Js.truthy (default "" projectSlug)).
  - pose proof (resolveProjectId_world projectSlug w) as (He & _ & Hr).
    destruct (resolveProjectId projectSlug w) as [r w']. simpl in *. subst r.
    simpl. repeat split; [done|].
    intros t Ht. destruct Hr as [Hr|Hr]; rewrite Hr in Ht; [done|].
    apply elem_of_app in Ht as [Ht|Ht]; [done|].
    by apply list_elem_of_singleton in Ht.
  - simpl. repeat split; done.
Qed.

Lemma insertStaging_rejects_unresolved_witness :
  (insertStaging [Example.todo_item; Example.bug_item] "s-1" (Some "nowhere") Example.store).1
  = mkStaged 0 0 2 (Some "project_id unresolved").
Proof.
  apply (insertStaging_rejects_unresolved
           [Example.todo_item; Example.bug_item] "s-1" (Some "nowhere") Example.store).
  reflexivity.
Defined.

Section FingerprintFacts.

Lemma or_else_empty (o : option string) : Js.or_else o "" = default "" o.
Proof. by destruct o as [[|c s]|]. Qed.

Lemma same_input_same_hash (a b : Item) :
same_fingerprint_input a b → generateHash a = generateHash b.
Proof.
intros (Ht & Hc & He). unfold generateHash.
by rewrite !or_else_empty, Ht, Hc, He.
Qed.

(** The check of [isDuplicate] in a world where the store answers. *)
Lemma isDuplicate_answer (hash : string) (w : World) :
next_request_succeeds w →
isDuplicate hash w
= (bool_decide (staged_with hash w), note_request dev_ai_smart_extractions Select w).
Proof.
unfold next_request_succeeds, isDuplicate, extractions_with_hash, request,
mbind, state_bind, mret, state_ret, staged_with.
intros Hw.
assert (∀ l : list Row,
        (0 <? length (take 1 (filter (λ r, row_hash r = hash) l)))%nat
        = bool_decide (Exists (λ row, row_hash row = hash) l)) as Hdup.
{ intros l. destruct (filter (λ r, row_hash r = hash) l) as [|r l'] eqn:E; simpl.
- symmetry. apply bool_decide_eq_false. rewrite Exists_exists. intros (row & Hin & Hh).
  assert (row ∈ filter (λ r, row_hash r = hash) l) as Hf
    by by apply list_elem_of_filter.
  rewrite E in Hf. by apply elem_of_nil in Hf.
- symmetry. apply bool_decide_eq_true. rewrite Exists_exists. exists r.
  assert (r ∈ filter (λ r, row_hash r = hash) l) as Hf by (rewrite E; left).
  apply list_elem_of_filter in Hf. tauto. }
destruct (faults w) as [|[] ?]; simpl in *; try done; by rewrite Hdup.
Qed.

(** One turn of the loop on an item whose fingerprint is staged already. *)
Lemma stage_duplicate item more sessionId projectSlug projectId counts (w : World) :
next_request_succeeds w →
staged_with (generateHash item) w →
stage (item :: more) sessionId projectSlug projectId counts w
= stage more sessionId projectSlug projectId
  (mkStaged (inserted counts) (S (duplicates counts)) (rejected counts) None)
  (note_request dev_ai_smart_extractions Select w).
Proof.
intros Hw Hdup. simpl. unfold mbind, state_bind.
rewrite isDuplicate_answer by done. by rewrite bool_decide_eq_true_2.
Qed.

(** One turn of the loop on an item that is new to the staging table. *)
Lemma stage_fresh item more sessionId projectSlug projectId counts (w : World) :
next_request_succeeds w →
next_request_succeeds (note_request dev_ai_smart_extractions Select w) →
¬ staged_with (generateHash item) w →
stage (item :: more) sessionId projectSlug projectId counts w
= stage more sessionId projectSlug projectId
  (mkStaged (S (inserted counts)) (duplicates counts) (rejected counts) None)
  (add_extraction
     (row_of item sessionId projectSlug projectId (generateHash item) (clock w))
     (note_request dev_ai_smart_extractions Insert
        (note_request dev_ai_smart_extractions Select w))).
Proof.
intros Hw Hw' Hnew. simpl. unfold mbind, state_bind.
rewrite isDuplicate_answer by done. rewrite bool_decide_eq_false_2 by done.
unfold get, insert_extraction, request. simpl.
unfold next_request_succeeds in Hw'. simpl in Hw'.
destruct (tail (faults w)) as [|[] ?]; simpl in *; done.
Qed.

End FingerprintFacts.

(** C10.  Two items that agree on the title (none counting as empty), on the
    first 200 characters of the content and on the session reference of the
    first evidence entry have the same fingerprint, whatever their bucket,
    priority, remaining content and further evidence.  Staged one after the
    other, while the store answers, at most one of them is inserted: the
    other is counted as a duplicate. *)
Theorem same_input_deduplicates (a b : Item) :
  same_fingerprint_input a b →
  generateHash a = generateHash b
  ∧ ∀ (w : World) (sessionId : string) (projectSlug : option string) (projectId : string),
      faults w = [] →
      let out := stage [a; b] sessionId projectSlug projectId (mkStaged 0 0 0 None) w in
      rejected out.1 = 0%nat
      ∧ (inserted out.1 + duplicates out.1 = 2)%nat
      ∧ (1 ≤ duplicates out.1)%nat
      ∧ (length (extractions out.2) ≤ S (length (extractions w)))%nat.
Proof.
  intros Hab. pose proof (same_input_same_hash a b Hab) as Hh. split; [done|].
  intros w sessionId projectSlug projectId Hw.
  assert (∀ w', faults w' = [] → next_request_succeeds w') as Hok.
  { intros w' H. unfold next_request_succeeds. by rewrite H. }
  assert (∀ t v w', faults w' = [] → faults (note_request t v w') = []) as Hnote.
  { intros t v w' H. simpl. by rewrite H. }
  destruct (decide (staged_with (generateHash a) w)) as [Hdup|Hnew].
  - rewrite stage_duplicate by auto.
    rewrite stage_duplicate; [simpl; repeat split; lia|auto|].
    by rewrite <- Hh.
  - rewrite stage_fresh by auto.
    rewrite stage_duplicate.
    + simpl. rewrite length_app. simpl. repeat split; lia.
    + apply Hok. simpl. by rewrite Hw.
    + rewrite <- Hh. unfold staged_with. simpl. apply Exists_app. right. by left.
Qed.

Lemma same_input_deduplicates_witness :
  generateHash Example.todo_item = generateHash Example.bug_item.
Proof.
  apply (same_input_deduplicates Example.todo_item Example.bug_item).
  repeat split.
Defined.

(** ** The validator *)
Section ValidatorFacts.

Lemma test_anchored (r : regex) (t : string) :
is_Some (match_here no_flags (Seq Bol r) (Cursor None t 0)) →
test no_flags (Seq Bol r) t = true.
Proof. intros H. unfold test. rewrite exec_anchored by done. by apply bool_decide_eq_true. Qed.

Lemma pipe_is_garbage (t : string) :
begins_with_pipe t = true → title_is_garbage t = true.
Proof.
destruct t as [|c t]; [done|]. simpl. intros ->%bool_decide_eq_true.
unfold title_is_garbage, garbagePatterns. cbn [existsb].
apply orb_true_iff. left. by apply test_anchored.
Qed.

Lemma http_is_garbage (t : string) :
Js.startsWith t "http" = true → title_is_garbage t = true.
Proof.
intros (rest & ->)%startsWith_spec.
unfold title_is_garbage, garbagePatterns. cbn [existsb].
rewrite !orb_true_iff. right. right. left. by apply test_anchored.
Qed.

Lemma digits_then_bracket_spec (seen : bool) (s : string) :
digits_then_bracket seen s = true →
∃ digits rest,
s = digits +:+ String "]" rest
∧ Js.all_chars Js.is_digit digits = true
∧ (seen = true ∨ digits ≠ "").
Proof.
revert seen. induction s as [|c s IH]; intros seen; simpl; [done|].
destruct (Js.is_digit c) eqn:Hc.
- intros (digits & rest & -> & Hd & _)%IH.
exists (String c digits), rest. simpl. rewrite Hc, Hd. auto.
- intros [-> ->%bool_decide_eq_true]%andb_true_iff.
exists "", s. auto.
Qed.

Lemma ordinal_is_garbage (t : string) :
begins_with_ordinal t = true → title_is_garbage t = true.
Proof.
destruct t as [|c t]; [done|]. simpl.
intros [->%bool_decide_eq_true H]%andb_true_iff.
apply digits_then_bracket_spec in H as (digits & after & -> & Hd & [?|Hne]); [done|].
unfold title_is_garbage, garbagePatterns. cbn [existsb].
rewrite !orb_true_iff. right. left. apply test_anchored, match_here_some.
unfold Cat. cbn [foldr rmatch at_bol prev rest index plus chr_eq ignoreCase
                 no_flags advance].
rewrite bool_decide_eq_true_2 by done.
apply rep_greedy_max_some; [done| |done|by right|].
- destruct digits; [done|simpl; lia].
- cbn. unfold chr_eq. cbn. eauto.
Qed.

Lemma all_class_matches (f : ascii → bool) (t : string) :
Js.all_chars f t = true →
is_Some (match_here no_flags (Cat [Bol; star f; Eol]) (Cursor None t 0)).
Proof.
intros Hall. apply match_here_some. unfold Cat, star.
cbn [foldr rmatch at_bol prev rest index].
rewrite <- (append_empty_r t).
apply rep_greedy_max_some; [done|lia|done|by right|].
cbn. eauto.
Qed.

Lemma blank_is_garbage (t : string) :
is_blank t = true → title_is_garbage t = true.
Proof.
intros H. unfold title_is_garbage, garbagePatterns. cbn [existsb].
rewrite !orb_true_iff. right. right. right. left.
apply test_anchored. by apply (all_class_matches Js.is_space).
Qed.

Lemma no_letter_is_garbage (t : string) :
has_no_letter t = true → title_is_garbage t = true.
Proof.
intros H. unfold title_is_garbage, garbagePatterns. cbn [existsb].
rewrite !orb_true_iff. right. right. right. right. left.
apply test_anchored. by apply (all_class_matches (λ c, negb (Js.is_alpha c))).
Qed.

(** What the five patterns reject, at the least. *)
Lemma garbage_title_is_garbage (t : string) :
garbage_title (λ t, Js.startsWith t "http") t = true → title_is_garbage t = true.
Proof.
unfold garbage_title. rewrite !orb_true_iff.
intros [[[[H|H]|H]|H]|H];
auto using pipe_is_garbage, ordinal_is_garbage, http_is_garbage, blank_is_garbage,
  no_letter_is_garbage.
Qed.

Lemma length_add_if (c : bool) (l : list string) (m : string) :
(length l ≤ length (if c then l ++ [m] else l))%nat.
Proof. destruct c; [rewrite length_app|]; simpl; lia. Qed.

(** An error of the schema, or of the title check, makes the item invalid. *)
Lemma invalid_by_title (item : Item) (t : string) :
title item = Some t →
t = "" ∨ title_is_garbage t = true →
valid (validateItem item) = false.
Proof.
intros Ht Hbad. unfold validateItem. rewrite Ht.
set (e0 := validateBase item).
set (e1 := if negb (Js.truthy (Js.trim (content item))) then _ else e0).
set (e2 := if negb (existsb _ (evidence item)) then _ else e1).
assert (length e0 ≤ length e1)%nat as H01 by apply length_add_if.
assert (length e1 ≤ length e2)%nat as H12 by apply length_add_if.
simpl. apply bool_decide_eq_false.
destruct t as [|c t].
- assert (1 ≤ length e0)%nat as H0.
{ unfold e0, validateBase. rewrite Ht. rewrite !length_app. simpl. lia. }
match goal with
| |- length (if ?c then ?l ++ [?m] else ?l) ≠ _ =>
    pose proof (length_add_if c l m)
end. lia.
- destruct Hbad as [?|Hg]; [done|]. rewrite Hg.
match goal with
| |- length (if ?c then ?l ++ [?m] else ?l) ≠ _ =>
    pose proof (length_add_if c l m) as H; rewrite length_app in H; simpl in H
end. lia.
Qed.

Lemma sound_title_adds_nothing (item : Item) :
errors (validateItem (with_title (Some "Improve retry logic") item))
= errors (validateItem (with_title None item)).
Proof.
unfold validateItem, validateBase, with_title.
cbn [title bucket content priority evidence tags errors].
replace (title_is_garbage "Improve retry logic") with false by (vm_compute; reflexivity).
reflexivity.
Qed.

End ValidatorFacts.

(** C8, as the code has it.  An item that carries a title is invalid when the
    title begins with [|], begins with a bracketed ordinal such as [[12]],
    begins with the letters [http], is blank, or has no letter at all.  In
    particular the title "[3] see above" makes an item invalid, and the title
    "Improve retry logic" adds no error to an item: an item that is valid
    without a title is valid with this one. *)
Theorem garbage_titles_are_rejected :
  (∀ (item : Item) (t : string),
     title item = Some t →
     garbage_title (λ t, Js.startsWith t "http") t = true →
     valid (validateItem item) = false)
  ∧ (∀ item : Item,
       title item = Some "[3] see above" → valid (validateItem item) = false)
  ∧ (∀ item : Item,
       validateItem (with_title (Some "Improve retry logic") item)
       = validateItem (with_title None item)).
Proof.
  assert (H : ∀ (item : Item) (t : string),
            title item = Some t →
            garbage_title (λ t, Js.startsWith t "http") t = true →
            valid (validateItem item) = false).
  { intros item t Ht Hg. apply (invalid_by_title item t Ht).
    right. by apply garbage_title_is_garbage. }
  split; [done|split].
  - intros item Ht. by apply (H item _ Ht).
  - intros item. pose proof (sound_title_adds_nothing item) as He.
    unfold validateItem in *. simpl in *. by rewrite He.
Qed.

Lemma garbage_titles_are_rejected_witness :
  valid (validateItem (with_title (Some "https://example.com/issue/7") Example.todo_item))
  = false
  ∧ valid (validateItem (with_title (Some "[3] see above") Example.todo_item)) = false.
Proof.
  split.
  - apply (proj1 garbage_titles_are_rejected
             (with_title (Some "https://example.com/issue/7") Example.todo_item)
             "https://example.com/issue/7"); reflexivity.
  - apply (proj1 (proj2 garbage_titles_are_rejected)
             (with_title (Some "[3] see above") Example.todo_item)); reflexivity.
Defined.

(** C8, as stated, fails: a title that begins with the scheme [ftp://] is
    accepted. *)
Lemma ftp_title_is_accepted : ¬ rejects_titles_as_stated.
Proof.
  intros H.
  specialize (H Example.ftp_item "ftp://files.example.com/readme" eq_refl eq_refl).
  vm_compute in H. done.
Qed.

(** ** The extractor *)
Section MatcherInversion.

Implicit Types (f : ascii → bool) (k : cont) (p : option ascii) (s : string).

Lemma rmatch_seq fl r1 r2 k cur caps :
rmatch fl (Seq r1 r2) k cur caps = rmatch fl r1 (rmatch fl r2 k) cur caps.
Proof. reflexivity. Qed.

Lemma rmatch_bol_inv fl k cur caps res :
rmatch fl Bol k cur caps = Some res → at_bol fl cur = true ∧ k cur caps = Some res.
Proof. simpl. by destruct (at_bol fl cur). Qed.

Lemma rmatch_eol_inv fl k cur caps res :
rmatch fl Eol k cur caps = Some res → at_eol fl cur = true ∧ k cur caps = Some res.
Proof. simpl. by destruct (at_eol fl cur). Qed.

Lemma rmatch_rep_inv fl f lo hi k cur caps res :
rmatch fl (Rep f lo hi) k cur caps = Some res →
∃ taken s',
rest cur = taken +:+ s'
∧ Js.all_chars f taken = true
∧ (lo ≤ String.length taken)%nat
∧ (∀ h, hi = Some h → (String.length taken ≤ h)%nat)
∧ k (Cursor (prev_after (prev cur) taken) s' (index cur + String.length taken)) caps
  = Some res.
Proof. apply rep_greedy_sound. Qed.

Lemma rmatch_chr_inv fl c k cur caps res :
rmatch fl (Chr c) k cur caps = Some res →
∃ x s',
rest cur = String x s' ∧ chr_eq fl c x = true
∧ k (advance x s' cur) caps = Some res.
Proof.
simpl. destruct (rest cur) as [|x s']; [done|].
destruct (chr_eq fl c x) eqn:E; [|done]. eauto.
Qed.

Lemma rmatch_lit_inv fl word k cur caps res :
rmatch fl (Lit word) k cur caps = Some res →
starts_like fl word (rest cur) = true
∧ k (Cursor (prev_after (prev cur) (Js.take (String.length word) (rest cur)))
     (Js.drop (String.length word) (rest cur))
     (index cur + String.length word)) caps = Some res.
Proof.
revert cur. induction word as [|c word IH]; intros [p s i] H.
- simpl in *. by rewrite Nat.add_0_r.
- change (Lit (String c word)) with (Seq (Chr c) (Lit word)) in H.
rewrite rmatch_seq in H.
apply rmatch_chr_inv in H as (x & s' & Hs & Hc & H). simpl in Hs. subst s.
apply IH in H as [Hw H]. simpl in *. rewrite Hc, Hw. split; [done|].
by replace (i + S (String.length word))%nat with (S (i + String.length word))%nat by lia.
Qed.






End MatcherInversion.

Section MarkerLines.

Lemma rmatch_alt_inv fl r1 r2 k cur caps res :
rmatch fl (Alt r1 r2) k cur caps = Some res →
rmatch fl r1 k cur caps = Some res ∨ rmatch fl r2 k cur caps = Some res.
Proof. simpl. destruct (rmatch fl r1 k cur caps); [by left|by right]. Qed.








End MarkerLines.

Section MarkerLineItems.




End MarkerLineItems.


(** ** The work log *)
Section LiteralFacts.

Implicit Types (k : cont) (p : option ascii) (s : string).

(** A literal word either stands at the cursor and is passed, or the match
fails. *)
Lemma rmatch_lit fl word k cur caps :
rmatch fl (Lit word) k cur caps
= if starts_like fl word (rest cur)
then k (Cursor (prev_after (prev cur) (Js.take (String.length word) (rest cur)))
          (Js.drop (String.length word) (rest cur))
          (index cur + String.length word)) caps
else None.
Proof.
revert cur. induction word as [|c word IH]; intros [p s i].
- simpl. by rewrite Nat.add_0_r.
- change (Lit (String c word)) with (Seq (Chr c) (Lit word)).
rewrite rmatch_seq. cbn [rmatch Regex.rest]. destruct s as [|x s]; [done|].
cbn [starts_like]. destruct (chr_eq fl c x); [|done].
rewrite IH. simpl.
by replace (i + S (String.length word))%nat with (S (i + String.length word))%nat by lia.
Qed.

Lemma starts_like_exact (word s : string) :
starts_like gm word s = Js.startsWith s word.
Proof.
revert s. induction word as [|c word IH]; intros [|x s]; simpl; try done.
by rewrite IH.
Qed.

(** The first line of a text begins with a word that has no line terminator
exactly when the text does. *)
Lemma startsWith_first_line (word s : string) :
Js.all_chars Js.is_dot word = true →
Js.startsWith (default "" (head (lines s))) word = Js.startsWith s word.
Proof.
revert s. induction word as [|c word IH]; intros s Hw.
- by destruct s.
- simpl in Hw. apply andb_true_iff in Hw as [Hc Hw]. apply negb_true_iff in Hc.
destruct s as [|x s]; [done|]. cbn [lines].
destruct (Js.is_line_terminator x) eqn:Hx.
+ simpl. rewrite bool_decide_eq_false_2; [done|]. congruence.
+ specialize (IH s Hw). destruct (lines s) as [|l ls]; simpl in *.
  * rewrite <- IH. by destruct word.
  * by rewrite IH.
Qed.

Lemma lines_nonempty (s : string) : lines s ≠ [].
Proof.
induction s as [|c s IH]; simpl; [done|].
destruct (Js.is_line_terminator c); [done|]. by destruct (lines s).
Qed.

End LiteralFacts.

Section TurnCount.

Implicit Types (p : option ascii) (s word : string).

Lemma lines_from_start (c : ascii) (s : string) :
lines_from true (String c s)
= default "" (head (lines (String c s))) :: lines_from (Js.is_line_terminator c) s.
Proof.
unfold lines_from. simpl. destruct (Js.is_line_terminator c); [done|].
pose proof (lines_nonempty s). by destruct (lines s).
Qed.

Lemma lines_from_inside (c : ascii) (s : string) :
lines_from false (String c s) = lines_from (Js.is_line_terminator c) s.
Proof.
unfold lines_from. simpl. destruct (Js.is_line_terminator c); [done|].
pose proof (lines_nonempty s). by destruct (lines s).
Qed.

Lemma at_bol_gm p s i : at_bol gm (Cursor p s i) = bol p.
Proof. by destruct p. Qed.

Lemma rmatch_bol fl (k : cont) cur caps :
rmatch fl Bol k cur caps = if at_bol fl cur then k cur caps else None.
Proof. reflexivity. Qed.

(** The match of [/^WORD/gm] at one position. *)
Lemma match_here_word word p s i :
match_here gm (Cat [Bol; Lit word]) (Cursor p s i)
= if bol p && Js.startsWith s word
then Some (Result i (Js.take (String.length word) s) ∅)
else None.
Proof.
unfold match_here, Cat. cbn [foldr]. rewrite rmatch_seq, rmatch_bol.
rewrite at_bol_gm. destruct (bol p); [|done]. rewrite rmatch_seq, rmatch_lit.
cbn [Regex.rest Regex.index Regex.prev rmatch]. rewrite starts_like_exact.
destruct (Js.startsWith s word); [|done]. simpl.
by replace (i + String.length word - i)%nat with (String.length word) by lia.
Qed.

Lemma length_take_prefix (word rest : string) :
String.length (Js.take (String.length word) (word +:+ rest)) = String.length word.
Proof. by rewrite take_append_length. Qed.

Lemma all_chars_take (f : ascii → bool) (n : nat) (s : string) :
Js.all_chars f s = true → Js.all_chars f (Js.take n s) = true.
Proof.
revert n. induction s as [|c s IH]; intros [|n]; simpl; try done.
intros [-> Hs]%andb_true_iff. simpl. auto.
Qed.

Lemma take_take_append (n : nat) (word rest : string) :
(n ≤ String.length word)%nat → Js.take n (word +:+ rest) = Js.take n word.
Proof.
revert n. induction word as [|c word IH]; intros [|n] Hn;
rewrite ?append_empty_l, ?append_cons; cbn [Js.take String.length] in *.
- by destruct rest.
- lia.
- done.
- rewrite IH; [done|lia].
Qed.

(** The matches of [/^WORD/gm] from a position on are the lines from there
on that begin with the word.  While code units of a match are still to
be passed, the position is inside a line. *)
Lemma scan_word_count word skip p s i :
word ≠ "" →
Js.all_chars Js.is_dot word = true →
match skip with
| O => True
| S k => Js.all_chars Js.is_dot (Js.take k s) = true
end →
length (scan gm (Cat [Bol; Lit word]) skip p s i)
= length (filter (λ l, Js.startsWith l word = true)
          (lines_from (bool_decide (skip = 0%nat) && bol p) s)).
Proof.
intros Hne Hword. revert skip p i.
induction s as [|c s IH]; intros skip p i Hskip.
- destruct skip as [|k]; cbn [scan]; [|done].
rewrite match_here_word. destruct word as [|w word']; [done|].
cbn [Js.startsWith]. rewrite andb_false_r.
by destruct (bol p).
- destruct skip as [|k]; cbn [scan].
+ rewrite match_here_word. cbn [bool_decide decide_rel andb].
  rewrite bool_decide_eq_true_2 by done. cbn [andb].
  destruct (bol p) eqn:Hp; cbn [andb].
  * rewrite lines_from_start, filter_cons.
    rewrite (startsWith_first_line word (String c s) Hword).
    destruct (Js.startsWith (String c s) word) eqn:Hstart.
    -- rewrite decide_True by done. cbn [length m_text]. f_equal.
       apply startsWith_spec in Hstart as [rest' Hrest].
       destruct word as [|w word']; [done|].
       rewrite append_cons in Hrest. injection Hrest as <- ->.
       cbn [Js.all_chars] in Hword. apply andb_true_iff in Hword as [Hc Hword'].
       apply negb_true_iff in Hc.
       change (String c (word' +:+ rest')) with (String c word' +:+ rest').
       rewrite length_take_prefix. cbn [String.length Init.Nat.pred].
       rewrite IH.
       ++ rewrite Hc. simpl bol. rewrite Hc. by rewrite andb_false_r.
       ++ destruct (String.length word') as [|k] eqn:Hk; [done|].
          rewrite take_take_append by lia. by apply all_chars_take.
    -- rewrite decide_False by done. rewrite IH by done.
       by rewrite bool_decide_eq_true_2.
  * rewrite lines_from_inside, IH by done. by rewrite bool_decide_eq_true_2.
+ rewrite bool_decide_eq_false_2 by done. cbn [andb].
  rewrite lines_from_inside, IH.
  * destruct k as [|k'].
    -- by rewrite bool_decide_eq_true_2.
    -- rewrite bool_decide_eq_false_2 by done. cbn [andb].
       simpl in Hskip. apply andb_true_iff in Hskip as [Hc _].
       apply negb_true_iff in Hc. by rewrite Hc.
  * destruct k as [|k']; [done|]. simpl in Hskip.
    by apply andb_true_iff in Hskip as [_ ?].
Qed.

(** The turns that the work log counts are the lines that begin with a turn
marker. *)
Lemma turns_are_lines (content : string) : turns content = turn_lines content.
Proof.
unfold turns, turn_lines, lines_starting, exec_all, USER_TURN, ASSISTANT_TURN.
by rewrite !scan_word_count.
Qed.

End TurnCount.

Section WorklogFacts.

Implicit Types (p : option ascii) (s : string).

Lemma consider_buckets (P : Item → Prop) b pr session acc (m : result) :
Forall P acc.1 →
(∀ item, bucket item = b → P item) →
Forall P (consider b pr session acc m).1.
Proof.
intros Hacc Hb. unfold consider. destruct acc as [items seen].
destruct (Js.trim <$> group 1 m) as [text|]; [|done].
destruct (_ && _); [|done]. cbn [fst] in *.
apply Forall_app. split; [done|]. constructor; [|constructor]. by apply Hb.
Qed.

Lemma sweep_buckets (P : Item → Prop) patterns b pr content session acc :
Forall P acc.1 →
(∀ item, bucket item = b → P item) →
Forall P (sweep patterns b pr content session acc).1.
Proof.
intros Hacc Hb. unfold sweep. revert acc Hacc.
induction patterns as [|pattern patterns IH]; intros acc Hacc; [done|].
cbn [foldl]. apply IH.
generalize (exec_all pattern.1 pattern.2 content). intros ms. revert acc Hacc.
induction ms as [|m ms IHm]; intros acc Hacc; [done|].
cbn [foldl]. apply IHm. by apply consider_buckets.
Qed.

(** The rule items are filed under Todos, Bugs Open and Decisions only. *)
Lemma rule_items_buckets (content : string) (session : Session) :
Forall (λ item, bucket item ∈ [Todos; Bugs_Open; Decisions])
(extractWithRules content session).
Proof.
unfold extractWithRules.
repeat apply sweep_buckets; cbn [fst];
first [ by apply Forall_nil | intros item <-; rewrite !elem_of_cons; auto ].
Qed.

Lemma match_here_first_user_none p s i :
bol p && Js.startsWith s "USER:" = false →
match_here gm FIRST_USER (Cursor p s i) = None.
Proof.
intros H. unfold match_here, FIRST_USER, Cat. cbn [foldr].
rewrite rmatch_seq, rmatch_bol, at_bol_gm.
destruct (bol p); [|done]. rewrite rmatch_seq, rmatch_lit.
cbn [Regex.rest]. rewrite starts_like_exact. cbn [andb] in H. by rewrite H.
Qed.

(** Where no line begins with the marker, the search finds nothing. *)
Lemma search_no_user_line p s i :
no_user_line (lines_from (bol p) s) → search gm FIRST_USER p s i = None.
Proof.
unfold no_user_line. revert p i. induction s as [|c s IH]; intros p i H; cbn [search].
- rewrite match_here_first_user_none; [done|]. apply andb_false_r.
- rewrite match_here_first_user_none.
+ apply IH. destruct (bol p).
  * rewrite lines_from_start in H. by apply Forall_cons in H as [_ ?].
  * by rewrite lines_from_inside in H.
+ destruct (bol p); [|done].
  rewrite lines_from_start in H. apply Forall_cons in H as [H _].
  by rewrite startsWith_first_line in H.
Qed.

Lemma first_user_line_none (content : string) :
first_user_line content = None → no_user_line (lines content).
Proof.
unfold first_user_line, no_user_line. intros H. apply Forall_forall. intros l Hl.
destruct (Js.startsWith l "USER:") eqn:E; [|done].
assert (l ∈ filter (λ l, Js.startsWith l "USER:" = true) (lines content)) as Hin
by by apply list_elem_of_filter.
destruct (filter _ (lines content)); [by apply elem_of_nil in Hin|done].
Qed.

Lemma topic_fallback (content : string) :
first_user_line content = None → topic content = "Development work".
Proof.
intros H. unfold topic, exec.
rewrite search_no_user_line; [done|]. by apply first_user_line_none.
Qed.

End WorklogFacts.

Section FirstUserTurn.

Implicit Types (p : option ascii) (s : string).

Lemma startsWith_straddle (b rest word : string) :
Js.all_chars Js.is_dot b = false →
Js.all_chars Js.is_dot word = true →
Js.startsWith (b +:+ rest) word = Js.startsWith b word.
Proof.
revert b. induction word as [|w word IH]; intros b Hb Hword; [done|].
destruct b as [|x b]; [done|]. rewrite append_cons. cbn [Js.startsWith].
cbn [Js.all_chars] in *. apply andb_true_iff in Hword as [Hw Hword].
destruct (Js.is_dot x) eqn:Hx.
- rewrite IH by done. done.
- rewrite !bool_decide_eq_false_2; [done|congruence..].
Qed.

Lemma ends_with_terminator p (b : string) :
b ≠ "" → bol (prev_after p b) = true → Js.all_chars Js.is_dot b = false.
Proof.
revert p. induction b as [|c b IH]; intros p Hne H; [done|].
cbn [prev_after Js.all_chars] in *. destruct b as [|c' b'].
- simpl in H. unfold Js.is_dot. by rewrite H.
- rewrite (IH (Some c)) by done. apply andb_false_r.
Qed.

(** The search passes over the lines that do not begin with the marker. *)
Lemma search_skip_lines (before rest : string) p i :
no_user_line (lines_from (bol p) before) →
bol (prev_after p before) = true →
search gm FIRST_USER p (before +:+ rest) i
= search gm FIRST_USER (prev_after p before) rest (i + String.length before).
Proof.
unfold no_user_line. revert p i.
induction before as [|c b IH]; intros p i Hlines Hend.
- rewrite append_empty_l. simpl. by rewrite Nat.add_0_r.
- rewrite append_cons. cbn [search]. rewrite match_here_first_user_none.
+ rewrite IH.
  * cbn [prev_after String.length]. f_equal. lia.
  * destruct (bol p).
    -- rewrite lines_from_start in Hlines. by apply Forall_cons in Hlines as [_ ?].
    -- by rewrite lines_from_inside in Hlines.
  * done.
+ destruct (bol p); [|done]. cbn [andb].
  rewrite lines_from_start in Hlines. apply Forall_cons in Hlines as [H _].
  rewrite startsWith_first_line in H by done.
  change (String c (b +:+ rest)) with (String c b +:+ rest).
  rewrite startsWith_straddle; [done| |done].
  by eapply ends_with_terminator.
Qed.

Lemma first_line_dot (t : string) :
Js.all_chars Js.is_dot t = true → Js.first_line t = t.
Proof.
induction t as [|c t IH]; [done|]. cbn [Js.all_chars Js.first_line].
intros [Hc Ht]%andb_true_iff. unfold Js.is_dot, Js.is_line_terminator in Hc.
apply negb_true_iff, orb_false_iff in Hc as [-> _]. by rewrite IH.
Qed.

Lemma trimStart_fixed (c : ascii) (t : string) :
Js.trimStart (String c t) = String c t → Js.is_space c = false.
Proof.
cbn [Js.trimStart]. destruct (Js.is_space c); [|done]. intros H.
pose proof (length_trimStart_le t) as Hle. rewrite H in Hle. simpl in Hle. lia.
Qed.

Lemma drop_append_length (word rest : string) :
Js.drop (String.length word) (word +:+ rest) = rest.
Proof. induction word as [|c word IH]; [by destruct rest|]. by rewrite append_cons. Qed.

(** The match of [/^USER:\s*(.{20,200})/m] on the first user turn. *)
Lemma match_here_first_user p i (sp t after : string) :
bol p = true →
Js.all_chars Js.is_space sp = true →
Js.all_chars Js.is_dot t = true →
Js.trimStart t = t →
(20 ≤ String.length t)%nat →
(String.length t ≤ 200)%nat →
String.length t = 200%nat ∨ ends_line after →
∃ m, match_here gm FIRST_USER (Cursor p ("USER:" +:+ sp +:+ t +:+ after) i) = Some m
   ∧ group 1 m = Some t.
Proof.
intros Hp Hsp Ht Hfix Hmin Hmax Hend.
destruct t as [|c t']; [simpl in Hmin; lia|].
pose proof (trimStart_fixed _ _ Hfix) as Hc.
unfold match_here, FIRST_USER, Cat. cbn [foldr].
rewrite rmatch_seq, rmatch_bol, at_bol_gm, Hp.
rewrite rmatch_seq, rmatch_lit. cbn [Regex.rest Regex.prev Regex.index].
rewrite starts_like_exact.
assert (Js.startsWith ("USER:" +:+ sp +:+ String c t' +:+ after) "USER:" = true) as ->.
{ apply startsWith_spec. eauto. }
rewrite drop_append_length, take_append_length.
rewrite rmatch_seq. cbn [rmatch Regex.rest Regex.prev Regex.index star].
erewrite rep_greedy_max; [ | exact Hsp | lia | done | right; by rewrite append_cons | ].
2:{ cbn [rmatch Regex.rest Regex.prev Regex.index].
  apply rep_greedy_max; [exact Ht | lia | by intros h [= <-] | | reflexivity].
  destruct Hend as [Hlen | Hafter]; [left; by rewrite Hlen|right].
  destruct after as [|a after']; [done|]. simpl in Hafter.
  unfold Js.is_dot. by rewrite Hafter. }
eexists. split; [reflexivity|].
unfold group. cbn [m_groups Regex.index Regex.rest]. rewrite lookup_insert_eq. f_equal.
match goal with |- Js.take ?n _ = _ => replace n with (String.length (String c t')) by lia end.
apply take_append_length.
Qed.

Lemma search_found fl r p s i (m : result) :
match_here fl r (Cursor p s i) = Some m → search fl r p s i = Some m.
Proof. intros H. destruct s; simpl; by rewrite H. Qed.

(** The topic of the work log on the first user turn. *)
Lemma topic_of_first_user_turn (content before sp t after : string) :
first_user_turn content before sp t after → topic content = Js.trim t.
Proof.
intros [-> Hstart Hfirst Hsp Ht Hfix Hmin Hmax Hend]. unfold topic, exec.
rewrite search_skip_lines by done.
destruct (match_here_first_user (prev_after None before) (0 + String.length before)
          sp t after) as (m & Hm & Hg); try done.
rewrite (search_found _ _ _ _ _ _ Hm), Hg. simpl. by rewrite first_line_dot.
Qed.

End FirstUserTurn.

(** C5, as the code has it.  For every transcript with content, [extractItems]
    returns the work log item first and the rule items after it, and the
    work log is the only item with bucket Work Log.  Its content is the
    sentence "Development session on SLUG. N conversation turns.", N being
    the number of lines that begin with [USER:] or [ASSISTANT:].  Its title
    is the slug, a colon, and the first 80 characters of the topic.  The
    topic is the generic label when no line begins with [USER:].  When the
    first [USER:] at the start of a line is followed, white space apart, by
    text of 20 to 200 characters that begins with no white space and runs
    to the end of its line, or over 200 characters of a longer line, the
    topic is that text, trimmed at its end. *)
Theorem worklog_of_every_transcript (tr : Transcript) (session : Session) :
  tr_content tr ≠ "" →
  ∃ worklog,
    extractItems (Some tr) session = worklog :: extractWithRules (tr_content tr) session
    ∧ bucket worklog = "Work Log"
    ∧ Forall (λ item, bucket item ≠ "Work Log") (extractWithRules (tr_content tr) session)
    ∧ content worklog
      = "Development session on " +:+ worklog_slug session +:+ ". "
        +:+ Js.show_nat (turn_lines (tr_content tr)) +:+ " conversation turns."
    ∧ title worklog
      = Some (worklog_slug session +:+ ": " +:+ Js.take 80 (topic (tr_content tr)))
    ∧ (first_user_line (tr_content tr) = None → topic (tr_content tr) = "Development work")
    ∧ (∀ before sp t after,
         first_user_turn (tr_content tr) before sp t after →
         topic (tr_content tr) = Js.trim t).
Proof.
  intros Hne. exists (generateWorklog (tr_content tr) session).
  split; [|split; [|split; [|split; [|split; [|split]]]]].
  - unfold extractItems. by destruct (tr_content tr).
  - done.
  - eapply Forall_impl; [apply rule_items_buckets|].
    intros item Hin. rewrite !elem_of_cons, elem_of_nil in Hin.
    destruct Hin as [->|[->|[->|[]]]]; done.
  - cbn [generateWorklog content]. by rewrite turns_are_lines.
  - done.
  - apply topic_fallback.
  - intros before sp t after. apply topic_of_first_user_turn.
Qed.

Lemma worklog_of_every_transcript_witness :
  ∃ worklog,
    head (extractItems (Some Example.greeting_transcript) Example.old_session) = Some worklog
    ∧ bucket worklog = "Work Log".
Proof.
  destruct (worklog_of_every_transcript Example.greeting_transcript Example.old_session)
    as (worklog & Hitems & Hbucket & _); [done|].
  exists worklog. by rewrite Hitems.
Defined.

(** C5, as stated, fails in its last part: when the first line that begins
    with [USER:] is a short greeting, the title is taken from a later line. *)
Lemma title_from_a_later_line : ¬ worklog_title_as_stated.
Proof.
  intros H.
  destruct (H Example.greeting_transcript Example.old_session)
    as (worklog & t & Hhead & Htitle & Hclaim); [done|].
  vm_compute in Hhead. injection Hhead as <-.
  cbn [title] in Htitle. injection Htitle as <-.
  destruct Hclaim as [Hfallback | (line & text & Hline & Hsub & Ht)].
  - vm_compute in Hfallback. done.
  - vm_compute in Hline. injection Hline as <-.
    vm_compute in Ht. injection Ht as Ht. subst text.
    apply includes_spec in Hsub. vm_compute in Hsub. done.
Qed.

(** ** The run *)
Section RunFacts.

Lemma staged_more_same (P : Row → Prop) (w w' : World) :
  extractions w' = extractions w → staged_more P w w'.
Proof. intros H. exists []. by rewrite app_nil_r. Qed.

Lemma staged_more_trans (P : Row → Prop) (w1 w2 w3 : World) :
  staged_more P w1 w2 → staged_more P w2 w3 → staged_more P w1 w3.
Proof.
  intros (n1 & H1 & F1) (n2 & H2 & F2). exists (n1 ++ n2).
  rewrite H2, H1, (assoc_L (++)). split; [done|]. by apply Forall_app.
Qed.

Lemma staged_more_impl (P Q : Row → Prop) (w w' : World) :
  (∀ row, P row → Q row) → staged_more P w w' → staged_more Q w w'.
Proof. intros H (new & Hw & F). exists new. split; [done|]. by eapply Forall_impl. Qed.

Lemma request_rows {A : Type} t v (answer : World → A) (effect : World → World) w :
  (∀ w0, extractions (effect w0) = extractions w0) →
  extractions (request t v answer effect w).2 = extractions w.
Proof.
  intros H. unfold request. destruct (faults w) as [|[] ?]; simpl; by rewrite ?H.
Qed.

Lemma isDuplicate_world (hash : string) (w : World) :
  ∃ dup, isDuplicate hash w = (dup, note_request dev_ai_smart_extractions Select w).
Proof.
  unfold isDuplicate, extractions_with_hash, request, mbind, state_bind, mret, state_ret.
  destruct (faults w) as [|[] ?]; simpl; eauto.
Qed.

Lemma insert_extraction_world (row : Row) (w : World) :
  (∃ msg, insert_extraction row w
          = (Error msg, note_request dev_ai_smart_extractions Insert w))
  ∨ insert_extraction row w
    = (Data tt, add_extraction row (note_request dev_ai_smart_extractions Insert w)).
Proof.
  unfold insert_extraction, request. destruct (faults w) as [|[] ?]; simpl; eauto.
Qed.

(** One turn of the loop of the stager: the counters move, and the staging
    table is as before or has one more row, of this session. *)
Lemma stage_step item more sessionId projectSlug projectId counts w :
  ∃ counts' w',
    stage (item :: more) sessionId projectSlug projectId counts w
    = stage more sessionId projectSlug projectId counts' w'
    ∧ staged_more (λ row, row_session_id row = sessionId) w w'.
Proof.
  cbn [stage]. unfold mbind, state_bind.
  destruct (isDuplicate_world (generateHash item) w) as [dup ->].
  destruct dup.
  - eexists _, _. split; [reflexivity|]. by apply staged_more_same.
  - unfold get.
    match goal with
    | |- context [insert_extraction ?row ?w1] =>
        destruct (insert_extraction_world row w1) as [[msg ->] | ->]
    end; eexists _, _; (split; [reflexivity|]).
    + by apply staged_more_same.
    + eexists [_]. split; [reflexivity|]. by repeat constructor.
Qed.

Lemma stage_rows items sessionId projectSlug projectId counts w :
  staged_more (λ row, row_session_id row = sessionId) w
    (stage items sessionId projectSlug projectId counts w).2.
Proof.
  revert counts w. induction items as [|item more IH]; intros counts w.
  - by apply staged_more_same.
  - destruct (stage_step item more sessionId projectSlug projectId counts w)
      as (counts' & w' & -> & Hw').
    eapply staged_more_trans; [exact Hw'|apply IH].
Qed.

Lemma insertStaging_rows items sessionId projectSlug w :
  staged_more (λ row, row_session_id row = sessionId) w
    (insertStaging items sessionId projectSlug w).2.
Proof.
  unfold insertStaging, mbind, state_bind.
  assert (∃ r w1, (if Js.truthy (default "" projectSlug)
                   then resolveProjectId projectSlug else mret None) w = (r, w1)
                  ∧ extractions w1 = extractions w) as (r & w1 & -> & He).
  { destruct (Js.truthy _).
    - pose proof (resolveProjectId_world projectSlug w) as (He & _).
      destruct (resolveProjectId projectSlug w) as [r w1]. eauto.
    - eauto. }
  destruct r as [[|c projectId]|]; simpl; try by apply staged_more_same.
  eapply staged_more_trans; [by apply staged_more_same|apply stage_rows].
Qed.

Lemma loadTranscript_world sessionId w :
  extractions (loadTranscript sessionId w).2 = extractions w.
Proof.
  unfold loadTranscript, mbind, state_bind, clean_transcript_of, single.
  pose proof (request_rows dev_ai_clean_transcripts Select
                (λ w, head (filter (λ t, ct_session_id t = sessionId) (clean_transcripts w)))
                id w (λ _, eq_refl)) as H1.
  destruct (request dev_ai_clean_transcripts Select _ id w) as [[[ct|]|] w1];
    simpl in *; try done.
  destruct (negb _); simpl; [done|].
  pose proof (request_rows dev_ai_sessions Select
                (λ w, head (rows_of (from_sessions |> where_ (eq_id sessionId)) (sessions w)))
                id w1 (λ _, eq_refl)) as H2.
  destruct (request dev_ai_sessions Select _ id w1) as [meta w2]. simpl in *. congruence.
Qed.

Lemma markExtracted_world sessionId version items dups w :
  extractions (markExtracted sessionId version items dups w).2 = extractions w.
Proof.
  unfold markExtracted, mbind, state_bind, get, update_session. simpl.
  match goal with
  | |- context [request ?t ?v ?a ?e w] =>
      pose proof (request_rows t v a e w (λ _, eq_refl)) as H;
      destruct (request t v a e w) as [[|] w1]
  end; done.
Qed.

Lemma process_rows dryRun session stats w :
  staged_more (λ row, row_session_id row = sess_id session) w
    (process dryRun session stats w).2.
Proof.
  unfold process, mbind, state_bind.
  pose proof (loadTranscript_world (sess_id session) w) as Hload.
  destruct (loadTranscript (sess_id session) w) as [[tr|] w1]; simpl in *;
    [|by apply staged_more_same].
  destruct (negb _); simpl; [by apply staged_more_same|].
  destruct (validateItems _) as [valid invalid].
  case_bool_decide; simpl; [by apply staged_more_same|].
  destruct dryRun; simpl; [by apply staged_more_same|].
  pose proof (insertStaging_rows valid (sess_id session) (sess_project_slug session) w1)
    as Hstage.
  destruct (insertStaging valid _ _ w1) as [staged w2]. simpl in *.
  pose proof (markExtracted_world (sess_id session) "1.0.0" (inserted staged)
                (duplicates staged) w2) as Hmark.
  destruct (markExtracted _ _ _ _ w2) as [ok w3]. simpl in *.
  eapply staged_more_trans; [by apply staged_more_same|].
  eapply staged_more_trans; [exact Hstage|by apply staged_more_same].
Qed.

(** The rows that the loop adds belong to the sessions it is given. *)
Lemma process_all_rows dryRun (selected : list Session) stats w :
  staged_more (λ row, ∃ s, s ∈ selected ∧ row_session_id row = sess_id s) w
    (process_all dryRun selected stats w).2.
Proof.
  revert stats w. induction selected as [|session more IH]; intros stats w.
  - by apply staged_more_same.
  - cbn [process_all]. unfold mbind, state_bind.
    pose proof (process_rows dryRun session stats w) as Hfirst.
    destruct (process dryRun session stats w) as [stats' w1]. simpl in *.
    eapply staged_more_trans.
    + eapply staged_more_impl; [|exact Hfirst].
      intros row Hrow. exists session. split; [left|done].
    + eapply staged_more_impl; [|apply IH].
      intros row (s & Hs & Hrow). exists s. split; [by right|done].
Qed.

(** A run stages rows for the sessions that the selector hands out. *)
Lemma extract_rows (select : Options → State (list Session)) (command : Command)
    (w : World) (P : Session → Prop) :
  (∀ options, extractions (select options w).2 = extractions w) →
  (∀ options s,
     (Js.truthy (default "" (cmd_session command)) = false → by_window options) →
     s ∈ (select options w).1 → P s) →
  staged_more (λ row, ∃ s, P s ∧ row_session_id row = sess_id s) w
    (extract select command w).2.
Proof.
  intros Hworld Hsel. unfold extract, mbind, state_bind, mret, state_ret.
  case_bool_decide; [by apply staged_more_same|].
  match goal with
  | |- context [(if ?c then select ?o1 else select ?o2) w] =>
      assert (∃ options, (if c then select o1 else select o2) w = select options w
                         ∧ (c = false → by_window options)) as (options & -> & Hmode)
  end.
  { destruct (Js.truthy _); eexists; (split; [reflexivity|]); [done|]. intros _. by left. }
  specialize (Hworld options). specialize (Hsel options).
  destruct (select options w) as [selected w1]. simpl in *.
  pose proof (process_all_rows (cmd_dryRun command) selected
                (mkStats (length selected) 0 0 0 0 0 0 0) w1) as Hall.
  destruct (process_all _ _ _ w1) as [stats w2]. simpl in *.
  eapply staged_more_trans; [by apply staged_more_same|].
  eapply staged_more_impl; [|exact Hall].
  intros row (s & Hs & Hrow). exists s. split; [|done]. apply Hsel; [|done]. done.
Qed.

Lemma select_by_id_world (sid : string) (w : World) :
  extractions (select_by_id sid w).2 = extractions w.
Proof.
  unfold select_by_id, single, mbind, state_bind.
  match goal with
  | |- context [request ?t ?v ?a ?e w] =>
      pose proof (request_rows t v a e w (λ _, eq_refl)) as H;
      destruct (request t v a e w) as [reply w1]
  end.
  simpl in *. by destruct reply.
Qed.

Lemma select_world (options : Options) (w : World) :
  extractions (SelectSessions.selectSessions options w).2 = extractions w.
Proof.
  unfold SelectSessions.selectSessions.
  destruct (sessionId options) as [[|c sid]|]; try apply select_by_id_world;
    unfold mbind, state_bind, get, run; cbn [fst snd];
    (destruct (negb _); [done|]);
    match goal with
    | |- context [request ?t ?v ?a ?e w] =>
        pose proof (request_rows t v a e w (λ _, eq_refl)) as H;
        destruct (request t v a e w) as [reply w1]
    end;
    simpl in *; by destruct reply as [[|? ?]|].
Qed.

Lemma with_clean_transcript_world (filtered : list Session) (w : World) :
  extractions (SelectCleaned.with_clean_transcript filtered w).2 = extractions w.
Proof.
  revert w. induction filtered as [|session more IH]; intros w; [done|].
  cbn [SelectCleaned.with_clean_transcript].
  unfold mbind, state_bind, clean_transcript_of.
  match goal with
  | |- context [request ?t ?v ?a ?e w] =>
      pose proof (request_rows t v a e w (λ _, eq_refl)) as H;
      destruct (request t v a e w) as [reply w1]
  end.
  specialize (IH w1).
  destruct (SelectCleaned.with_clean_transcript more w1) as [valid w2].
  simpl in *. destruct reply as [[?|]|]; simpl; congruence.
Qed.

Lemma cleaned_select_world (options : Options) (w : World) :
  extractions (SelectCleaned.selectSessions options w).2 = extractions w.
Proof.
  unfold SelectCleaned.selectSessions.
  destruct (sessionId options) as [[|c sid]|]; try apply select_by_id_world;
    unfold mbind, state_bind, get, run; cbn [fst snd];
    (destruct (negb _); [done|]);
    match goal with
    | |- context [request ?t ?v ?a ?e w] =>
        pose proof (request_rows t v a e w (λ _, eq_refl)) as H;
        destruct (request t v a e w) as [reply w1]
    end;
    simpl in *; destruct reply as [[|s0 more]|]; try done;
    match goal with
    | |- context [SelectCleaned.with_clean_transcript ?l ?w'] =>
        pose proof (with_clean_transcript_world l w') as H1;
        destruct (SelectCleaned.with_clean_transcript l w') as [valid w2]
    end; simpl in *; congruence.
Qed.

(** A run by window leaves the staged rows of an extracted session as they
    are, with either selector. *)
Lemma window_run_skips_extracted (command : Command) (w : World) (s0 : Session) :
  run_by_window command →
  s0 ∈ sessions w →
  sess_status s0 = "extracted" →
  unique_id s0 w →
  let rows_of_s0 := filter (λ row, row_session_id row = sess_id s0) in
  rows_of_s0 (extractions (extract SelectSessions.selectSessions command w).2)
  = rows_of_s0 (extractions w)
  ∧ rows_of_s0 (extractions (extract SelectCleaned.selectSessions command w).2)
    = rows_of_s0 (extractions w).
Proof.
  intros Hwin Hin Hstatus Hunique.
  assert (Js.truthy (default "" (cmd_session command)) = false) as Hmode
    by by destruct Hwin as [-> | ->].
  assert (∀ w', staged_more
                  (λ row, ∃ s, (s ∈ sessions w ∧ sess_status s ≠ "extracted")
                               ∧ row_session_id row = sess_id s) w w' →
                filter (λ row, row_session_id row = sess_id s0) (extractions w')
                = filter (λ row, row_session_id row = sess_id s0) (extractions w)) as Hsame.
  { intros w' (new & -> & Hnew). rewrite filter_app.
    replace (filter _ new) with (@nil Row); [by rewrite app_nil_r|].
    symmetry. induction Hnew as [|row new (s & [Hs Hst] & Hrow) _ IH]; [done|].
    rewrite filter_cons, decide_False; [done|].
    intros Heq. rewrite Hrow in Heq. apply Hunique in Heq; [|done]. congruence. }
  simpl. split; apply Hsame, extract_rows.
  - intros options. apply select_world.
  - intros options s Hw Hs. apply window_selected in Hs; [|auto].
    apply truth_gate_spec in Hs as [Hs _]. apply rows_of_elem in Hs as [? Hs].
    split; [done|]. by eapply window_query_excludes_extracted.
  - intros options. apply cleaned_select_world.
  - intros options s Hw Hs. apply cleaned_window_selected in Hs; [|auto].
    apply truth_gate_spec in Hs as [Hs _]. apply rows_of_elem in Hs as [? Hs].
    split; [done|]. by eapply cleaned_query_excludes_extracted.
Qed.

(** Sessions with pairwise distinct identities have unique identities. *)
Lemma unique_id_of_NoDup (w : World) (s : Session) :
  NoDup (sess_id <$> sessions w) → s ∈ sessions w → unique_id s w.
Proof.
  intros Hnd Hs s' Hs' Heq.
  apply list_elem_of_lookup in Hs as [i Hi]. apply list_elem_of_lookup in Hs' as [j Hj].
  assert (j = i) as ->; [|congruence].
  apply (NoDup_lookup _ _ _ (sess_id s) Hnd); rewrite list_lookup_fmap.
  - by rewrite Hj, <- Heq.
  - by rewrite Hi.
Qed.

End RunFacts.

(** C2, as the code has it.  In window mode neither version of the selector
    returns a session whose status is [extracted], and a run by window
    leaves the staged rows of such a session as they are (the identities of
    the sessions being unique).  Selection by explicit identity looks at the
    identity only: it returns the first session of that identity, whatever
    its status. *)
Theorem extracted_sessions_by_mode (options : Options) (command : Command) (w : World) :
  (by_window options →
   ∀ s, s ∈ (SelectSessions.selectSessions options w).1
        ∨ s ∈ (SelectCleaned.selectSessions options w).1 →
        sess_status s ≠ "extracted")
  ∧ (run_by_window command →
     ∀ s, s ∈ sessions w → unique_id s w → sess_status s = "extracted" →
       let staged_for_s := filter (λ row, row_session_id row = sess_id s) in
       staged_for_s (extractions (extract SelectSessions.selectSessions command w).2)
       = staged_for_s (extractions w)
       ∧ staged_for_s (extractions (extract SelectCleaned.selectSessions command w).2)
         = staged_for_s (extractions w))
  ∧ (∀ sid, sessionId options = Some sid → sid ≠ "" → next_request_succeeds w →
       let found := option_list (head (filter (λ s, sess_id s = sid) (sessions w))) in
       (SelectSessions.selectSessions options w).1 = found
       ∧ (SelectCleaned.selectSessions options w).1 = found).
Proof.
  split; [|split].
  - intros Hw s [Hs|Hs].
    + apply window_selected in Hs; [|done].
      apply truth_gate_spec in Hs as [Hs _]. apply rows_of_elem in Hs as [_ Hs].
      by eapply window_query_excludes_extracted.
    + apply cleaned_window_selected in Hs; [|done].
      apply truth_gate_spec in Hs as [Hs _]. apply rows_of_elem in Hs as [_ Hs].
      by eapply cleaned_query_excludes_extracted.
  - intros Hwin s Hin Hunique Hstatus. by apply window_run_skips_extracted.
  - intros sid Hsid Hne Hw. simpl.
    unfold SelectSessions.selectSessions, SelectCleaned.selectSessions.
    rewrite Hsid. destruct sid as [|c sid]; [done|].
    split; by apply select_by_id_result.
Qed.

Lemma extracted_sessions_by_mode_witness :
  sess_status Example.old_session ≠ "extracted"
  ∧ filter (λ row, row_session_id row = "s-0")
      (extractions (extract SelectSessions.selectSessions default_command Example.store).2)
    = []
  ∧ (SelectSessions.selectSessions Example.identity_options Example.store).1
    = [Example.extracted_session].
Proof.
  split; [|split].
  - apply (proj1 (extracted_sessions_by_mode Example.window_options default_command
                    Example.store) (or_introl eq_refl)).
    left. vm_compute. left.
  - apply (proj1 (proj2 (extracted_sessions_by_mode Example.window_options
                           default_command Example.store))
             (or_introl eq_refl) Example.extracted_session).
    + left.
    + apply unique_id_of_NoDup; [apply (bool_decide_unpack _); by vm_compute|left].
    + reflexivity.
  - apply (proj2 (proj2 (extracted_sessions_by_mode Example.identity_options
                           default_command Example.store))
             "s-0" eq_refl); [done|done].
Defined.

(** C2, as stated, fails for selection by explicit identity, in both of its
    parts.  The selector returns a session whose status is [extracted].  And
    a run can stage more rows for such a session: a first run of
    [extract --session s-1] in which one insert fails stages two of the three
    items and marks the session [extracted]; the same command, run again,
    selects the session and stages the third. *)
Lemma by_identity_extracted_is_processed :
  ¬ (never_selects_extracted SelectSessions.selectSessions
     ∨ runs_skip_extracted SelectSessions.selectSessions).
Proof.
  intros [H|H].
  - apply (H Example.identity_options Example.store Example.extracted_session);
      [vm_compute; left|reflexivity].
  - specialize (H Example.session_command Example.after_first_run
                  Example.old_session_extracted).
    apply (f_equal length) in H; [by vm_compute in H| | |reflexivity].
    + vm_compute. right. left.
    + apply unique_id_of_NoDup; [apply (bool_decide_unpack _); by vm_compute|].
      vm_compute. right. left.
Qed.

(** ** The duration parser: the general form *)
Section DecimalFacts.

Lemma parseInt_go_nonneg (acc : Z) (s : string) : 0 ≤ acc → 0 ≤ Js.parseInt_go acc s.
Proof.
  revert acc. induction s as [|c s IH]; intros acc Hacc; [done|]. cbn [Js.parseInt_go].
  destruct (Js.is_digit c) eqn:Hc; [|done]. apply IH.
  unfold Js.is_digit in Hc. apply andb_true_iff in Hc as [Hlo%N.leb_le _]. lia.
Qed.

(** In front of a digit there is neither white space nor a sign to take. *)
Lemma parseInt_of_digits (c : ascii) (s : string) :
  Js.is_digit c = true → Js.parseInt (String c s) = Js.parseInt_go 0 (String c s).
Proof.
  intros Hc. unfold Js.parseInt. cbn [Js.trimStart].
  assert (Js.is_space c = false) as ->.
  { unfold Js.is_digit in Hc. apply andb_true_iff in Hc as [Hlo%N.leb_le Hhi%N.leb_le].
    unfold Js.is_space. rewrite !orb_false_iff, andb_false_iff, !N.leb_gt, !N.eqb_neq. lia. }
  repeat case_bool_decide; subst; done.
Qed.

(** Reading the decimal text of a number gives the number back. *)
Lemma parseInt_go_of_uint (d : Decimal.uint) (acc : nat) :
  Js.parseInt_go (Z.of_nat acc) (NilEmpty.string_of_uint d) = Z.of_nat (Nat.of_uint_acc d acc).
Proof.
  revert acc. induction d as [|d IH|d IH|d IH|d IH|d IH|d IH|d IH|d IH|d IH|d IH];
    intros acc; cbn [NilEmpty.string_of_uint Js.parseInt_go Nat.of_uint_acc]; [done|..];
    change (Js.is_digit _) with true; cbv iota; rewrite <- IH; f_equal;
    rewrite Nat.tail_mul_spec;
    match goal with |- context [Z.of_N ?x] => let v := eval vm_compute in (Z.of_N x) in
                                              change (Z.of_N x) with v end; lia.
Qed.

Lemma digits_of_uint (d : Decimal.uint) :
  Js.all_chars Js.is_digit (NilEmpty.string_of_uint d) = true.
Proof. induction d; cbn [NilEmpty.string_of_uint Js.all_chars]; done. Qed.

Lemma show_nat_digits (n : nat) :
  ∃ c s, Js.show_nat n = String c s ∧ Js.is_digit c = true
         ∧ Js.all_chars Js.is_digit s = true.
Proof.
  unfold Js.show_nat, NilZero.string_of_uint.
  pose proof (digits_of_uint (Nat.to_uint n)) as Hds.
  destruct (Nat.to_uint n) as [|d|d|d|d|d|d|d|d|d|d]; cbn [NilEmpty.string_of_uint] in *;
    eexists _, _; split_and!; try reflexivity; done.
Qed.

Lemma parseInt_show_nat (n : nat) : Js.parseInt (Js.show_nat n) = Z.of_nat n.
Proof.
  destruct (show_nat_digits n) as (c & s & Hs & Hc & _).
  rewrite Hs, parseInt_of_digits, <- Hs by done.
  unfold Js.show_nat, NilZero.string_of_uint.
  rewrite <- (DecimalNat.Unsigned.of_to n) at 2. unfold Nat.of_uint.
  destruct (Nat.to_uint n) eqn:E; [done|..]; rewrite <- E; apply (parseInt_go_of_uint _ 0).
Qed.

(** Zeros in front of a decimal text change neither its form nor its
    value. *)
Lemma leading_zeros (zeros : nat) (s : string) (c : ascii) (s' : string) :
  s = String c s' → Js.is_digit c = true → Js.all_chars Js.is_digit s' = true →
  Nat.iter zeros (String "0") s ≠ ""
  ∧ Js.all_chars Js.is_digit (Nat.iter zeros (String "0") s) = true
  ∧ Js.parseInt (Nat.iter zeros (String "0") s) = Js.parseInt s.
Proof.
  intros -> Hc Hs. induction zeros as [|k (Hne & Hds & Hv)].
  - unfold Nat.iter. cbn [nat_rect Js.all_chars]. by rewrite Hc, Hs.
  - change (Nat.iter (S k) (String "0") (String c s'))
      with (String "0" (Nat.iter k (String "0") (String c s'))).
    cbn [Js.all_chars]. split_and!; [done|by rewrite Hds|].
    rewrite <- Hv. rewrite parseInt_of_digits by done.
    destruct (Nat.iter k (String "0") (String c s')) as [|x t] eqn:E; [done|].
    cbn [Js.all_chars] in Hds. apply andb_true_iff in Hds as [Hx _].
    by rewrite parseInt_of_digits.
Qed.

Lemma duration_form_go_inv (b : bool) (s : string) :
  duration_form_go b s = true →
  ∃ digits u, s = digits +:+ String u ""
              ∧ Js.all_chars Js.is_digit digits = true ∧ is_unit u = true
              ∧ (b = true ∨ digits ≠ "").
Proof.
  revert b. induction s as [|c s IH]; intros b; [done|]. cbn [duration_form_go].
  destruct s as [|x s].
  - intros [-> Hu]%andb_true_iff. exists "", c. auto.
  - intros [Hc H]%andb_true_iff. apply IH in H as (digits & u & Hs & Hds & Hu & _).
    exists (String c digits), u. rewrite append_cons, <- Hs. cbn [Js.all_chars].
    rewrite Hc, Hds. split_and!; auto.
Qed.

Lemma parseDuration_nonneg (d : Z) (s : string) : 0 ≤ d → 0 ≤ parseDuration_with d s.
Proof.
  intros Hd. destruct (exec no_flags DURATION_RE s) as [m|] eqn:Hm.
  - apply duration_match_form, duration_form_go_inv in Hm
      as (digits & u & -> & Hds & Hu & [?|Hne]); [done|].
    rewrite parseDuration_of_form by done.
    destruct digits as [|c digits]; [done|]. cbn [Js.all_chars] in Hds.
    apply andb_true_iff in Hds as [Hc _]. rewrite parseInt_of_digits by done.
    pose proof (parseInt_go_nonneg 0 (String c digits)).
    assert (0 ≤ default 0 (ms (String u ""))).
    { unfold ms. repeat case_bool_decide; simpl; lia. }
    nia.
  - unfold parseDuration_with. by rewrite Hm.
Qed.

End DecimalFacts.

(** A lookback made of a decimal number and a unit is the number times the
    unit: the decimal text of [n], with whatever zeros in front, followed by
    [m], [h] or [d] is read as [n] times 60000, 3600000 or 86400000
    milliseconds, in both versions of the selector, as long as the product
    is at most 2^53, up to where the numbers of JavaScript are exact.  No
    lookback is negative, so the cutoff of the window is never later than
    the time of the call. *)
Theorem lookback_is_number_times_unit (n zeros : nat) :
  (let digits := Nat.iter zeros (String "0") (Js.show_nat n) in
   (Z.of_nat n * 60000 ≤ 2 ^ 53 →
    SelectSessions.parseDuration (digits +:+ "m") = Z.of_nat n * 60000
    ∧ SelectCleaned.parseDuration (digits +:+ "m") = Z.of_nat n * 60000)
   ∧ (Z.of_nat n * 3600000 ≤ 2 ^ 53 →
      SelectSessions.parseDuration (digits +:+ "h") = Z.of_nat n * 3600000
      ∧ SelectCleaned.parseDuration (digits +:+ "h") = Z.of_nat n * 3600000)
   ∧ (Z.of_nat n * 86400000 ≤ 2 ^ 53 →
      SelectSessions.parseDuration (digits +:+ "d") = Z.of_nat n * 86400000
      ∧ SelectCleaned.parseDuration (digits +:+ "d") = Z.of_nat n * 86400000))
  ∧ (∀ (s : string) (now : Z),
       now - SelectSessions.parseDuration s ≤ now
       ∧ now - SelectCleaned.parseDuration s ≤ now).
Proof.
  split.
  - intros digits.
    destruct (show_nat_digits n) as (c & s & Hs & Hc & Hds).
    destruct (leading_zeros zeros _ c s Hs Hc Hds) as (Hne & Hall & Hv).
    fold digits in Hne, Hall, Hv. rewrite parseInt_show_nat in Hv.
    unfold SelectSessions.parseDuration, SelectCleaned.parseDuration.
    rewrite !parseDuration_of_form by done. rewrite Hv. done.
  - intros s now.
    pose proof (parseDuration_nonneg (30 * 60 * 1000) s).
    pose proof (parseDuration_nonneg (3 * 60 * 60 * 1000) s).
    unfold SelectSessions.parseDuration, SelectCleaned.parseDuration. lia.
Qed.

Lemma lookback_is_number_times_unit_witness :
  SelectSessions.parseDuration "0090m" = 5400000
  ∧ SelectCleaned.parseDuration "0036h" = 129600000.
Proof.
  split.
  - apply (proj1 (proj1 (proj1 (lookback_is_number_times_unit 90 2)) ltac:(by vm_compute))).
  - apply (proj2 (proj1 (proj2 (proj1 (lookback_is_number_times_unit 36 2)))
                    ltac:(by vm_compute))).
Defined.

(** ** The session selector: bounds, failures and the window *)
Section SelectionFacts.

Lemma select_by_id_cases (sid : string) (w : World) :
  (select_by_id sid w).1 = []
  ∨ (select_by_id sid w).1
    = option_list (head (filter (λ s, sess_id s = sid) (sessions w))).
Proof.
  unfold select_by_id, single, request, mbind, state_bind.
  destruct (faults w) as [|[] ?]; simpl; auto; right;
    (erewrite list_filter_iff; [reflexivity|]);
    intros s; unfold satisfies; simpl;
    rewrite andb_true_r, bool_decide_eq_true; done.
Qed.

Lemma select_by_id_found (sid : string) (w : World) (s : Session) :
  s ∈ (select_by_id sid w).1 →
  (select_by_id sid w).1 = [s] ∧ s ∈ sessions w ∧ sess_id s = sid.
Proof.
  destruct (select_by_id_cases sid w) as [-> | ->]; [by intros ?%elem_of_nil|].
  destruct (head _) as [s'|] eqn:E; simpl; [|by intros ?%elem_of_nil].
  intros ->%list_elem_of_singleton. split; [done|].
  apply head_Some_elem_of, list_elem_of_filter in E. tauto.
Qed.

Lemma cleaned_window_length (options : Options) (w : World) :
  by_window options →
  (length (SelectCleaned.selectSessions options w).1 ≤ limit options)%nat.
Proof.
  intros Hw. unfold SelectCleaned.selectSessions.
  assert (match sessionId options with Some (String _ _) => False | _ => True end) as Hid.
  { by destruct Hw as [-> | ->]. }
  destruct (sessionId options) as [[|? ?]|]; try done;
    unfold mbind, state_bind, get, run, request, mret, state_ret; simpl;
    (destruct (valid_time _); simpl; [|lia]);
    (destruct (faults w) as [|[] ?]; simpl; [|lia|]);
    (destruct (rows_of _ _) eqn:E; simpl; [lia|]);
    match goal with
    | |- context [SelectCleaned.with_clean_transcript ?l ?w'] =>
        destruct (SelectCleaned.with_clean_transcript l w') as [v w'']
    end; simpl; rewrite length_take; lia.
Qed.

Lemma with_clean_transcript_checked (filtered : list Session) (w0 w : World) (s : Session) :
  clean_transcripts w = clean_transcripts w0 →
  s ∈ (SelectCleaned.with_clean_transcript filtered w).1 →
  has_clean_transcript w0 s.
Proof.
  revert w. induction filtered as [|session more IH]; intros w Hct; simpl;
    [by intros ?%elem_of_nil|].
  unfold mbind, state_bind, clean_transcript_of, request. simpl.
  destruct (faults w) as [|[] ?]; simpl;
    match goal with
    | |- context [SelectCleaned.with_clean_transcript more ?w'] =>
        specialize (IH w' Hct); destruct (SelectCleaned.with_clean_transcript more w') as [v w'']
    end; simpl in *; try done;
    (destruct (head _) eqn:E; simpl; [|done]);
    (intros [->|Hs]%elem_of_cons; [|by apply IH]);
    unfold has_clean_transcript; rewrite <- Hct, E; by eexists.
Qed.

Lemma cleaned_window_checked (options : Options) (w : World) (s : Session) :
  by_window options →
  s ∈ (SelectCleaned.selectSessions options w).1 →
  has_clean_transcript w s.
Proof.
  intros Hw. unfold SelectCleaned.selectSessions.
  assert (match sessionId options with Some (String _ _) => False | _ => True end) as Hid.
  { by destruct Hw as [-> | ->]. }
  destruct (sessionId options) as [[|? ?]|]; try done;
    unfold mbind, state_bind, get, run, request, mret, state_ret; simpl;
    (destruct (valid_time _); simpl; [|by intros ?%elem_of_nil]);
    (destruct (faults w) as [|[] ?]; simpl; [|by intros ?%elem_of_nil|]);
    (destruct (rows_of _ _) eqn:E; simpl; [by intros ?%elem_of_nil|]);
    match goal with
    | |- context [SelectCleaned.with_clean_transcript ?l ?w'] =>
        pose proof (with_clean_transcript_checked l w w' s eq_refl) as Hc;
        destruct (SelectCleaned.with_clean_transcript l w') as [v w'']
    end; simpl in *; intros Hs%subseteq_take; by apply Hc.
Qed.

End SelectionFacts.

(** Neither version of the selector invents a session or exceeds its
    bounds: what it returns is in the session table; in window mode there
    are at most [limit] sessions; by explicit identity there is at most one,
    and it bears the identity that was asked for. *)
Theorem selection_is_bounded (options : Options) (w : World) :
  let picked := (SelectSessions.selectSessions options w).1 in
  let picked' := (SelectCleaned.selectSessions options w).1 in
  (∀ s, s ∈ picked ∨ s ∈ picked' → s ∈ sessions w)
  ∧ (by_window options →
     (length picked ≤ limit options)%nat ∧ (length picked' ≤ limit options)%nat)
  ∧ (∀ sid, sessionId options = Some sid → sid ≠ "" →
       (length picked ≤ 1)%nat ∧ (length picked' ≤ 1)%nat
       ∧ ∀ s, s ∈ picked ∨ s ∈ picked' → sess_id s = sid).
Proof.
  simpl. split; [|split].
  - intros s Hs.
    destruct (sessionId options) as [[|c sid]|] eqn:Hid.
    + destruct Hs as [Hs|Hs];
        [apply window_selected in Hs|apply cleaned_window_selected in Hs];
        try (by right); apply truth_gate_spec in Hs as [Hs _];
        by apply rows_of_elem in Hs as [Hs _].
    + unfold SelectSessions.selectSessions, SelectCleaned.selectSessions in Hs.
      rewrite Hid in Hs. destruct Hs as [Hs|Hs]; by apply select_by_id_found in Hs as (_ & ? & _).
    + destruct Hs as [Hs|Hs];
        [apply window_selected in Hs|apply cleaned_window_selected in Hs];
        try (by left); apply truth_gate_spec in Hs as [Hs _];
        by apply rows_of_elem in Hs as [Hs _].
  - intros Hw. split; [|by apply cleaned_window_length].
    destruct (window_result options w Hw) as [[-> | ->] _]; simpl; [lia|].
    rewrite length_take. lia.
  - intros sid Hid Hne.
    unfold SelectSessions.selectSessions, SelectCleaned.selectSessions. rewrite Hid.
    destruct sid as [|c sid]; [done|].
    assert (∀ s, s ∈ (select_by_id (String c sid) w).1 → sess_id s = String c sid) as Hsid.
    { intros s Hs. by apply select_by_id_found in Hs as (_ & _ & ?). }
    assert (length (select_by_id (String c sid) w).1 ≤ 1)%nat as Hlen.
    { destruct (select_by_id_cases (String c sid) w) as [-> | ->]; simpl; [lia|].
      destruct (head _); simpl; lia. }
    repeat split; try done. intros s [Hs|Hs]; by apply Hsid.
Qed.

Lemma selection_is_bounded_witness :
  (length (SelectSessions.selectSessions Example.window_options Example.store).1 ≤ 1)%nat
  ∧ (∀ s, s ∈ (SelectSessions.selectSessions Example.identity_options Example.store).1
          ∨ s ∈ (SelectCleaned.selectSessions Example.identity_options Example.store).1 →
          sess_id s = "s-0").
Proof.
  split.
  - apply (proj1 (proj2 (selection_is_bounded Example.window_options Example.store))).
    by left.
  - apply (proj2 (proj2 (selection_is_bounded Example.identity_options Example.store))
             "s-0" eq_refl). done.
Defined.

(** When its first request to the store fails, the selector returns no
    session, in either mode and either version.  In window mode the same
    holds when the lookback is so long that the cutoff is no valid date, and
    then no request is sent at all. *)
Theorem selection_fails_empty (options : Options) (w : World) :
  (head (faults w) = Some true →
   (SelectSessions.selectSessions options w).1 = []
   ∧ (SelectCleaned.selectSessions options w).1 = [])
  ∧ (by_window options →
     (valid_time (clock w - SelectSessions.parseDuration (since options)) = false →
      SelectSessions.selectSessions options w = ([], w))
     ∧ (valid_time (clock w - SelectCleaned.parseDuration (since options)) = false →
        SelectCleaned.selectSessions options w = ([], w))).
Proof.
  split.
  - intros Hf. destruct (faults w) as [|[] fs] eqn:Hfs; try done.
    unfold SelectSessions.selectSessions, SelectCleaned.selectSessions, select_by_id,
      single, run, request, mbind, state_bind, get, mret, state_ret.
    destruct (sessionId options) as [[|c sid]|]; simpl;
      rewrite ?Hfs; try done;
      destruct (valid_time _), (valid_time _); simpl; rewrite ?Hfs; done.
  - intros Hw.
    assert (match sessionId options with Some (String _ _) => False | _ => True end) as Hid.
    { by destruct Hw as [-> | ->]. }
    unfold SelectSessions.selectSessions, SelectCleaned.selectSessions,
      mbind, state_bind, get, mret, state_ret.
    split; intros Ht; destruct (sessionId options) as [[|? ?]|]; try done;
      simpl; by rewrite Ht.
Qed.

Lemma selection_fails_empty_witness :
  (SelectSessions.selectSessions Example.window_options Sample.failing_store).1 = []
  ∧ SelectSessions.selectSessions Sample.endless_options Example.store = ([], Example.store).
Proof.
  split.
  - apply (proj1 (selection_fails_empty Example.window_options Sample.failing_store)).
    reflexivity.
  - apply (proj2 (selection_fails_empty Sample.endless_options Example.store)).
    + by left.
    + reflexivity.
Defined.

(** What window mode guarantees of every session it returns.  The selector
    of src/selectSessions.js: it was created at or after the cutoff, its
    status is not [extracted], and it has the status that was asked for, if
    one was.  The selector of src/unnamed/part_001: it was created at or
    after the cutoff, its status is [cleaned], and a clean transcript is on
    record for it. *)
Theorem window_selection_is_in_window (options : Options) (w : World) (s : Session) :
  by_window options →
  (s ∈ (SelectSessions.selectSessions options w).1 →
   clock w - SelectSessions.parseDuration (since options) ≤ sess_created_at s
   ∧ sess_status s ≠ "extracted"
   ∧ ∀ st, status options = Some st → st ≠ "" → sess_status s = st)
  ∧ (s ∈ (SelectCleaned.selectSessions options w).1 →
     clock w - SelectCleaned.parseDuration (since options) ≤ sess_created_at s
     ∧ sess_status s = "cleaned"
     ∧ has_clean_transcript w s).
Proof.
  intros Hw. split; intros Hs.
  - apply window_selected in Hs; [|done].
    apply truth_gate_spec in Hs as [Hs _]. apply rows_of_elem in Hs as [_ Hs].
    unfold satisfies in Hs. destruct (status options) as [[|c st]|]; simpl in Hs;
      rewrite !andb_true_iff, negb_true_iff, bool_decide_eq_false, ?bool_decide_eq_true in Hs;
      repeat split; try tauto; intros st' [= <-]; try done; tauto.
  - split; [|split].
    + apply cleaned_window_selected in Hs; [|done].
      apply truth_gate_spec in Hs as [Hs _]. apply rows_of_elem in Hs as [_ Hs].
      unfold satisfies in Hs. simpl in Hs.
      rewrite !andb_true_iff, !bool_decide_eq_true in Hs. tauto.
    + apply cleaned_window_selected in Hs; [|done].
      apply truth_gate_spec in Hs as [Hs _]. apply rows_of_elem in Hs as [_ Hs].
      unfold satisfies in Hs. simpl in Hs.
      rewrite !andb_true_iff, !bool_decide_eq_true in Hs. tauto.
    + by eapply cleaned_window_checked.
Qed.

Lemma window_selection_is_in_window_witness :
  3000 - 1800000 ≤ sess_created_at Example.old_session
  ∧ has_clean_transcript Example.store Example.recent_session.
Proof.
  split.
  - apply (proj1 (window_selection_is_in_window
                    Example.window_options Example.store Example.old_session
                    (or_introl eq_refl))).
    vm_compute. left.
  - apply (proj2 (window_selection_is_in_window
                    Example.window_options Example.store Example.recent_session
                    (or_introl eq_refl))).
    vm_compute. left.
Defined.

(** ** The project resolver: the cache and the outcome *)
Section CacheFacts.

Lemma find_none_iff {A : Type} (f : A → bool) (l : list A) :
  List.find f l = None ↔ ∀ x, x ∈ l → f x = false.
Proof.
  induction l as [|x l IH]; simpl.
  - split; [by intros _ x ?%elem_of_nil|done].
  - destruct (f x) eqn:E.
    + split; [done|]. intros H. rewrite H in E; [done|left].
    + rewrite IH. split.
      * intros H y [->|Hy]%elem_of_cons; auto.
      * intros H y Hy. apply H. by right.
Qed.

Lemma find_some_elem {A : Type} (f : A → bool) (l : list A) (x : A) :
  List.find f l = Some x → x ∈ l ∧ f x = true.
Proof. intros [H1 H2]%find_some. split; [by apply list_elem_of_In|done]. Qed.

Lemma slug_includes_spec (slug : string) (p : Project) :
  slug ≠ "" →
  slug_includes slug p = true ↔ ∃ ps, proj_slug p = Some ps ∧ substring_of slug ps.
Proof.
  intros Hne. unfold slug_includes. destruct (proj_slug p) as [ps|].
  - rewrite andb_true_iff, includes_spec. split.
    + intros [_ H]. eauto.
    + intros (ps' & [= <-] & H). split; [|done].
      destruct ps; [|done]. destruct H as (pre & post & H).
      destruct pre, slug; done.
  - split; [done|]. by intros (ps & [=] & _).
Qed.

Lemma slug_is_includes (slug : string) (p : Project) :
  slug ≠ "" → slug_is slug p = true → slug_includes slug p = true.
Proof.
  intros Hne H. apply slug_includes_spec; [done|].
  unfold slug_is in H. apply bool_decide_eq_true in H.
  exists slug. split; [done|]. exists "", "". by rewrite append_empty_r.
Qed.

Lemma slug_starts_with_includes (slug : string) (p : Project) :
  slug ≠ "" → slug_starts_with slug p = true → slug_includes slug p = true.
Proof.
  intros Hne H. apply slug_includes_spec; [done|].
  unfold slug_starts_with in H. destruct (proj_slug p) as [ps|]; [|done].
  apply andb_true_iff in H as [_ H]. apply startsWith_spec in H as [post H].
  exists ps. split; [done|]. exists "", ("-" +:+ post).
  by rewrite H, append_assoc.
Qed.

Lemma match_project_none (slug : string) (projects : list Project) :
  slug ≠ "" →
  match_project slug projects = None ↔ ¬ some_slug_contains slug projects.
Proof.
  intros Hne. unfold match_project, some_slug_contains. split.
  - intros H (p & ps & Hin & Hps & Hsub).
    destruct (List.find (slug_is slug) projects); [done|].
    destruct (List.find (slug_starts_with slug) projects); [done|].
    rewrite find_none_iff in H. specialize (H p Hin).
    apply not_true_iff_false in H. apply H, slug_includes_spec; eauto.
  - intros H.
    assert (∀ p, p ∈ projects → slug_includes slug p = false) as Hno.
    { intros p Hin. apply not_true_iff_false. intros Hp.
      apply slug_includes_spec in Hp as (ps & Hps & Hsub); [|done]. apply H. eauto. }
    destruct (List.find (slug_is slug) projects) as [p|] eqn:E1.
    { apply find_some_elem in E1 as [Hin Hp].
      apply slug_is_includes in Hp; [|done]. by rewrite Hno in Hp. }
    destruct (List.find (slug_starts_with slug) projects) as [p|] eqn:E2.
    { apply find_some_elem in E2 as [Hin Hp].
      apply slug_starts_with_includes in Hp; [|done]. by rewrite Hno in Hp. }
    by apply find_none_iff.
Qed.

Lemma match_project_some (slug : string) (projects : list Project) (p : Project) :
  slug ≠ "" →
  match_project slug projects = Some p →
  p ∈ projects ∧ ∃ ps, proj_slug p = Some ps ∧ substring_of slug ps.
Proof.
  intros Hne. unfold match_project.
  destruct (List.find (slug_is slug) projects) as [p1|] eqn:E1.
  { intros [= <-]. apply find_some_elem in E1 as [Hin Hp]. split; [done|].
    apply slug_includes_spec; [done|]. by apply slug_is_includes. }
  destruct (List.find (slug_starts_with slug) projects) as [p2|] eqn:E2.
  { intros [= <-]. apply find_some_elem in E2 as [Hin Hp]. split; [done|].
    apply slug_includes_spec; [done|]. by apply slug_starts_with_includes. }
  intros [Hin Hp]%find_some_elem. split; [done|]. by apply slug_includes_spec.
Qed.

Lemma resolve_matched (s : string) (w : World) :
  s ∉ [""; "null"; "terminal"; "unassigned"] →
  (resolveProjectId (Some s) w).1 = proj_id <$> match_project s (loadProjects w).1.
Proof.
  intros Hs. unfold resolveProjectId.
  assert (unresolvable (Some s) = false) as ->.
  { apply not_true_iff_false. rewrite unresolvable_spec.
    rewrite !elem_of_cons, elem_of_nil in *.
    intros [?|[[= ->]|[[= ->]|[[= ->]|[[= ->]|[]]]]]]; try done; apply Hs; auto 10. }
  unfold mbind, state_bind, mret, state_ret.
  by destruct (loadProjects w) as [ps w'].
Qed.

Lemma loadProjects_cold (w : World) :
  cache_is_cold w →
  next_request_succeeds w →
  loadProjects w
  = (projects w, set_cache (projects w) (clock w) (note_request dev_projects Select w)).
Proof.
  unfold cache_is_cold, next_request_succeeds, loadProjects, all_projects, request,
    get, modify, mbind, state_bind, mret, state_ret.
  intros Hcold Hok. simpl.
  destruct (projectCache w) as [cached|].
  - destruct Hcold as [?|Hcold]; [done|]. rewrite bool_decide_false by lia.
    by destruct (faults w) as [|[] ?].
  - by destruct (faults w) as [|[] ?].
Qed.

End CacheFacts.

(** The resolver loads the project table once and answers from its cache
    for the next five minutes.  A load with nothing fresh in the cache that
    succeeds returns the table; any load less than [CACHE_TTL] later returns
    that same list without a request, whatever the table has become, so a
    resolution in that time does not see a project added since.  A load that
    fails returns no project, not even the expired ones, and leaves the
    cache as it was. *)
Theorem project_cache_lifetime (w : World) :
  cache_is_cold w →
  (next_request_succeeds w →
   ∀ (elapsed : Z) (table : list Project),
     elapsed < CACHE_TTL →
     let w' := later elapsed table (loadProjects w).2 in
     (loadProjects w).1 = projects w
     ∧ loadProjects w' = (projects w, w')
     ∧ ∀ s, s ∉ [""; "null"; "terminal"; "unassigned"] →
         resolveProjectId (Some s) w' = (proj_id <$> match_project s (projects w), w'))
  ∧ (head (faults w) = Some true →
     (loadProjects w).1 = []
     ∧ projectCache (loadProjects w).2 = projectCache w
     ∧ cacheTime (loadProjects w).2 = cacheTime w).
Proof.
  intros Hcold. split.
  - intros Hok elapsed table Hlt. rewrite (loadProjects_cold w Hcold Hok). simpl.
    assert (loadProjects
              (later elapsed table
                 (set_cache (projects w) (clock w) (note_request dev_projects Select w)))
            = (projects w,
               later elapsed table
                 (set_cache (projects w) (clock w) (note_request dev_projects Select w))))
      as Hhit.
    { unfold loadProjects, get, mbind, state_bind, mret, state_ret. simpl.
      rewrite bool_decide_true by lia. done. }
    split; [done|]. split; [done|].
    intros s Hs. unfold resolveProjectId.
    assert (unresolvable (Some s) = false) as ->.
    { apply not_true_iff_false. rewrite unresolvable_spec.
      rewrite !elem_of_cons, elem_of_nil in *.
      intros [?|[[= ->]|[[= ->]|[[= ->]|[[= ->]|[]]]]]]; try done; apply Hs; auto 10. }
    unfold mbind, state_bind. rewrite Hhit. done.
  - intros Hf. destruct (faults w) as [|[] fs] eqn:Hfs; try done.
    unfold cache_is_cold in Hcold.
    unfold loadProjects, all_projects, request, get, modify, mbind, state_bind,
      mret, state_ret. simpl.
    destruct (projectCache w) as [cached|] eqn:Hc; [|by rewrite Hfs].
    destruct Hcold as [?|Hcold]; [done|]. rewrite bool_decide_false by lia.
    by rewrite Hfs.
Qed.

Lemma project_cache_lifetime_witness :
  loadProjects (later 299999 [] (loadProjects Example.store).2)
  = ([Example.jason], later 299999 [] (loadProjects Example.store).2)
  ∧ (loadProjects Sample.failing_store).1 = [].
Proof.
  split.
  - apply (proj1 (project_cache_lifetime Example.store (or_introl eq_refl))); [done|].
    reflexivity.
  - apply (proj2 (project_cache_lifetime Sample.failing_store (or_introl eq_refl))).
    reflexivity.
Defined.

(** A slug that the guard lets through is resolved exactly when some loaded
    project has a slug that contains it; and whatever is resolved is the
    identity of such a project. *)
Theorem resolution_finds_a_containing_slug (s : string) (w : World) :
  s ∉ [""; "null"; "terminal"; "unassigned"] →
  ((resolveProjectId (Some s) w).1 = None
   ↔ ¬ some_slug_contains s (loadProjects w).1)
  ∧ (∀ id, (resolveProjectId (Some s) w).1 = Some id →
       ∃ p ps, p ∈ (loadProjects w).1 ∧ proj_id p = id
               ∧ proj_slug p = Some ps ∧ substring_of s ps).
Proof.
  intros Hs. assert (s ≠ "") as Hne by (intros ->; apply Hs; left).
  rewrite resolve_matched by done. split.
  - rewrite <- match_project_none by done.
    by destruct (match_project s (loadProjects w).1).
  - intros id H. destruct (match_project s (loadProjects w).1) as [p|] eqn:E; [|done].
    injection H as <-. apply match_project_some in E as (Hin & ps & Hps & Hsub); [|done].
    eauto 10.
Qed.

Lemma resolution_finds_a_containing_slug_witness :
  ∃ p ps, p ∈ (loadProjects Example.store).1 ∧ proj_id p = "p-jason"
          ∧ proj_slug p = Some ps ∧ substring_of "jason" ps.
Proof.
  apply (proj2 (resolution_finds_a_containing_slug "jason" Example.store
                  ltac:(rewrite !elem_of_cons, elem_of_nil; intros [?|[?|[?|[?|[]]]]]; done))).
  reflexivity.
Defined.

(** ** The stager: accounting, attribution and fingerprints *)
Section StagingFacts.

Lemma store_answers_next (w : World) : store_answers w → next_request_succeeds w.
Proof.
  unfold store_answers, next_request_succeeds. intros H.
  destruct (faults w) as [|f fs]; [done|]. apply Forall_cons in H as [-> _]. done.
Qed.

Lemma store_answers_note t v (w : World) : store_answers w → store_answers (note_request t v w).
Proof.
  unfold store_answers. simpl. intros H.
  destruct (faults w) as [|f fs]; [done|]. by apply Forall_cons in H as [_ H].
Qed.

(** One turn of the loop of the stager, in full: the item is counted as a
    duplicate, as rejected, or as inserted, and in the last case only a row
    is added, the one of the item. *)
Lemma stage_turn item more sessionId projectSlug projectId counts (w : World) :
  let looked := note_request dev_ai_smart_extractions Select w in
  let asked := note_request dev_ai_smart_extractions Insert looked in
  let row := row_of item sessionId projectSlug projectId (generateHash item) (clock w) in
  (stage (item :: more) sessionId projectSlug projectId counts w
   = stage more sessionId projectSlug projectId
       (mkStaged (inserted counts) (S (duplicates counts)) (rejected counts) None) looked
   ∧ (next_request_succeeds w → staged_with (generateHash item) w))
  ∨ (stage (item :: more) sessionId projectSlug projectId counts w
     = stage more sessionId projectSlug projectId
         (mkStaged (inserted counts) (duplicates counts) (S (rejected counts)) None) asked
     ∧ ¬ next_request_succeeds looked)
  ∨ (stage (item :: more) sessionId projectSlug projectId counts w
     = stage more sessionId projectSlug projectId
         (mkStaged (S (inserted counts)) (duplicates counts) (rejected counts) None)
         (add_extraction row asked)
     ∧ (next_request_succeeds w → ¬ staged_with (generateHash item) w)).
Proof.
  intros looked asked row. cbn [stage]. unfold mbind, state_bind.
  destruct (isDuplicate (generateHash item) w) as [dup w1] eqn:Edup.
  assert (w1 = looked) as ->.
  { destruct (isDuplicate_world (generateHash item) w) as [dup' H].
    rewrite H in Edup. by injection Edup. }
  assert (next_request_succeeds w → dup = bool_decide (staged_with (generateHash item) w))
    as Hanswer.
  { intros Hok. rewrite isDuplicate_answer in Edup by done. by injection Edup. }
  destruct dup.
  - left. split; [done|]. intros Hok. specialize (Hanswer Hok).
    symmetry in Hanswer. by apply bool_decide_eq_true in Hanswer.
  - right. unfold get, insert_extraction, request. cbn [fst snd].
    destruct (faults looked) as [|[] fs] eqn:Hf.
    + right. split; [done|]. intros Hok. specialize (Hanswer Hok).
      symmetry in Hanswer. by apply bool_decide_eq_false in Hanswer.
    + left. split; [done|]. unfold next_request_succeeds. rewrite Hf. by intros H.
    + right. split; [done|]. intros Hok. specialize (Hanswer Hok).
      symmetry in Hanswer. by apply bool_decide_eq_false in Hanswer.
Qed.

Lemma staging_only_refl (w : World) : staging_only w w.
Proof. by repeat split. Qed.

Lemma staging_only_trans (w1 w2 w3 : World) :
  staging_only w1 w2 → staging_only w2 w3 → staging_only w1 w3.
Proof.
  intros (?&?&?&?&?&?) (?&?&?&?&?&?). repeat split; congruence.
Qed.

Lemma staged_with_more (hash : string) (w w' : World) (new : list Row) :
  extractions w' = extractions w ++ new → staged_with hash w → staged_with hash w'.
Proof. unfold staged_with. intros -> H. apply Exists_app. by left. Qed.

(** What the loop of the stager does to the counters and to the world. *)
Lemma stage_outcome items sessionId projectSlug projectId counts (w : World) :
  let out := stage items sessionId projectSlug projectId counts w in
  ∃ new,
    extractions out.2 = extractions w ++ new
    ∧ staging_only w out.2
    ∧ inserted out.1 = (inserted counts + length new)%nat
    ∧ (inserted out.1 + duplicates out.1 + rejected out.1
       = inserted counts + duplicates counts + rejected counts + length items)%nat
    ∧ Forall (λ row, ∃ item, item ∈ items
                             ∧ row = row_of item sessionId projectSlug projectId
                                       (generateHash item) (clock w)) new
    ∧ (store_answers w →
       store_answers out.2
       ∧ rejected out.1 = rejected counts
       ∧ Forall (λ item, staged_with (generateHash item) out.2) items
       ∧ (distinct_hashes w → distinct_hashes out.2)).
Proof.
  revert counts w. induction items as [|item more IH]; intros counts w.
  - exists []. simpl. rewrite app_nil_r.
    repeat split; try done; try lia.
  - cbn zeta.
    destruct (stage_turn item more sessionId projectSlug projectId counts w)
      as [[-> Hdup] | [[-> Hfail] | [-> Hnew]]];
      match goal with
      | |- context [stage more _ _ _ ?c ?w1] =>
          destruct (IH c w1) as (new & Hrows & Honly & Hins & Hsum & Hfor & Hok); clear IH
      end; cbn [inserted duplicates rejected] in *.
    + exists new. split; [done|]. split; [by destruct Honly as (?&?&?&?&?&?)|].
      split; [done|]. split; [simpl; lia|]. split.
      { eapply Forall_impl; [exact Hfor|]. intros row (i & Hi & ->).
        exists i. split; [by right|done]. }
      intros Hw. destruct Hok as (Hans & Hrej & Hall & Hnd);
        [by apply store_answers_note|].
      split; [done|]. split; [done|]. split; [|done].
      apply Forall_cons. split; [|done].
      eapply staged_with_more; [exact Hrows|]. apply Hdup. by apply store_answers_next.
    + exists new. split; [done|]. split; [by destruct Honly as (?&?&?&?&?&?)|].
      split; [done|]. split; [simpl; lia|]. split.
      { eapply Forall_impl; [exact Hfor|]. intros row (i & Hi & ->).
        exists i. split; [by right|done]. }
      intros Hw. exfalso. apply Hfail. by apply store_answers_next, store_answers_note.
    + exists (row_of item sessionId projectSlug projectId (generateHash item) (clock w) :: new).
      split; [rewrite Hrows; simpl; by rewrite <- (assoc_L (++))|].
      split; [by destruct Honly as (?&?&?&?&?&?)|].
      split; [simpl; lia|]. split; [simpl; lia|]. split.
      { apply Forall_cons. split; [exists item; split; [left|done]|].
        eapply Forall_impl; [exact Hfor|]. intros row (i & Hi & ->).
        exists i. split; [by right|done]. }
      intros Hw. destruct Hok as (Hans & Hrej & Hall & Hnd);
        [by do 2 apply store_answers_note|].
      split; [done|]. split; [done|]. split.
      * apply Forall_cons. split; [|done].
        eapply staged_with_more; [exact Hrows|].
        unfold staged_with. simpl. apply Exists_app. right. by left.
      * intros Hdist. apply Hnd. unfold distinct_hashes in *. simpl.
        rewrite fmap_app. simpl. apply NoDup_app. split; [done|]. split.
        -- intros h Hh [->|?%elem_of_nil]%elem_of_cons; [|done].
           apply Hnew; [by apply store_answers_next|].
           unfold staged_with. apply Exists_exists.
           apply list_elem_of_fmap in Hh as (row & Hrow & Hin). eauto.
        -- apply NoDup_singleton.
Qed.


(** The three ways in which the project list is obtained. *)
Lemma loadProjects_cases (w : World) :
  (∃ cached, projectCache w = Some cached ∧ clock w - cacheTime w < CACHE_TTL
             ∧ loadProjects w = (cached, w))
  ∨ (¬ next_request_succeeds w
     ∧ loadProjects w = ([], note_request dev_projects Select w))
  ∨ (next_request_succeeds w
     ∧ loadProjects w
       = (projects w, set_cache (projects w) (clock w) (note_request dev_projects Select w))).
Proof.
  unfold next_request_succeeds, loadProjects, all_projects, request, get, modify,
    mbind, state_bind, mret, state_ret. simpl.
  destruct (projectCache w) as [cached|] eqn:Hc.
  - case_bool_decide; [left; eauto|].
    right. destruct (faults w) as [|[] ?]; simpl; [right|left|right]; split; try done.
    intros Hn. by apply Hn.
  - right. destruct (faults w) as [|[] ?]; simpl; [right|left|right]; split; try done.
    intros Hn. by apply Hn.
Qed.

(** What a resolution leaves alone, and that it comes out the same when it
    is asked again in a world with the same cache and the same clock. *)
Lemma resolve_effect (slug : option string) (w : World) :
  let w1 := (resolveProjectId slug w).2 in
  extractions w1 = extractions w
  ∧ sessions w1 = sessions w
  ∧ clean_transcripts w1 = clean_transcripts w
  ∧ projects w1 = projects w
  ∧ clock w1 = clock w
  ∧ (store_answers w → store_answers w1)
  ∧ (store_answers w →
     ∀ w2, projectCache w2 = projectCache w1 → cacheTime w2 = cacheTime w1 →
           clock w2 = clock w1 →
           (resolveProjectId slug w2).1 = (resolveProjectId slug w).1).
Proof.
  unfold resolveProjectId. destruct (unresolvable slug); [by repeat split|].
  unfold mbind, state_bind, mret, state_ret.
  destruct (loadProjects_cases w) as
    [(cached & Hc & Hfresh & ->) | [[Hfail ->] | [Hok ->]]]; cbn [fst snd].
  - repeat split; try done. intros Hw w2 Hc2 Ht2 Hclock.
    unfold loadProjects, get, mbind, state_bind, mret, state_ret. cbn [fst snd].
    rewrite Hc2, Hc, Ht2, Hclock. by rewrite bool_decide_true by done.
  - repeat split; try done; try (intros Hw; by apply store_answers_note).
    intros Hw. exfalso. by apply Hfail, store_answers_next.
  - repeat split; try done.
    + intros Hw. by apply (store_answers_note dev_projects Select) in Hw.
    + intros Hw w2 Hc2 Ht2 Hclock. simpl in Hc2, Ht2, Hclock.
      unfold loadProjects, get, mbind, state_bind, mret, state_ret. cbn [fst snd].
      rewrite Hc2, Ht2, Hclock. rewrite bool_decide_true; [done|].
      unfold CACHE_TTL. lia.
Qed.

(** The two paths of [insertStaging]. *)
Lemma insertStaging_paths items sessionId projectSlug (w : World) :
  let resolved :=
    (if Js.truthy (default "" projectSlug) then resolveProjectId projectSlug
     else mret None) w in
  (insertStaging items sessionId projectSlug w
   = (mkStaged 0 0 (length items) (Some "project_id unresolved"), resolved.2)
   ∧ (resolved.1 = None ∨ resolved.1 = Some ""))
  ∨ (∃ projectId,
       projectId ≠ "" ∧ resolved.1 = Some projectId
       ∧ (resolveProjectId projectSlug w).1 = Some projectId
       ∧ insertStaging items sessionId projectSlug w
         = stage items sessionId projectSlug projectId (mkStaged 0 0 0 None) resolved.2).
Proof.
  cbn zeta. unfold insertStaging, mbind, state_bind.
  destruct (Js.truthy (default "" projectSlug)) eqn:Ht.
  - destruct (resolveProjectId projectSlug w) as [[[|c pid]|] w1] eqn:E; cbn [fst snd];
      [left; auto|right|left; auto].
    exists (String c pid). by repeat split.
  - left. cbn. auto.
Qed.

Lemma resolved_effect (projectSlug : option string) (w : World) :
  let resolved :=
    (if Js.truthy (default "" projectSlug) then resolveProjectId projectSlug
     else mret None) w in
  extractions resolved.2 = extractions w
  ∧ clock resolved.2 = clock w
  ∧ (store_answers w → store_answers resolved.2).
Proof.
  cbn zeta. destruct (Js.truthy _); [|by repeat split].
  pose proof (resolve_effect projectSlug w) as (?&?&?&?&?&?&?). by repeat split.
Qed.

Lemma match_project_elem (slug : string) (projects : list Project) (p : Project) :
  match_project slug projects = Some p → p ∈ projects.
Proof.
  unfold match_project.
  destruct (List.find (slug_is slug) projects) as [p1|] eqn:E1;
    [intros [= <-]; by apply find_some_elem in E1 as [? _]|].
  destruct (List.find (slug_starts_with slug) projects) as [p2|] eqn:E2;
    [intros [= <-]; by apply find_some_elem in E2 as [? _]|].
  by intros [? _]%find_some_elem.
Qed.

Lemma resolved_project (slug : option string) (w : World) (projectId : string) :
  (resolveProjectId slug w).1 = Some projectId →
  ∃ project, project ∈ (loadProjects w).1 ∧ proj_id project = projectId.
Proof.
  unfold resolveProjectId. destruct (unresolvable slug); [done|].
  unfold mbind, state_bind, mret, state_ret.
  destruct (loadProjects w) as [ps w1]. cbn [fst snd].
  destruct (match_project (default "" slug) ps) as [p|] eqn:E; [|done].
  intros [= <-]. apply match_project_elem in E. eauto.
Qed.

End StagingFacts.

(** [insertStaging] accounts for every item of the batch: each one is
    counted as inserted, as a duplicate or as rejected, whatever the store
    does; the staging table only grows, at its end, and by as many rows as
    were counted as inserted. *)
Theorem staging_accounts_for_every_item
    (items : list Item) (sessionId : string) (projectSlug : option string) (w : World) :
  let out := insertStaging items sessionId projectSlug w in
  (inserted out.1 + duplicates out.1 + rejected out.1 = length items)%nat
  ∧ ∃ new, extractions out.2 = extractions w ++ new ∧ length new = inserted out.1.
Proof.
  cbn zeta. pose proof (resolved_effect projectSlug w) as (He & _ & _).
  destruct (insertStaging_paths items sessionId projectSlug w)
    as [[-> _] | (pid & _ & _ & _ & ->)].
  - simpl. split; [lia|]. exists []. by rewrite app_nil_r.
  - destruct (stage_outcome items sessionId projectSlug pid (mkStaged 0 0 0 None)
                ((if Js.truthy (default "" projectSlug) then resolveProjectId projectSlug
                  else mret None) w).2)
      as (new & Hrows & _ & Hins & Hsum & _).
    simpl in Hins, Hsum. split; [lia|]. exists new. by rewrite Hrows, He.
Qed.

(** No row is staged without a project: every row that [insertStaging] adds
    is the row of one of the items of the batch, for the session that was
    given, with status [pending], and carries the identity, not empty, of a
    project of the loaded list, the one that the slug resolves to. *)
Theorem staged_rows_belong_to_a_project
    (items : list Item) (sessionId : string) (projectSlug : option string) (w : World) :
  let out := insertStaging items sessionId projectSlug w in
  ∃ new,
    extractions out.2 = extractions w ++ new
    ∧ (new = []
       ∨ ∃ project,
           project ∈ (loadProjects w).1
           ∧ proj_id project ≠ ""
           ∧ (resolveProjectId projectSlug w).1 = Some (proj_id project)
           ∧ Forall (row_for items sessionId projectSlug (proj_id project) (clock w)) new).
Proof.
  cbn zeta. pose proof (resolved_effect projectSlug w) as (He & Hclock & _).
  destruct (insertStaging_paths items sessionId projectSlug w)
    as [[-> _] | (pid & Hne & _ & Hres & ->)].
  - exists []. simpl. rewrite app_nil_r. auto.
  - destruct (stage_outcome items sessionId projectSlug pid (mkStaged 0 0 0 None)
                ((if Js.truthy (default "" projectSlug) then resolveProjectId projectSlug
                  else mret None) w).2)
      as (new & Hrows & _ & _ & _ & Hfor & _).
    exists new. split; [by rewrite Hrows, He|]. right.
    destruct (resolved_project projectSlug w pid Hres) as (project & Hin & <-).
    exists project. split_and!; try done. rewrite <- Hclock.
    eapply Forall_impl; [exact Hfor|]. intros row (item & Hitem & ->).
    exists item. by split_and!.
Qed.

(** While the store answers, [insertStaging] keeps the fingerprints of the
    staging table pairwise distinct, and an item whose fingerprint is staged
    already, by an earlier run or earlier in the same batch, is counted as
    a duplicate and not inserted again.  When the project resolves, the
    rows that are added carry, once each, the fingerprints of the batch that
    were not in the table: as many items are counted as inserted as there
    are such fingerprints, every other item of the batch is counted as a
    duplicate, and none is rejected. *)
Theorem staging_keeps_hashes_distinct
    (items : list Item) (sessionId : string) (projectSlug : option string) (w : World) :
  store_answers w →
  distinct_hashes w →
  let out := insertStaging items sessionId projectSlug w in
  let fresh : gset string :=
    list_to_set (generateHash <$> items) ∖ list_to_set (row_hash <$> extractions w) in
  distinct_hashes out.2
  ∧ (∀ projectId,
       (resolveProjectId projectSlug w).1 = Some projectId → projectId ≠ "" →
       ∃ new,
         extractions out.2 = extractions w ++ new
         ∧ list_to_set (row_hash <$> new) =@{gset string} fresh
         ∧ inserted out.1 = base.size fresh
         ∧ duplicates out.1 = (length items - base.size fresh)%nat
         ∧ rejected out.1 = 0%nat).
Proof.
  intros Hw Hdist. cbn zeta.
  pose proof (resolved_effect projectSlug w) as (He & _ & Hans).
  destruct (insertStaging_paths items sessionId projectSlug w)
    as [[-> Hnone] | (pid & _ & _ & _ & ->)].
  - split; [unfold distinct_hashes in *; simpl; by rewrite He|].
    intros projectId Hres Hne. exfalso.
    destruct (Js.truthy (default "" projectSlug)) eqn:Ht.
    + rewrite Hres in Hnone. destruct Hnone as [?|[= ?]]; done.
    + rewrite resolve_guarded in Hres; [done|].
      destruct projectSlug as [[|c slug]|]; [right; left|done|left].
  - destruct (stage_outcome items sessionId projectSlug pid (mkStaged 0 0 0 None)
                ((if Js.truthy (default "" projectSlug) then resolveProjectId projectSlug
                  else mret None) w).2)
      as (new & Hrows & _ & Hins & Hsum & Hfor & Hok).
    destruct Hok as (_ & Hrej & Hall & Hnd); [by apply Hans|].
    assert (distinct_hashes
              (stage items sessionId projectSlug pid (mkStaged 0 0 0 None)
                 ((if Js.truthy (default "" projectSlug)
                   then resolveProjectId projectSlug else mret None) w).2).2) as Hout.
    { apply Hnd. unfold distinct_hashes in *. by rewrite He. }
    split; [done|]. intros _ _ _. exists new. rewrite He in Hrows.
    unfold distinct_hashes in Hout. rewrite Hrows, fmap_app in Hout.
    apply NoDup_app in Hout as (_ & Hapart & Hnew).
    assert (list_to_set (row_hash <$> new)
            =@{gset string}
            list_to_set (generateHash <$> items) ∖ list_to_set (row_hash <$> extractions w))
      as Hfresh.
    { apply set_eq. intros h.
      rewrite elem_of_difference, !elem_of_list_to_set. split.
      - intros Hh. split; [|intros Hold; by apply (Hapart h)].
        apply list_elem_of_fmap in Hh as (row & -> & Hrow).
        apply (proj1 (Forall_forall _ _) Hfor) in Hrow as (item & Hitem & ->).
        apply list_elem_of_fmap. by exists item.
      - intros [(item & -> & Hitem)%list_elem_of_fmap Hold].
        apply (proj1 (Forall_forall _ _) Hall) in Hitem. unfold staged_with in Hitem.
        rewrite Hrows in Hitem. apply Exists_exists in Hitem as (row & Hrow & Hhash).
        apply elem_of_app in Hrow as [Hrow|Hrow].
        + exfalso. apply Hold. apply list_elem_of_fmap. by exists row.
        + apply list_elem_of_fmap. by exists row. }
    assert (base.size (list_to_set (generateHash <$> items)
                         ∖ list_to_set (row_hash <$> extractions w) : gset string)
            = length new) as Hsize.
    { rewrite <- Hfresh, size_list_to_set by done. by rewrite length_fmap. }
    cbn [inserted duplicates rejected] in *. rewrite Hsize.
    split_and!; [done|done|lia|lia|lia].
Qed.

Lemma staging_keeps_hashes_distinct_witness :
  distinct_hashes
    (insertStaging [Example.todo_item; Example.todo_item; Example.bug_item] "s-1"
       (Some "ai-jason-5408") Example.store).2.
Proof.
  apply (staging_keeps_hashes_distinct
           [Example.todo_item; Example.todo_item; Example.bug_item] "s-1"
           (Some "ai-jason-5408") Example.store).
  - apply Forall_nil. exact I.
  - apply NoDup_nil. exact I.
Defined.



(** ** The validator: what it accepts, and how it sorts a batch *)
Section ValidityFacts.

Lemma add_if_nil (c : bool) (l : list string) (m : string) :
  (if c then l ++ [m] else l) = [] ↔ c = false ∧ l = [].
Proof.
  destruct c.
  - split; [by intros [_ ?]%app_eq_nil|by intros [? _]].
  - split; [done|by intros [_ ?]].
Qed.

Lemma length_errors_nil (path : string) (lo : option nat) (hi : nat) (s : string) :
  length_errors path lo hi s = []
  ↔ (∀ n, lo = Some n → (n ≤ String.length s)%nat) ∧ (String.length s ≤ hi)%nat.
Proof.
  unfold length_errors. rewrite app_nil.
  assert ((if (hi <? String.length s)%nat
           then [path +:+ " must NOT have more than " +:+ Js.show_nat hi +:+ " characters"]
           else []) = [] ↔ (String.length s ≤ hi)%nat) as ->.
  { destruct (hi <? String.length s)%nat eqn:E.
    - apply Nat.ltb_lt in E. split; [done|lia].
    - apply Nat.ltb_ge in E. split; done. }
  destruct lo as [n|].
  - destruct (String.length s <? n)%nat eqn:E.
    + apply Nat.ltb_lt in E. split; [by intros [? _]|].
      intros [Hn _]. specialize (Hn n eq_refl). lia.
    + apply Nat.ltb_ge in E. split; intros [_ ?]; (split; [|done]); [|done].
      by intros ? [= <-].
  - split; intros [_ ?]; split; done.
Qed.

Lemma concat_imap_nil {A B : Type} (f : nat → A → list B) (l : list A) :
  concat (imap f l) = [] ↔ ∀ i x, l !! i = Some x → f i x = [].
Proof.
  revert f. induction l as [|a l IH]; intros f.
  - split; [by intros _ i x|done].
  - rewrite imap_cons. cbn [concat]. rewrite app_nil, IH. split.
    + intros [H0 H] [|i] x; simpl; [by intros [= <-]|apply H].
    + intros H. split; [by apply (H 0%nat)|]. intros i x Hi. by apply (H (S i)).
Qed.

Lemma evidence_errors_nil (i : nat) (e : Evidence) :
  evidence_errors i e = [] ↔ is_Some (session_id e) ∧ (String.length (excerpt e) ≤ 500)%nat.
Proof.
  unfold evidence_errors. rewrite app_nil, length_errors_nil.
  destruct (session_id e) as [sid|]; split.
  - intros [_ [_ ?]]. split; [by eexists|done].
  - intros [_ ?]. done.
  - by intros [? _].
  - by intros [[? ?] _].
Qed.

(** The schema lets an item through. *)
Lemma validateBase_nil (item : Item) :
  validateBase item = []
  ↔ bucket item ∈ VALID_BUCKETS
    ∧ (∀ t, title item = Some t → (1 ≤ String.length t ≤ 500)%nat)
    ∧ (5 ≤ String.length (content item) ≤ 10000)%nat
    ∧ (∀ p, priority item = Some p → p ∈ VALID_PRIORITIES)
    ∧ evidence item ≠ []
    ∧ Forall (λ e, is_Some (session_id e) ∧ (String.length (excerpt e) ≤ 500)%nat)
        (evidence item).
Proof.
  unfold validateBase. rewrite !app_nil, concat_imap_nil.
  assert ((if bool_decide (bucket item ∈ VALID_BUCKETS) then []
           else ["/bucket must be equal to one of the allowed values"]) = []
          ↔ bucket item ∈ VALID_BUCKETS) as ->.
  { case_bool_decide; split; done. }
  assert (match title item with
          | Some t => length_errors "/title" (Some 1%nat) 500 t
          | None => []
          end = [] ↔ ∀ t, title item = Some t → (1 ≤ String.length t ≤ 500)%nat) as ->.
  { destruct (title item) as [t|]; [|split; done].
    rewrite length_errors_nil. split.
    - intros [H ?] t' [= <-]. split; [by apply H|done].
    - intros H. destruct (H t eq_refl). split; [|done]. by intros ? [= <-]. }
  rewrite length_errors_nil.
  assert (match priority item with
          | Some p =>
              if bool_decide (p ∈ VALID_PRIORITIES) then []
              else ["/priority must be equal to one of the allowed values"]
          | None => []
          end = [] ↔ ∀ p, priority item = Some p → p ∈ VALID_PRIORITIES) as ->.
  { destruct (priority item) as [p|]; [|split; done].
    case_bool_decide; split; try done.
    - by intros _ ? [= <-].
    - intros H'. by specialize (H' p eq_refl). }
  assert ((if (length (evidence item) <? 1)%nat
           then ["/evidence must NOT have fewer than 1 items"] else []) = []
          ↔ evidence item ≠ []) as ->.
  { destruct (evidence item); simpl; split; done. }
  assert ((∀ i x, evidence item !! i = Some x → evidence_errors i x = [])
          ↔ Forall (λ e, is_Some (session_id e) ∧ (String.length (excerpt e) ≤ 500)%nat)
              (evidence item)) as ->.
  { rewrite Forall_lookup. split; intros H i x Hi; by apply (evidence_errors_nil i), (H i). }
  split.
  - intros (?&?&[H ?]&?&?&?). split_and!; try done. by apply H.
  - intros (?&?&[? ?]&?&?&?). split_and!; try done. by intros ? [= <-].
Qed.

Lemma validateItem_errors (item : Item) :
  errors (validateItem item) = []
  ↔ validateBase item = []
    ∧ Js.truthy (Js.trim (content item)) = true
    ∧ existsb (λ e, Js.truthy (default "" (session_id e))) (evidence item) = true
    ∧ (∀ t, title item = Some t → t ≠ "" → title_is_garbage t = false)
    ∧ Js.truthy (content item) && (String.length (content item) <? 10)%nat = false.
Proof.
  unfold validateItem. cbn [errors]. rewrite add_if_nil.
  assert (∀ l : list string,
            match title item with
            | Some (String _ _ as t) =>
                if title_is_garbage t then l ++ ["title appears to be garbage"] else l
            | _ => l
            end = []
            ↔ (∀ t, title item = Some t → t ≠ "" → title_is_garbage t = false) ∧ l = [])
    as Htitle.
  { intros l. destruct (title item) as [[|c t]|].
    - split; [intros ->; split; [by intros ? [= <-]|done]|by intros [_ ?]].
    - rewrite add_if_nil. split.
      + intros [Hg ->]. split; [|done]. by intros ? [= <-] _.
      + intros [H ->]. split; [|done]. by apply H.
    - split; [intros ->; split; done|by intros [_ ?]]. }
  rewrite Htitle, !add_if_nil, !negb_false_iff. tauto.
Qed.

End ValidityFacts.

(** [validateItem] accepts exactly the well-formed items: a bucket of the
    list; a title, if there is one, of 1 to 500 characters that none of the
    garbage patterns matches; a content of 10 to 10000 characters that is
    not all white space; a priority, if there is one, of the list; and
    evidence entries that all carry a session reference and an excerpt of at
    most 500 characters, one of the references at least being not empty. *)
Theorem validateItem_accepts_the_well_formed (item : Item) :
  valid (validateItem item) = true ↔ well_formed item.
Proof.
  assert (valid (validateItem item) = true ↔ errors (validateItem item) = []) as ->.
  { unfold validateItem. cbn [valid errors]. rewrite bool_decide_eq_true.
    by rewrite length_zero_iff_nil. }
  rewrite validateItem_errors, validateBase_nil. unfold well_formed.
  rewrite truthy_spec, existsb_exists.
  assert (Js.truthy (content item) && (String.length (content item) <? 10)%nat = false
          ↔ content item = "" ∨ (10 ≤ String.length (content item))%nat) as ->.
  { destruct (content item) as [|c s]; [split; auto|].
    cbn [Js.truthy andb]. rewrite Nat.ltb_ge. split; [auto|]. by intros [?|?]. }
  split.
  - intros ((Hb & Ht & [H5 Hmax] & Hp & Hne & Hev) & Htrim & (e & Hin & He) & Hg & Hlen).
    split_and!; try done.
    + intros t H. split; [by apply Ht|]. apply Hg; [done|].
      intros ->. destruct (Ht "" H). simpl in *. lia.
    + destruct Hlen as [Hempty|?]; [|done]. rewrite Hempty in H5. simpl in H5. lia.
    + apply Exists_exists. exists e. split; [by apply list_elem_of_In|].
      destruct (session_id e) as [[|c sid]|]; try done. by eexists.
  - intros (Hb & Ht & [H10 Hmax] & Htrim & Hp & Hev & Hex).
    apply Exists_exists in Hex as (e & Hin & sid & Hsid & Hne).
    split_and!; try done.
    + intros t H. by apply Ht.
    + lia.
    + intros Hnil. rewrite Hnil in Hin. by apply elem_of_nil in Hin.
    + exists e. split; [by apply list_elem_of_In|]. rewrite Hsid. by destruct sid.
    + intros t H _. by apply Ht.
    + by right.
Qed.

Section BatchFacts.

Lemma append_not_empty (s t : string) : s ≠ "" → s +:+ t ≠ "".
Proof. by destruct s. Qed.

Lemma length_errors_messages (path : string) (lo : option nat) (hi : nat) (s : string) :
  path ≠ "" → Forall (λ m, m ≠ "") (length_errors path lo hi s).
Proof.
  intros Hp. unfold length_errors. apply Forall_app. split.
  - destruct lo as [n|]; [|by apply Forall_nil].
    destruct (_ <? _)%nat; [|by apply Forall_nil].
    apply Forall_singleton. by apply append_not_empty.
  - destruct (_ <? _)%nat; [|by apply Forall_nil].
    apply Forall_singleton. by apply append_not_empty.
Qed.

Lemma evidence_errors_messages (i : nat) (e : Evidence) :
  Forall (λ m, m ≠ "") (evidence_errors i e).
Proof.
  unfold evidence_errors. apply Forall_app. split.
  - destruct (session_id e); [by apply Forall_nil|]. by apply Forall_singleton.
  - by apply length_errors_messages.
Qed.

Lemma concat_imap_Forall {A B : Type} (P : B → Prop) (f : nat → A → list B) (l : list A) :
  (∀ i x, Forall P (f i x)) → Forall P (concat (imap f l)).
Proof.
  revert f. induction l as [|a l IH]; intros f H; [by apply Forall_nil|].
  rewrite imap_cons. cbn [concat]. apply Forall_app. split; [apply H|].
  apply IH. intros i x. apply H.
Qed.

Lemma add_if_Forall (P : string → Prop) (c : bool) (l : list string) (m : string) :
  Forall P l → P m → Forall P (if c then l ++ [m] else l).
Proof.
  intros Hl Hm. destruct c; [|done]. apply Forall_app. split; [done|].
  by apply Forall_singleton.
Qed.

(** No message of the validator is empty. *)
Lemma validateItem_messages (item : Item) :
  Forall (λ m, m ≠ "") (errors (validateItem item)).
Proof.
  unfold validateItem. cbn [errors].
  assert (Forall (λ m, m ≠ "") (validateBase item)) as Hbase.
  { unfold validateBase.
    apply Forall_app; split; [|apply Forall_app; split; [|apply Forall_app; split;
      [|apply Forall_app; split; [|apply Forall_app; split]]]].
    - case_bool_decide; [by apply Forall_nil|by apply Forall_singleton].
    - destruct (title item); [by apply length_errors_messages|by apply Forall_nil].
    - by apply length_errors_messages.
    - destruct (priority item); [|by apply Forall_nil].
      case_bool_decide; [by apply Forall_nil|by apply Forall_singleton].
    - destruct (_ <? _)%nat; [by apply Forall_singleton|by apply Forall_nil].
    - apply concat_imap_Forall. apply evidence_errors_messages. }
  apply add_if_Forall; [|done].
  assert (∀ l, Forall (λ m, m ≠ "") l →
               Forall (λ m, m ≠ "")
                 match title item with
                 | Some (String _ _ as t) =>
                     if title_is_garbage t then l ++ ["title appears to be garbage"] else l
                 | _ => l
                 end) as Htitle.
  { intros l Hl. destruct (title item) as [[|c t]|]; try done. by apply add_if_Forall. }
  apply Htitle. apply add_if_Forall; [|done]. by apply add_if_Forall.
Qed.

Lemma join_not_empty (sep : string) (parts : list string) :
  parts ≠ [] → Forall (λ m, m ≠ "") parts → join sep parts ≠ "".
Proof.
  destruct parts as [|p [|q more]]; [done| |]; intros _ [Hp _]%Forall_cons; [done|].
  cbn [join]. by apply append_not_empty.
Qed.

Lemma validateItems_from (items valid0 : list Item) (invalid0 : list Invalid) :
  foldl
    (λ acc item,
       let result := validateItem item in
       if valid result then (acc.1 ++ [item], acc.2)
       else (acc.1, acc.2 ++ [mkInvalid item (join "; " (errors result))]))
    (valid0, invalid0) items
  = (valid0 ++ filter (λ item, valid (validateItem item) = true) items,
     invalid0
     ++ ((λ item, mkInvalid item (join "; " (errors (validateItem item))))
           <$> filter (λ item, valid (validateItem item) = false) items)).
Proof.
  revert valid0 invalid0. induction items as [|item more IH]; intros valid0 invalid0.
  - simpl. by rewrite !app_nil_r.
  - cbn [foldl]. cbv zeta. rewrite !filter_cons.
    destruct (valid (validateItem item)) eqn:E; cbn [fst snd]; rewrite IH.
    + rewrite decide_True by done. rewrite decide_False by done.
      by rewrite <- (assoc_L (++)).
    + rewrite decide_False by done. rewrite decide_True by done.
      rewrite fmap_cons. by rewrite <- (assoc_L (++)).
Qed.

End BatchFacts.

(** [validateItems] sorts a batch without losing an item or changing the
    order: [valid] holds the items that [validateItem] accepts, [invalid]
    the others, each with the messages of [validateItem] joined by "; ",
    a text that is never empty. *)
Theorem validateItems_sorts_the_batch (items : list Item) :
  let out := validateItems items in
  out.1 = filter (λ item, valid (validateItem item) = true) items
  ∧ inv_item <$> out.2 = filter (λ item, valid (validateItem item) = false) items
  ∧ Forall (λ rejected,
              inv_error rejected = join "; " (errors (validateItem (inv_item rejected)))
              ∧ inv_error rejected ≠ "") out.2
  ∧ (length out.1 + length out.2 = length items)%nat.
Proof.
  cbn zeta. unfold validateItems. rewrite validateItems_from. cbn [fst snd app].
  split; [done|]. split; [|split].
  - rewrite <- list_fmap_compose.
    induction (filter _ items) as [|item more IH]; [done|].
    rewrite fmap_cons. cbn [compose inv_item]. by f_equal.
  - apply Forall_fmap, Forall_forall. intros item [Hbad _]%list_elem_of_filter.
    cbn [inv_error inv_item compose]. split; [done|].
    apply join_not_empty; [|apply validateItem_messages].
    intros Hnil. unfold validateItem in Hbad, Hnil. cbn [valid errors] in Hbad, Hnil.
    rewrite Hnil in Hbad. done.
  - rewrite length_fmap.
    induction items as [|item more IH]; [done|]. rewrite !filter_cons. cbv beta.
    destruct (decide (valid (validateItem item) = true)) as [E|E],
      (decide (valid (validateItem item) = false)) as [E'|E']; cbn [length]; try lia.
    + congruence.
    + destruct (valid (validateItem item)); congruence.
Qed.

(** ** The extractor: what the marker patterns capture *)
Section TrimFacts.

Lemma trimStart_decompose (s : string) :
  ∃ pre, s = pre +:+ Js.trimStart s ∧ Js.all_chars Js.is_space pre = true.
Proof.
  induction s as [|c s (pre & IH & Hpre)]; [by exists ""|]. cbn [Js.trimStart].
  destruct (Js.is_space c) eqn:Hc.
  - exists (String c pre). rewrite append_cons, <- IH. cbn [Js.all_chars].
    by rewrite Hc, Hpre.
  - by exists "".
Qed.

Lemma trimEnd_go_decompose (s t : string) :
  Js.trimEnd_go s = Some t →
  ∃ post, s = t +:+ post ∧ Js.all_chars Js.is_space post = true ∧ Js.trimEnd_go t = Some t.
Proof.
  revert t. induction s as [|c s IH]; intros t; cbn [Js.trimEnd_go]; [done|].
  destruct (Js.trimEnd_go s) as [t'|] eqn:E.
  - intros [= <-]. destruct (IH t' eq_refl) as (post & Hs & Hpost & Hfix).
    exists post. rewrite append_cons, <- Hs. cbn [Js.trimEnd_go]. by rewrite Hfix.
  - destruct (Js.is_space c) eqn:Hc; [done|]. intros [= <-].
    exists s. cbn [Js.trimEnd_go]. rewrite Hc. split; [done|]. split; [|done].
    clear -E. induction s as [|x s IH]; [done|]. cbn [Js.trimEnd_go Js.all_chars] in *.
    destruct (Js.trimEnd_go s); [done|]. destruct (Js.is_space x); [|done]. auto.
Qed.

Lemma trimEnd_go_none (s : string) :
  Js.trimEnd_go s = None → Js.all_chars Js.is_space s = true.
Proof.
  induction s as [|x s IH]; [done|]. simpl.
  destruct (Js.trimEnd_go s); [done|]. destruct (Js.is_space x); [|done]. auto.
Qed.

Lemma trimEnd_decompose (s : string) :
  ∃ post, s = Js.trimEnd s +:+ post ∧ Js.all_chars Js.is_space post = true.
Proof.
  unfold Js.trimEnd. destruct (Js.trimEnd_go s) as [t|] eqn:E; simpl.
  - destruct (trimEnd_go_decompose s t E) as (post & ? & ? & _). eauto.
  - exists s. split; [done|]. by apply trimEnd_go_none.
Qed.

(** [trim] takes white space off both ends, and nothing else. *)
Lemma trim_decompose (s : string) :
  ∃ pre post,
    s = pre +:+ Js.trim s +:+ post
    ∧ Js.all_chars Js.is_space pre = true
    ∧ Js.all_chars Js.is_space post = true.
Proof.
  destruct (trimStart_decompose s) as (pre & Hs & Hpre).
  destruct (trimEnd_decompose (Js.trimStart s)) as (post & Ht & Hpost).
  exists pre, post. unfold Js.trim. by rewrite <- Ht, <- Hs.
Qed.

Lemma trimEnd_fixed (s : string) : Js.trimEnd (Js.trimEnd s) = Js.trimEnd s.
Proof.
  unfold Js.trimEnd. destruct (Js.trimEnd_go s) as [t|] eqn:E; simpl; [|done].
  destruct (trimEnd_go_decompose s t E) as (_ & _ & _ & ->). done.
Qed.

Lemma trimStart_trimEnd (s : string) :
  Js.trimStart (Js.trimEnd (Js.trimStart s)) = Js.trimEnd (Js.trimStart s).
Proof.
  assert (∀ x, Js.trimStart x = x → Js.trimStart (Js.trimEnd x) = Js.trimEnd x) as H.
  { intros [|c x]; [done|]. simpl. destruct (Js.is_space c) eqn:Hc.
    - intros Hx. pose proof (length_trimStart_le x) as Hlen.
      rewrite Hx in Hlen. simpl in Hlen. lia.
    - intros _. unfold Js.trimEnd. cbn [Js.trimEnd_go].
      destruct (Js.trimEnd_go x); rewrite ?Hc; simpl; by rewrite Hc. }
  apply H. clear H. induction s as [|c s IH]; [done|]. simpl.
  destruct (Js.is_space c) eqn:Hc; [done|]. simpl. by rewrite Hc.
Qed.

Lemma trim_trim (s : string) : Js.trim (Js.trim s) = Js.trim s.
Proof. unfold Js.trim. by rewrite trimStart_trimEnd, trimEnd_fixed. Qed.

Lemma all_chars_trim (f : ascii → bool) (s : string) :
  Js.all_chars f s = true → Js.all_chars f (Js.trim s) = true.
Proof.
  destruct (trim_decompose s) as (pre & post & Hs & _ & _). intros H.
  rewrite Hs, !all_chars_append, !andb_true_iff in H. tauto.
Qed.

Lemma substring_of_trans (a b c : string) :
  substring_of a b → substring_of b c → substring_of a c.
Proof.
  intros (p1 & q1 & ->) (p2 & q2 & ->). exists (p2 +:+ p1), (q1 +:+ q2).
  by rewrite !append_assoc.
Qed.

Lemma substring_of_trim (s : string) : substring_of (Js.trim s) s.
Proof. destruct (trim_decompose s) as (pre & post & Hs & _). by exists pre, post. Qed.

Lemma take_decompose (n : nat) (s : string) : ∃ post, s = Js.take n s +:+ post.
Proof.
  revert n. induction s as [|c s IH]; intros [|n]; cbn [Js.take];
    [by exists ""|by exists ""|by exists (String c s)|].
  destruct (IH n) as (post & Hs). exists post. by rewrite append_cons, <- Hs.
Qed.

Lemma length_take_min (n : nat) (s : string) :
  String.length (Js.take n s) = (n `min` String.length s)%nat.
Proof. revert n. induction s as [|c s IH]; intros [|n]; simpl; auto. Qed.

End TrimFacts.

Section MatchSoundness.

Implicit Types (k : cont) (p : option ascii) (s : string).

Lemma prev_after_append p (t1 t2 : string) :
  prev_after (prev_after p t1) t2 = prev_after p (t1 +:+ t2).
Proof. revert p. induction t1 as [|c t1 IH]; intros p; [done|]. apply IH. Qed.

(** Whatever the expression, a match passes over a prefix of what is left
    of the subject, and goes on from there. *)
Lemma rmatch_sound fl r k cur caps res :
  rmatch fl r k cur caps = Some res →
  ∃ taken s' caps',
    rest cur = taken +:+ s'
    ∧ k (Cursor (prev_after (prev cur) taken) s' (index cur + String.length taken)) caps'
      = Some res.
Proof.
  revert k cur caps. induction r as [| | |c|f|f lo hi|r1 IH1 r2 IH2|r1 IH1 r2 IH2|i r IH];
    intros k [p s i0] caps H.
  - exists "", s, caps. cbn in *. by rewrite Nat.add_0_r.
  - apply rmatch_bol_inv in H as [_ H]. exists "", s, caps. cbn in *.
    by rewrite Nat.add_0_r.
  - apply rmatch_eol_inv in H as [_ H]. exists "", s, caps. cbn in *.
    by rewrite Nat.add_0_r.
  - apply rmatch_chr_inv in H as (x & s' & Hs & _ & H). cbn in Hs. subst s.
    exists (String x ""), s', caps. cbn in *. by rewrite Nat.add_1_r.
  - cbn in H. destruct s as [|x s']; [done|]. destruct (f x); [|done].
    exists (String x ""), s', caps. cbn in *. by rewrite Nat.add_1_r.
  - apply rmatch_rep_inv in H as (taken & s' & Hs & _ & _ & _ & H). eauto.
  - rewrite rmatch_seq in H.
    apply IH1 in H as (t1 & s1 & caps1 & Hs1 & H).
    apply IH2 in H as (t2 & s2 & caps2 & Hs2 & H).
    cbn [Regex.rest Regex.prev Regex.index] in *.
    exists (t1 +:+ t2), s2, caps2. rewrite append_assoc, <- Hs2. split; [done|].
    by rewrite <- prev_after_append, length_append, Nat.add_assoc.
  - apply rmatch_alt_inv in H as [H|H]; [by apply IH1 in H|by apply IH2 in H].
  - cbn [rmatch] in H. apply IH in H as (taken & s' & caps' & Hs & H). eauto.
Qed.

(** The same for the front part of a sequence. *)
Lemma front_inv fl (front : list regex) (back : regex) k cur caps res :
  rmatch fl (foldr Seq back front) k cur caps = Some res →
  ∃ taken s' caps',
    rest cur = taken +:+ s'
    ∧ rmatch fl back k
        (Cursor (prev_after (prev cur) taken) s' (index cur + String.length taken)) caps'
      = Some res.
Proof.
  revert cur caps. induction front as [|r front IH]; intros [p s i0] caps H.
  - exists "", s, caps. cbn in *. by rewrite Nat.add_0_r.
  - cbn [foldr] in H. rewrite rmatch_seq in H.
    apply rmatch_sound in H as (t1 & s1 & caps1 & Hs1 & H).
    apply IH in H as (t2 & s2 & caps2 & Hs2 & H).
    cbn [Regex.rest Regex.prev Regex.index] in *.
    exists (t1 +:+ t2), s2, caps2. rewrite append_assoc, <- Hs2. split; [done|].
    by rewrite <- prev_after_append, length_append, Nat.add_assoc.
Qed.

(** The end of every marker pattern: the group and the end of the line. *)
Lemma capture_to_eol fl f lo hi cur caps res :
  rmatch fl (Seq (Cap 1 (Rep f lo (Some hi))) (Seq Eol Eps))
    (λ cur' caps', Some (cur', caps')) cur caps = Some res →
  ∃ cap after,
    rest cur = cap +:+ after
    ∧ Js.all_chars f cap = true
    ∧ (lo ≤ String.length cap ≤ hi)%nat
    ∧ index res.1 = (index cur + String.length cap)%nat
    ∧ res.2 !! 1%nat = Some cap.
Proof.
  intros H. rewrite rmatch_seq in H. cbn [rmatch] in H.
  apply rep_greedy_sound in H as (cap & after & Hs & Hcap & Hlo & Hhi & H).
  cbn [Regex.rest Regex.index Regex.prev] in *.
  destruct (at_eol fl _); [|done]. injection H as <-.
  exists cap, after. split_and!; try done.
  - by apply Hhi.
  - cbn. rewrite lookup_insert_eq. f_equal.
    replace (index cur + String.length cap - index cur)%nat with (String.length cap) by lia.
    rewrite Hs. apply take_append_length.
Qed.

(** Every match that the loop visits is a match at some position of the
    subject. *)
Lemma scan_elem fl r skip p s i (m : result) :
  m ∈ scan fl r skip p s i →
  ∃ pre p' s',
    s = pre +:+ s' ∧ match_here fl r (Cursor p' s' (i + String.length pre)) = Some m.
Proof.
  revert skip p i m. induction s as [|c s IH]; intros skip p i m.
  - destruct skip as [|skip]; cbn [scan]; [|by intros ?%elem_of_nil].
    destruct (match_here fl r (Cursor p "" i)) as [m'|] eqn:E; [|by intros ?%elem_of_nil].
    intros [->|?%elem_of_nil]%elem_of_cons; [|done].
    exists "", p, "". by rewrite Nat.add_0_r.
  - assert (∀ skip' m0, m0 ∈ scan fl r skip' (Some c) s (S i) →
              ∃ pre p' s', String c s = pre +:+ s'
                ∧ match_here fl r (Cursor p' s' (i + String.length pre)) = Some m0) as Hnext.
    { intros skip' m' (pre & p' & s' & Hs & Hm)%IH.
      exists (String c pre), p', s'. rewrite append_cons, <- Hs. split; [done|].
      cbn [String.length]. by rewrite Nat.add_succ_r. }
    destruct skip as [|skip]; cbn [scan]; [|apply Hnext].
    destruct (match_here fl r (Cursor p (String c s) i)) as [m'|] eqn:E; [|apply Hnext].
    intros [->|Hm]%elem_of_cons; [|by eapply Hnext].
    exists "", p, (String c s). by rewrite Nat.add_0_r.
Qed.

(** What a marker pattern, a front part followed by the group and the end
    of the line, matches and captures. *)
Lemma marker_match fl (front : list regex) (content : string) (m : result) :
  m ∈ exec_all fl (Cat (front ++ [Cap 1 (Rep Js.is_dot 10 (Some 200%nat)); Eol])) content →
  ∃ pre before cap after,
    content = pre +:+ before +:+ cap +:+ after
    ∧ m_text m = before +:+ cap
    ∧ group 1 m = Some cap
    ∧ Js.all_chars Js.is_dot cap = true
    ∧ (10 ≤ String.length cap ≤ 200)%nat.
Proof.
  intros (pre & p' & s' & Hs & Hm)%scan_elem. unfold match_here in Hm.
  destruct (rmatch _ _ _ _ _) as [[cur' caps]|] eqn:E; [|done]. injection Hm as <-.
  unfold Cat in E. rewrite foldr_app in E. cbn [foldr] in E.
  apply front_inv in E as (before & s1 & caps1 & Hs1 & E).
  apply capture_to_eol in E as (cap & after & Hs2 & Hcap & Hlen & Hidx & Hgroup).
  cbn [Regex.rest Regex.index Regex.prev fst snd] in *.
  exists pre, before, cap, after. split_and!; try done; try lia.
  - by rewrite Hs, Hs1, Hs2.
  - cbn [m_text]. rewrite Hidx, Hs1, Hs2.
    match goal with
    | |- Js.take ?n _ = _ =>
        replace n with (String.length (before +:+ cap)) by (rewrite length_append; lia)
    end.
    rewrite <- append_assoc. apply take_append_length.
Qed.

End MatchSoundness.

Section RuleItems.

(** The item that [consider] adds for a match. *)
Lemma consider_item (P : Item → Prop) b pr session acc (m : result) :
  Forall P acc.1 →
  (∀ cap,
     group 1 m = Some cap →
     (10 ≤ String.length (Js.trim cap))%nat →
     P {| bucket := b;
          title := Some (Js.take 150 (Js.trim cap));
          content := Js.trim cap;
          priority := pr;
          tags := [];
          evidence :=
            [ {| session_id := Some (sess_id session);
                 excerpt := Js.take 150 (m_text m);
                 location := "strict-marker" |} ] |}) →
  Forall P (consider b pr session acc m).1.
Proof.
  destruct acc as [items seen]. intros Hacc Hnew. unfold consider.
  destruct (group 1 m) as [cap|]; [|done]. cbn [fmap option_fmap option_map].
  destruct (Js.truthy (Js.trim cap) && (10 <=? String.length (Js.trim cap))%nat
            && negb (bool_decide (Js.toLowerCase (Js.trim cap) ∈ seen))) eqn:E; [|done].
  apply andb_true_iff in E as [[_ Hlen%Nat.leb_le]%andb_true_iff _].
  cbn [fst]. apply Forall_app. split; [done|]. apply Forall_singleton. by apply Hnew.
Qed.

Lemma sweep_items (P : Item → Prop) patterns b pr content session acc :
  Forall P acc.1 →
  (∀ pattern m cap,
     pattern ∈ patterns →
     m ∈ exec_all pattern.1 pattern.2 content →
     group 1 m = Some cap →
     (10 ≤ String.length (Js.trim cap))%nat →
     P {| bucket := b;
          title := Some (Js.take 150 (Js.trim cap));
          content := Js.trim cap;
          priority := pr;
          tags := [];
          evidence :=
            [ {| session_id := Some (sess_id session);
                 excerpt := Js.take 150 (m_text m);
                 location := "strict-marker" |} ] |}) →
  Forall P (sweep patterns b pr content session acc).1.
Proof.
  unfold sweep. revert acc. induction patterns as [|pattern more IH]; intros acc Hacc Hnew;
    [done|].
  cbn [foldl]. apply IH.
  - assert (∀ found acc0, Forall P acc0.1 →
              (∀ m, m ∈ found → m ∈ exec_all pattern.1 pattern.2 content) →
              Forall P (foldl (consider b pr session) acc0 found).1) as Hinner.
    { induction found as [|m found IHm]; intros acc0 H0 Hms; [done|].
      cbn [foldl]. apply IHm.
      - apply consider_item; [done|]. intros cap Hcap Hlen.
        apply (Hnew pattern m cap); try done; [left|apply Hms; left].
      - intros m' Hm'. apply Hms. by right. }
    by apply Hinner.
  - intros p m cap Hp. apply Hnew. by right.
Qed.

(** Every marker pattern is a front part, the group and the end of the
    line. *)
Lemma patterns_form (pattern : flags * regex) :
  pattern ∈ PATTERNS.todo ++ PATTERNS.bug ++ PATTERNS.decision →
  ∃ front, pattern.2 = Cat (front ++ [Cap 1 (Rep Js.is_dot 10 (Some 200%nat)); Eol]).
Proof.
  unfold PATTERNS.todo, PATTERNS.bug, PATTERNS.decision. cbn [app].
  rewrite !elem_of_cons, elem_of_nil.
  intros [->|[->|[->|[->|[->|[->|[->|[->|[->|[]]]]]]]]]]; cbn [snd];
    first [ by eexists [_; _; _; _] | by eexists [_; _; _; _; _; _; _; _] ].
Qed.

(** The item that is built for a match of a marker pattern. *)
Lemma marker_item_built (transcript : string) (session : Session) b pr pattern
    (m : result) (cap : string) :
  (b, pr) ∈ [(Todos, Some "medium"); (Bugs_Open, Some "high"); (Decisions, None)] →
  pattern ∈ PATTERNS.todo ++ PATTERNS.bug ++ PATTERNS.decision →
  m ∈ exec_all pattern.1 pattern.2 transcript →
  group 1 m = Some cap →
  (10 ≤ String.length (Js.trim cap))%nat →
  marker_item transcript session
    {| bucket := b;
       title := Some (Js.take 150 (Js.trim cap));
       content := Js.trim cap;
       priority := pr;
       tags := [];
       evidence :=
         [ {| session_id := Some (sess_id session);
              excerpt := Js.take 150 (m_text m);
              location := "strict-marker" |} ] |}.
Proof.
  intros Hb (front & Hform)%patterns_form Hm Hcap Hlen.
  rewrite Hform in Hm.
  apply marker_match in Hm as (pre & before & cap' & after & Hs & Htext & Hg & Hdot & Hcl).
  rewrite Hg in Hcap. injection Hcap as ->.
  unfold marker_item. cbn [bucket priority title content tags evidence].
  pose proof (length_trim_le cap) as Htl.
  split_and!; try done; try lia.
  - apply trim_trim.
  - by apply all_chars_trim.
  - apply (substring_of_trans _ cap); [apply substring_of_trim|].
    exists (pre +:+ before), after. by rewrite Hs, !append_assoc.
  - eexists. split; [reflexivity|]. split.
    + rewrite length_take_min. lia.
    + destruct (take_decompose 150 (m_text m)) as (post & Hpost).
      exists pre, (post +:+ after).
      rewrite <- (append_assoc (Js.take 150 (m_text m)) post after), <- Hpost, Htext, Hs.
      by rewrite !append_assoc.
Qed.

(** A property of the items of the marker lines holds of everything that
    [extractWithRules] returns. *)
Lemma rule_items_all (P : Item → Prop) (transcript : string) (session : Session) :
  (∀ item, marker_item transcript session item → P item) →
  Forall P (extractWithRules transcript session).
Proof.
  intros HP. unfold extractWithRules. cbn zeta.
  apply sweep_items; [apply sweep_items; [apply sweep_items; [done|]|]|];
    intros pattern m cap Hp Hm Hcap Hlen; apply HP;
    (eapply marker_item_built; [| |exact Hm|exact Hcap|exact Hlen]);
    rewrite ?elem_of_cons, ?elem_of_app; auto 10.
Qed.

(** The validator and the items of the marker lines. *)
Lemma marker_item_errors (transcript : string) (session : Session) (item : Item) :
  sess_id session ≠ "" →
  marker_item transcript session item →
  errors (validateItem item) = []
  ↔ title_is_garbage (Js.take 150 (content item)) = false.
Proof.
  intros Hid (Hb & Ht & [Hlo Hhi] & Htrim & _ & _ & _ & e & Hev & He & _).
  rewrite validateItem_errors, validateBase_nil, Ht, Hev, Htrim.
  assert (content item ≠ "") as Hne by (intros H; rewrite H in Hlo; simpl in Hlo; lia).
  assert (Js.take 150 (content item) ≠ "") as Htne.
  { intros H. apply (f_equal String.length) in H. rewrite length_take_min in H.
    cbn [String.length] in H. lia. }
  split.
  - intros (_ & _ & _ & Hg & _). by apply Hg.
  - intros Hg. split_and!; try done.
    + rewrite !elem_of_cons, elem_of_nil in Hb. unfold VALID_BUCKETS.
      destruct Hb as [[= -> _]|[[= -> _]|[[= -> _]|[]]]]; rewrite !elem_of_cons; auto 20.
    + intros t Heq. assert (t = Js.take 150 (content item)) as -> by congruence.
      rewrite length_take_min. lia.
    + lia.
    + etrans; [exact Hhi|]. apply Nat.leb_le. by vm_compute.
    + rewrite !elem_of_cons, elem_of_nil in Hb. unfold VALID_PRIORITIES.
      intros p Hp. rewrite Hp in Hb.
      destruct Hb as [[= _ <-]|[[= _ <-]|[[= _ ?]|[]]]]; rewrite ?elem_of_cons; auto 20.
    + apply Forall_singleton. split; [by eexists|]. cbn [excerpt]. lia.
    + by apply truthy_spec.
    + cbn. destruct (sess_id session); done.
    + intros t Heq _. assert (t = Js.take 150 (content item)) as -> by congruence. done.
    + destruct (content item) as [|c s]; [done|]. cbn [Js.truthy andb].
      apply Nat.ltb_ge. lia.
Qed.

End RuleItems.

(** The items that [extractWithRules] returns come from the marker lines of
    the transcript, text for text: the content of each is between 10 and 200
    characters of one line, trimmed, and occurs in the transcript; the title
    is its first 150 characters; a todo has priority medium, a bug high, a
    decision none; and the one evidence entry names the session and quotes
    at most 150 characters of the transcript. *)
Theorem rule_items_quote_the_transcript (transcript : string) (session : Session) :
  Forall (marker_item transcript session) (extractWithRules transcript session).
Proof.
  unfold extractWithRules. cbn zeta.
  apply sweep_items; [apply sweep_items; [apply sweep_items; [done|]|]|];
    intros pattern m cap Hp Hm Hcap Hlen;
    (eapply marker_item_built; [| |exact Hm|exact Hcap|exact Hlen]);
    rewrite ?elem_of_cons, ?elem_of_app; auto 10.
Qed.

(** What the strict extractor builds for a session with an identity, the
    validator accepts, save for one check: an item of a marker line is
    rejected exactly when one of the garbage patterns matches its title. *)
Theorem rule_items_fail_on_the_title_only (transcript : string) (session : Session) :
  sess_id session ≠ "" →
  Forall (λ item,
            valid (validateItem item) = negb (title_is_garbage (Js.take 150 (content item))))
    (extractWithRules transcript session).
Proof.
  intros Hid. apply rule_items_all. intros item Hitem.
  pose proof (marker_item_errors transcript session item Hid Hitem) as Herr.
  assert (valid (validateItem item) = true ↔ errors (validateItem item) = []) as Hvalid.
  { unfold validateItem. cbn [valid errors]. rewrite bool_decide_eq_true.
    by rewrite length_zero_iff_nil. }
  destruct (title_is_garbage _).
  - apply not_true_iff_false. rewrite Hvalid, Herr. done.
  - apply Hvalid, Herr. done.
Qed.

Lemma rule_items_fail_on_the_title_only_witness :
  Forall (λ item,
            valid (validateItem item) = negb (title_is_garbage (Js.take 150 (content item))))
    (extractWithRules Example.transcript_text Example.old_session).
Proof.
  apply (rule_items_fail_on_the_title_only Example.transcript_text Example.old_session).
  done.
Defined.

Section SeenSet.

(** The set [seen] holds the text, in lower case, of every item so far, and
    no two items so far have the same text in lower case. *)
Lemma consider_seen b pr session (acc : list Item * gset string) (m : result) :
  NoDup ((λ item, Js.toLowerCase (content item)) <$> acc.1) →
  (∀ item, item ∈ acc.1 → Js.toLowerCase (content item) ∈ acc.2) →
  NoDup ((λ item, Js.toLowerCase (content item)) <$> (consider b pr session acc m).1)
  ∧ (∀ item, item ∈ (consider b pr session acc m).1 →
       Js.toLowerCase (content item) ∈ (consider b pr session acc m).2).
Proof.
  destruct acc as [items seen]. cbn [fst snd]. intros Hnd Hseen. unfold consider.
  destruct (group 1 m) as [cap|]; [|done]. cbn [fmap option_fmap option_map].
  destruct (Js.truthy (Js.trim cap) && (10 <=? String.length (Js.trim cap))%nat
            && negb (bool_decide (Js.toLowerCase (Js.trim cap) ∈ seen))) eqn:E; [|done].
  apply andb_true_iff in E as [_ Hnew%negb_true_iff%bool_decide_eq_false].
  cbn [fst snd]. split.
  - rewrite fmap_app. apply NoDup_app. split; [done|]. split; [|apply NoDup_singleton].
    intros lc Hlc [->|?%elem_of_nil]%elem_of_cons; [|done]. apply Hnew.
    apply list_elem_of_fmap in Hlc as (item & Heq & Hin). cbn [content] in Heq.
    rewrite Heq. by apply Hseen.
  - intros item [Hin|Hin]%elem_of_app.
    + apply elem_of_union. right. by apply Hseen.
    + apply list_elem_of_singleton in Hin as ->. apply elem_of_union. left.
      by apply elem_of_singleton.
Qed.

Lemma sweep_seen patterns b pr transcript session (acc : list Item * gset string) :
  NoDup ((λ item, Js.toLowerCase (content item)) <$> acc.1) →
  (∀ item, item ∈ acc.1 → Js.toLowerCase (content item) ∈ acc.2) →
  NoDup ((λ item, Js.toLowerCase (content item))
           <$> (sweep patterns b pr transcript session acc).1)
  ∧ (∀ item, item ∈ (sweep patterns b pr transcript session acc).1 →
       Js.toLowerCase (content item) ∈ (sweep patterns b pr transcript session acc).2).
Proof.
  unfold sweep. revert acc. induction patterns as [|pattern more IH]; intros acc Hnd Hseen;
    [done|].
  cbn [foldl].
  assert (∀ found acc0,
            NoDup ((λ item, Js.toLowerCase (content item)) <$> acc0.1) →
            (∀ item, item ∈ acc0.1 → Js.toLowerCase (content item) ∈ acc0.2) →
            NoDup ((λ item, Js.toLowerCase (content item))
                     <$> (foldl (consider b pr session) acc0 found).1)
            ∧ (∀ item, item ∈ (foldl (consider b pr session) acc0 found).1 →
                 Js.toLowerCase (content item)
                 ∈ (foldl (consider b pr session) acc0 found).2)) as Hinner.
  { induction found as [|m found IHm]; intros acc0 H1 H2; [done|].
    cbn [foldl]. destruct (consider_seen b pr session acc0 m H1 H2). by apply IHm. }
  destruct (Hinner (exec_all pattern.1 pattern.2 transcript) acc Hnd Hseen). by apply IH.
Qed.

End SeenSet.

(** [extractWithRules] never returns the same text twice: no two of its
    items have the same content up to the case of the letters, whatever
    their markers and buckets. *)
Theorem rule_items_are_distinct (transcript : string) (session : Session) :
  NoDup ((λ item, Js.toLowerCase (content item)) <$> extractWithRules transcript session).
Proof.
  unfold extractWithRules. cbn zeta.
  assert (NoDup ((λ item, Js.toLowerCase (content item)) <$> ([] : list Item))) as H0
    by apply NoDup_nil_2.
  assert (∀ item : Item, item ∈ ([] : list Item) →
            Js.toLowerCase (content item) ∈ (∅ : gset string)) as S0
    by (by intros item ?%elem_of_nil).
  destruct (sweep_seen PATTERNS.todo Todos (Some "medium") transcript session ([], ∅) H0 S0)
    as [H1 S1].
  destruct (sweep_seen PATTERNS.bug Bugs_Open (Some "high") transcript session _ H1 S1)
    as [H2 S2].
  destruct (sweep_seen PATTERNS.decision Decisions None transcript session _ H2 S2)
    as [H3 S3].
  exact H3.
Qed.

(** ** The run: what it reads and what it writes *)
Section ReadingFacts.

Lemma reads_only_refl (w : World) : reads_only w w.
Proof. repeat split. exists []. by rewrite app_nil_r. Qed.

Lemma reads_only_trans (w1 w2 w3 : World) :
  reads_only w1 w2 → reads_only w2 w3 → reads_only w1 w3.
Proof.
  intros (?&?&?&?&?& a1 & Hr1 & Ha1) (?&?&?&?&?& a2 & Hr2 & Ha2).
  split_and!; try congruence. exists (a1 ++ a2). split.
  - by rewrite Hr2, Hr1, (assoc_L (++)).
  - by apply Forall_app.
Qed.

Lemma request_reads {A : Type} t (answer : World → A) (w : World) :
  reads_only w (request t Select answer id w).2.
Proof.
  unfold request. destruct (faults w) as [|[] ?]; cbn; split_and!; try done;
    exists [(t, Select)]; (split; [done|by apply Forall_singleton]).
Qed.

Lemma select_by_id_reads (sid : string) (w : World) : reads_only w (select_by_id sid w).2.
Proof.
  unfold select_by_id, single, mbind, state_bind.
  match goal with
  | |- context [request ?t Select ?a id w] =>
      pose proof (request_reads t a w) as H; destruct (request t Select a id w) as [reply w1]
  end.
  cbn [fst snd] in *. by destruct reply.
Qed.

Lemma select_reads (options : Options) (w : World) :
  reads_only w (SelectSessions.selectSessions options w).2.
Proof.
  unfold SelectSessions.selectSessions.
  destruct (sessionId options) as [[|c sid]|]; try apply select_by_id_reads;
    unfold mbind, state_bind, get, run; cbn [fst snd];
    (destruct (negb _); [apply reads_only_refl|]);
    match goal with
    | |- context [request ?t Select ?a id w] =>
        pose proof (request_reads t a w) as H; destruct (request t Select a id w) as [reply w1]
    end;
    cbn [fst snd] in *; by destruct reply as [[|? ?]|].
Qed.

Lemma with_clean_transcript_reads (filtered : list Session) (w : World) :
  reads_only w (SelectCleaned.with_clean_transcript filtered w).2.
Proof.
  revert w. induction filtered as [|session more IH]; intros w; [apply reads_only_refl|].
  cbn [SelectCleaned.with_clean_transcript].
  unfold mbind, state_bind, clean_transcript_of.
  match goal with
  | |- context [request ?t Select ?a id w] =>
      pose proof (request_reads t a w) as H; destruct (request t Select a id w) as [reply w1]
  end.
  specialize (IH w1).
  destruct (SelectCleaned.with_clean_transcript more w1) as [valid w2].
  cbn [fst snd] in *.
  assert (reads_only w w2) by by eapply reads_only_trans.
  by destruct reply as [[?|]|].
Qed.

Lemma cleaned_select_reads (options : Options) (w : World) :
  reads_only w (SelectCleaned.selectSessions options w).2.
Proof.
  unfold SelectCleaned.selectSessions.
  destruct (sessionId options) as [[|c sid]|]; try apply select_by_id_reads;
    unfold mbind, state_bind, get, run; cbn [fst snd];
    (destruct (negb _); [apply reads_only_refl|]);
    match goal with
    | |- context [request ?t Select ?a id w] =>
        pose proof (request_reads t a w) as H; destruct (request t Select a id w) as [reply w1]
    end;
    cbn [fst snd] in *; destruct reply as [[|s0 more]|]; try done;
    match goal with
    | |- context [SelectCleaned.with_clean_transcript ?l ?w'] =>
        pose proof (with_clean_transcript_reads l w') as H1;
        destruct (SelectCleaned.with_clean_transcript l w') as [valid w2]
    end; cbn [fst snd] in *; by eapply reads_only_trans.
Qed.

Lemma loadTranscript_reads (sessionId : string) (w : World) :
  reads_only w (loadTranscript sessionId w).2.
Proof.
  unfold loadTranscript, mbind, state_bind, clean_transcript_of, single.
  match goal with
  | |- context [request ?t Select ?a id w] =>
      pose proof (request_reads t a w) as H1; destruct (request t Select a id w) as [reply w1]
  end.
  cbn [fst snd] in *. destruct reply as [[ct|]|]; try done.
  destruct (negb _); [done|].
  match goal with
  | |- context [request ?t Select ?a id w1] =>
      pose proof (request_reads t a w1) as H2; destruct (request t Select a id w1) as [meta w2]
  end.
  cbn [fst snd] in *. by eapply reads_only_trans.
Qed.

End ReadingFacts.

Section DryRunFacts.

Lemma process_dry_reads (session : Session) (stats : Stats) (w : World) :
  reads_only w (process true session stats w).2.
Proof.
  unfold process, mbind, state_bind.
  pose proof (loadTranscript_reads (sess_id session) w) as Hload.
  destruct (loadTranscript (sess_id session) w) as [[tr|] w1]; cbn [fst snd] in *; [|done].
  destruct (negb _); [done|].
  destruct (validateItems _) as [valid invalid].
  by case_bool_decide.
Qed.

Lemma process_all_dry_reads (selected : list Session) (stats : Stats) (w : World) :
  reads_only w (process_all true selected stats w).2.
Proof.
  revert stats w. induction selected as [|session more IH]; intros stats w;
    [apply reads_only_refl|].
  cbn [process_all]. unfold mbind, state_bind.
  pose proof (process_dry_reads session stats w) as Hfirst.
  destruct (process true session stats w) as [stats' w1]. cbn [fst snd] in *.
  eapply reads_only_trans; [exact Hfirst|apply IH].
Qed.

Lemma extract_dry_reads (select : Options → State (list Session)) (command : Command)
    (w : World) :
  (∀ options, reads_only w (select options w).2) →
  cmd_dryRun command = true →
  reads_only w (extract select command w).2.
Proof.
  intros Hsel Hdry. unfold extract, mbind, state_bind, mret, state_ret.
  case_bool_decide; [apply reads_only_refl|]. rewrite Hdry.
  match goal with
  | |- context [(if ?c then select ?o1 else select ?o2) w] =>
      assert (∃ options, (if c then select o1 else select o2) w = select options w)
        as (options & ->) by (destruct c; eauto)
  end.
  specialize (Hsel options).
  destruct (select options w) as [selected w1]. cbn [fst snd] in *.
  pose proof (process_all_dry_reads selected (mkStats (length selected) 0 0 0 0 0 0 0) w1)
    as Hall.
  destruct (process_all _ _ _ w1) as [stats w2]. cbn [fst snd] in *.
  by eapply reads_only_trans.
Qed.

End DryRunFacts.

(** A dry run only reads the store: with [--dry-run], whatever the other
    options and whatever the store answers, the session table and the
    staging table are after the run what they were before, and every request
    of the run is a selection. *)
Theorem dry_run_only_reads (command : Command) (w : World) :
  cmd_dryRun command = true →
  reads_only w (extract SelectSessions.selectSessions command w).2
  ∧ reads_only w (extract SelectCleaned.selectSessions command w).2.
Proof.
  intros Hdry. split; apply extract_dry_reads; try done; intros options.
  - apply select_reads.
  - apply cleaned_select_reads.
Qed.

Lemma dry_run_only_reads_witness :
  reads_only Example.store
    (extract SelectSessions.selectSessions Sample.dry_command Example.store).2.
Proof.
  apply (dry_run_only_reads Sample.dry_command Example.store). reflexivity.
Defined.

Section MarkingFacts.

Lemma markExtracted_cases sessionId version created skipped (w : World) :
  let metadata := mkExtractionMetadata version created skipped "jason-v1" (clock w) in
  (¬ next_request_succeeds w
   ∧ markExtracted sessionId version created skipped w
     = (false, note_request dev_ai_sessions Update w))
  ∨ (next_request_succeeds w
     ∧ markExtracted sessionId version created skipped w
       = (true,
          set_sessions
            ((λ s, if bool_decide (sess_id s = sessionId)
                   then extracted metadata (clock w) s else s) <$> sessions w)
            (note_request dev_ai_sessions Update w))).
Proof.
  cbn zeta. unfold next_request_succeeds, markExtracted, update_session, request, get,
    mbind, state_bind, mret, state_ret. cbn [fst snd].
  destruct (faults w) as [|[] ?]; cbn; [right|left|right]; split; try done.
  intros Hn. by apply Hn.
Qed.

End MarkingFacts.

(** [markExtracted] closes a session for the window mode.  When the store
    answers, it returns true; the sessions with that identity get the status
    [extracted] and the time of the call, the others stay as they were, and
    it is no error when no session has the identity.  In the store that the
    call leaves, no selection by window of either selector returns a session
    with that identity.
    When the store fails, it returns false and the table is untouched. *)
Theorem markExtracted_closes_the_session
    (sessionId version : string) (created skipped : nat) (w : World) :
  let out := markExtracted sessionId version created skipped w in
  (next_request_succeeds w →
   out.1 = true
   ∧ length (sessions out.2) = length (sessions w)
   ∧ (∀ s, s ∈ sessions out.2 → sess_id s = sessionId →
        sess_status s = "extracted" ∧ sess_extracted_at s = Some (clock w))
   ∧ (∀ s, sess_id s ≠ sessionId → s ∈ sessions out.2 ↔ s ∈ sessions w)
   ∧ (∀ options s,
        by_window options →
        s ∈ (SelectSessions.selectSessions options out.2).1
        ∨ s ∈ (SelectCleaned.selectSessions options out.2).1 →
        sess_id s ≠ sessionId))
  ∧ (head (faults w) = Some true → out.1 = false ∧ sessions out.2 = sessions w).
Proof.
  cbn zeta.
  destruct (markExtracted_cases sessionId version created skipped w)
    as [[Hfail ->] | [Hok ->]]; cbn [fst snd]; split.
  - by intros ?.
  - done.
  - intros _. cbn [sessions set_sessions].
    set (mark := λ s, if bool_decide (sess_id s = sessionId) then _ else s).
    assert (∀ s, s ∈ mark <$> sessions w → sess_id s = sessionId →
                 sess_status s = "extracted" ∧ sess_extracted_at s = Some (clock w))
      as Hmarked.
    { intros s (s0 & -> & Hin)%list_elem_of_fmap. unfold mark.
      case_bool_decide; [done|]. by intros ?. }
    split_and!; try done.
    + by rewrite length_fmap.
    + intros s Hne. rewrite list_elem_of_fmap. split.
      * intros (s0 & -> & Hin). unfold mark in *.
        case_bool_decide; [|done]. by cbn in Hne.
      * intros Hin. exists s. split; [|done]. unfold mark. by rewrite bool_decide_false.
    + intros options s Hw Hs Hid.
      assert (s ∈ mark <$> sessions w ∧ sess_status s ≠ "extracted") as [Hin Hst].
      { destruct Hs as [Hs|Hs].
        - apply window_selected in Hs; [|done].
          apply truth_gate_spec in Hs as [Hs _]. apply rows_of_elem in Hs as [Hin Hs].
          split; [done|]. by eapply window_query_excludes_extracted.
        - apply cleaned_window_selected in Hs; [|done].
          apply truth_gate_spec in Hs as [Hs _]. apply rows_of_elem in Hs as [Hin Hs].
          split; [done|]. by eapply cleaned_query_excludes_extracted. }
      by destruct (Hmarked s Hin Hid).
  - intros Hf. exfalso. apply Hok. done.
Qed.

Lemma markExtracted_closes_the_session_witness :
  (markExtracted "s-1" "1.0.0" 3 0 Example.store).1 = true
  ∧ (markExtracted "s-1" "1.0.0" 3 0 Sample.failing_store).1 = false.
Proof.
  split.
  - apply (proj1 (markExtracted_closes_the_session "s-1" "1.0.0" 3 0 Example.store)). done.
  - apply (proj2 (markExtracted_closes_the_session "s-1" "1.0.0" 3 0 Sample.failing_store)).
    reflexivity.
Defined.

(** What [loadTranscript] returns is the clean text on record: a result
    always has a content that is not empty, the text of the first clean
    transcript of the session, with its file references.  There is no
    result when the lookup fails, when no clean transcript is on record or
    when its text is empty; but a failure of the second lookup, of the
    session, only leaves the summary and the slug undefined. *)
Theorem loadTranscript_returns_the_clean_text (sessionId : string) (w : World) :
  let found := head (filter (λ t, ct_session_id t = sessionId) (clean_transcripts w)) in
  (∀ tr, (loadTranscript sessionId w).1 = Some tr →
     tr_content tr ≠ ""
     ∧ tr_source tr = "dev_ai_clean_transcripts"
     ∧ ∃ ct, found = Some ct
             ∧ tr_content tr = ct_clean_text ct ∧ tr_fileRefs tr = ct_file_refs ct)
  ∧ (head (faults w) = Some true ∨ found = None
     ∨ (∃ ct, found = Some ct ∧ ct_clean_text ct = "") →
     (loadTranscript sessionId w).1 = None)
  ∧ (next_request_succeeds w →
     ∀ ct, found = Some ct → ct_clean_text ct ≠ "" →
       ∃ tr, (loadTranscript sessionId w).1 = Some tr
             ∧ (¬ next_request_succeeds (note_request dev_ai_clean_transcripts Select w) →
                tr_summary tr = None ∧ tr_slug tr = None)).
Proof.
  cbn zeta. unfold next_request_succeeds, loadTranscript, clean_transcript_of, single,
    request, mbind, state_bind, mret, state_ret. cbn [fst snd].
  destruct (faults w) as [|[] fs] eqn:Hf; simpl;
    (destruct (head (filter _ (clean_transcripts w))) as [ct|]; simpl;
     [destruct (ct_clean_text ct) as [|c text] eqn:Ht; simpl|]);
    rewrite ?Hf; simpl; try destruct fs as [|[] fs']; simpl; split_and!;
    try (intros tr Htr; try done; injection Htr as <-; simpl; split_and!; try done;
         exists ct; by rewrite Ht);
    try (intros [?|[?|(ct' & Hct & Hempty)]]; try done; congruence);
    intros Hok ct' Hct Hne; try (exfalso; by apply Hok); try congruence;
    eexists; (split; [done|]); intros Hn; first [done | exfalso; by apply Hn].
Qed.

Lemma loadTranscript_returns_the_clean_text_witness :
  (loadTranscript "s-1" Sample.failing_store).1 = None
  ∧ ∃ tr, (loadTranscript "s-1" Example.store).1 = Some tr
          ∧ (¬ next_request_succeeds
                 (note_request dev_ai_clean_transcripts Select Example.store) →
             tr_summary tr = None ∧ tr_slug tr = None).
Proof.
  split.
  - apply (proj1 (proj2 (loadTranscript_returns_the_clean_text "s-1" Sample.failing_store))).
    left. reflexivity.
  - apply (proj2 (proj2 (loadTranscript_returns_the_clean_text "s-1" Example.store))
             ltac:(done) (mkCleanTranscript "s-1" Example.transcript_text [])).
    + reflexivity.
    + done.
Defined.

Section ProcessFacts.

Lemma request_answers {A : Type} t v (answer : World → A) (effect : World → World) w :
  (∀ w0, faults (effect w0) = faults w0) →
  store_answers w → store_answers (request t v answer effect w).2.
Proof.
  intros Heff Hw. apply (store_answers_note t v) in Hw. unfold request.
  destruct (faults w) as [|[] ?]; cbn [snd]; try done; unfold store_answers; by rewrite Heff.
Qed.

Lemma loadTranscript_answers (sessionId : string) (w : World) :
  store_answers w → store_answers (loadTranscript sessionId w).2.
Proof.
  intros Hw. unfold loadTranscript, mbind, state_bind, clean_transcript_of, single.
  match goal with
  | |- context [request ?t ?v ?a ?e w] =>
      pose proof (request_answers t v a e w (λ _, eq_refl) Hw) as H1;
      destruct (request t v a e w) as [reply w1]
  end.
  cbn [fst snd] in *. destruct reply as [[ct|]|]; try done.
  destruct (negb _); [done|].
  match goal with
  | |- context [request ?t ?v ?a ?e w1] =>
      pose proof (request_answers t v a e w1 (λ _, eq_refl) H1) as H2;
      destruct (request t v a e w1) as [meta w2]
  end.
  done.
Qed.

Lemma insertStaging_answers items sessionId projectSlug (w : World) :
  store_answers w → store_answers (insertStaging items sessionId projectSlug w).2.
Proof.
  intros Hw. pose proof (resolved_effect projectSlug w) as (_ & _ & Hans).
  destruct (insertStaging_paths items sessionId projectSlug w)
    as [[-> _] | (pid & _ & _ & _ & ->)]; [by apply Hans|].
  destruct (stage_outcome items sessionId projectSlug pid (mkStaged 0 0 0 None)
              ((if Js.truthy (default "" projectSlug) then resolveProjectId projectSlug
                else mret None) w).2)
    as (new & _ & _ & _ & _ & _ & Hok).
  by destruct Hok as (? & _); [apply Hans|].
Qed.

Lemma insertStaging_sessions items sessionId projectSlug (w : World) :
  sessions (insertStaging items sessionId projectSlug w).2 = sessions w.
Proof.
  assert (sessions ((if Js.truthy (default "" projectSlug) then resolveProjectId projectSlug
                     else mret None) w).2 = sessions w) as Hs.
  { destruct (Js.truthy _); [|done].
    by pose proof (resolve_effect projectSlug w) as (_ & ? & _). }
  destruct (insertStaging_paths items sessionId projectSlug w)
    as [[-> _] | (pid & _ & _ & _ & ->)]; [done|].
  destruct (stage_outcome items sessionId projectSlug pid (mkStaged 0 0 0 None)
              ((if Js.truthy (default "" projectSlug) then resolveProjectId projectSlug
                else mret None) w).2)
    as (new & _ & (Hsess & _) & _).
  by rewrite Hsess.
Qed.

Lemma unresolved_stages_nothing items sessionId projectSlug (w : World) :
  (resolveProjectId projectSlug w).1 = None →
  extractions (insertStaging items sessionId projectSlug w).2 = extractions w.
Proof.
  intros Hnone. pose proof (resolved_effect projectSlug w) as (He & _ & _).
  destruct (insertStaging_paths items sessionId projectSlug w)
    as [[-> _] | (pid & _ & _ & Hres & _)]; [done|congruence].
Qed.

End ProcessFacts.

(** In a run that writes, a session is either skipped, and then the store
    has only been read and the counters stay, or it is counted as processed
    and marked [extracted].  The mark does not depend on what was staged:
    when the project of the session does not resolve, the session is marked
    all the same, with no row staged for it. *)
Theorem processed_sessions_are_marked (session : Session) (stats : Stats) (w : World) :
  store_answers w →
  let out := process false session stats w in
  (out.1 = stats ∧ reads_only w out.2)
  ∨ (sessions_processed out.1 = S (sessions_processed stats)
     ∧ (∀ s, s ∈ sessions out.2 → sess_id s = sess_id session →
          sess_status s = "extracted")
     ∧ ((resolveProjectId (sess_project_slug session)
           (loadTranscript (sess_id session) w).2).1 = None →
        extractions out.2 = extractions w)).
Proof.
  intros Hw. cbn zeta. unfold process, mbind, state_bind.
  pose proof (loadTranscript_reads (sess_id session) w) as Hload.
  pose proof (loadTranscript_answers (sess_id session) w Hw) as Hans.
  destruct (loadTranscript (sess_id session) w) as [[tr|] w1]; cbn [fst snd] in *;
    [|by left].
  destruct (negb _); [by left|].
  destruct (validateItems _) as [valid invalid].
  case_bool_decide; [by left|]. right. cbn [fst snd].
  pose proof (insertStaging_answers valid (sess_id session) (sess_project_slug session) w1
                Hans) as Hans2.
  pose proof (insertStaging_sessions valid (sess_id session) (sess_project_slug session) w1)
    as Hsess.
  pose proof (unresolved_stages_nothing valid (sess_id session)
                (sess_project_slug session) w1) as Hnone.
  destruct (insertStaging valid _ _ w1) as [staged w2]. cbn [fst snd] in *.
  destruct (markExtracted_cases (sess_id session) "1.0.0" (inserted staged)
              (duplicates staged) w2) as [[Hfail _] | [_ ->]];
    [exfalso; by apply Hfail, store_answers_next|].
  unfold mret, state_ret. cbn [fst snd sessions set_sessions extractions note_request].
  split_and!.
  - set (counted := add_duplicates _ _).
    assert (sessions_processed counted = sessions_processed stats) as <-.
    { unfold counted. clear. generalize dependent stats.
      induction valid as [|item more IH]; intros stats.
      - by destruct stats.
      - cbn [foldl]. rewrite IH. unfold count_item. destruct stats.
        repeat case_bool_decide; try done; by destruct (_ || _). }
    by destruct counted.
  - intros s (s0 & -> & Hin)%list_elem_of_fmap. case_bool_decide; [done|]. by intros ?.
  - intros Hnores. rewrite Hnone by done.
    by destruct Hload as (_ & _ & ? & _).
Qed.

Lemma processed_sessions_are_marked_witness :
  let out :=
    process false Sample.orphan_session (mkStats 1 0 0 0 0 0 0 0) Sample.orphan_store in
  (out.1 = mkStats 1 0 0 0 0 0 0 0 ∧ reads_only Sample.orphan_store out.2)
  ∨ (sessions_processed out.1 = 1%nat
     ∧ (∀ s, s ∈ sessions out.2 → sess_id s = "s-9" → sess_status s = "extracted")
     ∧ ((resolveProjectId (Some "nowhere")
           (loadTranscript "s-9" Sample.orphan_store).2).1 = None →
        extractions out.2 = [])).
Proof.
  apply (processed_sessions_are_marked Sample.orphan_session (mkStats 1 0 0 0 0 0 0 0)
           Sample.orphan_store).
  apply Forall_nil. exact I.
Defined.

(** The run accepts only slugs that begin with an allowed slug.  The slugs
    that it keeps from [--slugs] are trimmed, not empty, and each begins
    with one of [ALLOWED_SLUGS]; when none is left the command exits with
    code 1 before any request to the store, also when a session is named
    with [--session]. *)
Theorem run_needs_an_allowed_slug
    (select : Options → State (list Session)) (command : Command) (w : World) :
  (∀ slug, slug ∈ validSlugs (cmd_slugs command) →
     slug ≠ "" ∧ Js.trim slug = slug
     ∧ ∃ allowed rest, allowed ∈ ALLOWED_SLUGS ∧ slug = allowed +:+ rest)
  ∧ (validSlugs (cmd_slugs command) = [] → extract select command w = (Exit 1, w)).
Proof.
  split.
  - intros slug Hin. unfold validSlugs in Hin.
    apply list_elem_of_In, filter_In in Hin as [Hin Hallowed].
    apply filter_In in Hin as [Hin Htruthy].
    apply list_elem_of_In, list_elem_of_fmap in Hin as (part & -> & _).
    split; [by apply truthy_spec|]. split; [apply trim_trim|].
    apply existsb_exists in Hallowed as (allowed & Hal & Hstarts).
    apply startsWith_spec in Hstarts as (rest & Hrest).
    exists allowed, rest. split; [by apply list_elem_of_In|done].
  - intros Hnone. unfold extract. by rewrite Hnone.
Qed.

Lemma run_needs_an_allowed_slug_witness :
  ("nextbid" ≠ "" ∧ Js.trim "nextbid" = "nextbid"
   ∧ ∃ allowed rest, allowed ∈ ALLOWED_SLUGS ∧ "nextbid" = allowed +:+ rest)
  ∧ extract SelectSessions.selectSessions Sample.foreign_command Example.store
    = (Exit 1, Example.store).
Proof.
  split.
  - apply (proj1 (run_needs_an_allowed_slug SelectSessions.selectSessions
                    default_command Example.store)).
    apply list_elem_of_In. vm_compute. auto 20.
  - apply (proj2 (run_needs_an_allowed_slug SelectSessions.selectSessions
                    Sample.foreign_command Example.store)).
    reflexivity.
Defined.

Section ReportFacts.

Lemma count_item_counts (stats : Stats) (item : Item) :
  sessions_scanned (count_item stats item) = sessions_scanned stats
  ∧ sessions_processed (count_item stats item) = sessions_processed stats
  ∧ worklogs (count_item stats item)
    = (worklogs stats + if bool_decide (bucket item = "Work Log") then 1 else 0)%nat.
Proof.
  unfold count_item. destruct stats as [sc pr t b wl d du er].
  repeat case_bool_decide; try congruence; cbn; split_and!; try done; lia.
Qed.

Lemma count_items_counts (stats : Stats) (items : list Item) :
  sessions_scanned (foldl count_item stats items) = sessions_scanned stats
  ∧ sessions_processed (foldl count_item stats items) = sessions_processed stats
  ∧ worklogs (foldl count_item stats items)
    = (worklogs stats + length (filter (λ item, bucket item = "Work Log") items))%nat.
Proof.
  revert stats. induction items as [|item more IH]; intros stats.
  - cbn. split_and!; try done; lia.
  - cbn [foldl]. destruct (IH (count_item stats item)) as (-> & -> & ->).
    destruct (count_item_counts stats item) as (-> & -> & ->).
    split_and!; try done. rewrite filter_cons.
    case_bool_decide; [rewrite decide_True by done|rewrite decide_False by done];
      cbn [length]; lia.
Qed.

Lemma length_filter_impl {A : Type} (P Q : A → Prop)
    `{∀ x, Decision (P x)} `{∀ x, Decision (Q x)} (l : list A) :
  (∀ x, P x → Q x) → (length (filter P l) ≤ length (filter Q l))%nat.
Proof.
  intros HPQ. induction l as [|x l IH]; [done|]. rewrite !filter_cons.
  destruct (decide (P x)) as [HP|HP].
  - rewrite decide_True by auto. cbn [length]. lia.
  - destruct (decide (Q x)); cbn [length]; lia.
Qed.

Lemma one_worklog_at_most (transcript : option Transcript) (session : Session) :
  (length (filter (λ item, bucket item = "Work Log")
             (validateItems (extractItems transcript session)).1) ≤ 1)%nat.
Proof.
  unfold validateItems. rewrite validateItems_from. cbn [fst app].
  rewrite list_filter_filter.
  etrans; [apply (length_filter_impl _ (λ item, bucket item = "Work Log"))|].
  - intros item [? _]. done.
  - unfold extractItems. destruct transcript as [tr|]; [|cbn; lia].
    destruct (negb _); [cbn; lia|]. cbn [app]. rewrite filter_cons.
    assert (filter (λ item, bucket item = "Work Log") (extractWithRules (tr_content tr) session)
            = []) as ->.
    { pose proof (rule_items_buckets (tr_content tr) session) as Hb.
      induction Hb as [|item more Hitem _ IH]; [done|].
      rewrite filter_cons, decide_False; [done|].
      rewrite !elem_of_cons, elem_of_nil in Hitem.
      destruct Hitem as [->|[->|[->|[]]]]; done. }
    destruct (decide _); cbn; lia.
Qed.

End ReportFacts.

Section CounterFacts.

Lemma process_counts (dryRun : bool) (session : Session) (stats : Stats) (w : World) :
  let out := (process dryRun session stats w).1 in
  sessions_scanned out = sessions_scanned stats
  ∧ (sessions_processed stats ≤ sessions_processed out)%nat
  ∧ (worklogs out + sessions_processed stats ≤ worklogs stats + sessions_processed out)%nat.
Proof.
  cbn zeta. unfold process, mbind, state_bind, mret, state_ret.
  destruct (loadTranscript (sess_id session) w) as [[tr|] w1]; cbn [fst snd];
    [|split_and!; try done; lia].
  destruct (negb _); [cbn; split_and!; try done; lia|].
  pose proof (one_worklog_at_most (Some tr) session) as Hone.
  destruct (validateItems _) as [valid invalid]. cbn [fst] in Hone.
  case_bool_decide; [cbn; split_and!; try done; lia|].
  destruct (count_items_counts stats valid) as (Hsc & Hpr & Hwl).
  assert (∀ counted (w' : World),
            sessions_scanned counted = sessions_scanned (foldl count_item stats valid) →
            sessions_processed counted = sessions_processed (foldl count_item stats valid) →
            worklogs counted = worklogs (foldl count_item stats valid) →
            sessions_scanned (add_processed counted) = sessions_scanned stats
            ∧ (sessions_processed stats
               ≤ sessions_processed (add_processed counted))%nat
            ∧ (worklogs (add_processed counted) + sessions_processed stats
               ≤ worklogs stats + sessions_processed (add_processed counted))%nat)
    as Hdone.
  { intros counted w' H1 H2 H3.
    destruct counted as [sc pr t b wl d du er]. cbn in *. split_and!; lia. }
  destruct dryRun; [by apply Hdone|].
  destruct (insertStaging valid _ _ w1) as [staged w2]. cbn [fst snd].
  destruct (markExtracted _ _ _ _ w2) as [ok w3]. cbn [fst snd].
  apply Hdone; by destruct (foldl count_item stats valid).
Qed.

Lemma process_marks_one (dryRun : bool) (session : Session) (stats : Stats) (w : World) :
  (sessions_processed (process dryRun session stats w).1 ≤ S (sessions_processed stats))%nat.
Proof.
  unfold process, mbind, state_bind, mret, state_ret.
  destruct (loadTranscript (sess_id session) w) as [[tr|] w1]; cbn [fst snd]; [|lia].
  destruct (negb _); [cbn; lia|].
  destruct (validateItems _) as [valid invalid].
  case_bool_decide; [cbn; lia|].
  destruct (count_items_counts stats valid) as (_ & Hpr & _).
  assert (∀ counted (w' : World),
            sessions_processed counted = sessions_processed (foldl count_item stats valid) →
            (sessions_processed (add_processed counted)
             ≤ S (sessions_processed stats))%nat) as Hdone.
  { intros counted w' H2.
    destruct counted as [sc pr t b wl d du er]. cbn in *. lia. }
  destruct dryRun; [by apply Hdone|].
  destruct (insertStaging valid _ _ w1) as [staged w2]. cbn [fst snd].
  destruct (markExtracted _ _ _ _ w2) as [ok w3]. cbn [fst snd].
  apply Hdone; by destruct (foldl count_item stats valid).
Qed.

Lemma process_all_counts (dryRun : bool) (selected : list Session) (stats : Stats)
    (w : World) :
  let out := (process_all dryRun selected stats w).1 in
  sessions_scanned out = sessions_scanned stats
  ∧ (sessions_processed out ≤ sessions_processed stats + length selected)%nat
  ∧ (worklogs out + sessions_processed stats ≤ worklogs stats + sessions_processed out)%nat.
Proof.
  cbn zeta. revert stats w. induction selected as [|session more IH]; intros stats w.
  - cbn. split_and!; try done; lia.
  - cbn [process_all]. unfold mbind, state_bind.
    pose proof (process_counts dryRun session stats w) as (H1 & H2 & H3).
    pose proof (process_marks_one dryRun session stats w) as H4.
    destruct (process dryRun session stats w) as [stats1 w1]. cbn [fst snd] in *.
    destruct (IH stats1 w1) as (H5 & H6 & H7). cbn [length]. split_and!; [congruence|lia|lia].
Qed.

End CounterFacts.

Section ReportShape.

Lemma extract_report (select : Options → State (list Session)) (command : Command)
    (w : World) (stats : Stats) :
  (extract select command w).1 = Report stats →
  (worklogs stats ≤ sessions_processed stats ≤ sessions_scanned stats)%nat
  ∧ ∃ options,
      sessions_scanned stats = length (select options w).1
      ∧ sessionId options
        = (if Js.truthy (default "" (cmd_session command)) then cmd_session command
           else None)
      ∧ limit options
        = (if Js.truthy (default "" (cmd_session command)) then 10%nat
           else Z.to_nat (Js.parseInt (cmd_limit command))).
Proof.
  unfold extract, mbind, state_bind, mret, state_ret.
  case_bool_decide; [done|].
  match goal with
  | |- context [(if ?c then select ?o1 else select ?o2) w] =>
      assert (∃ options, (if c then select o1 else select o2) w = select options w
                ∧ sessionId options = (if c then cmd_session command else None)
                ∧ limit options
                  = (if c then 10%nat else Z.to_nat (Js.parseInt (cmd_limit command))))
        as (options & -> & Hid & Hlimit) by (destruct c; eauto)
  end.
  destruct (select options w) as [selected w1] eqn:Hsel. cbn [fst snd].
  pose proof (process_all_counts (cmd_dryRun command) selected
                (mkStats (length selected) 0 0 0 0 0 0 0) w1) as (H1 & H2 & H3).
  destruct (process_all _ _ _ w1) as [final w2].
  cbn [fst snd sessions_scanned sessions_processed worklogs] in *.
  intros [= <-]. split; [lia|]. exists options. rewrite Hsel. by split_and!.
Qed.

End ReportShape.

(** The counters of the report are consistent: a run counts at most one
    work log for each session that it processed, and it processed no more
    sessions than it scanned.  By window it scanned at most [--limit]
    sessions, for a limit that [parseInt] reads as a count [n], white space
    and a plus sign in front included; with [--session] at most one. *)
Theorem run_report_is_consistent (command : Command) (w : World) (stats : Stats) :
  (extract SelectSessions.selectSessions command w).1 = Report stats
  ∨ (extract SelectCleaned.selectSessions command w).1 = Report stats →
  (worklogs stats ≤ sessions_processed stats ≤ sessions_scanned stats)%nat
  ∧ (run_by_window command →
     ∀ n : nat, Js.parseInt (cmd_limit command) = Z.of_nat n →
       (sessions_scanned stats ≤ n)%nat)
  ∧ (∀ sid, cmd_session command = Some sid → sid ≠ "" →
       (sessions_scanned stats ≤ 1)%nat).
Proof.
  intros Hreport.
  assert ((worklogs stats ≤ sessions_processed stats ≤ sessions_scanned stats)%nat
          ∧ ∃ options,
              (sessions_scanned stats = length (SelectSessions.selectSessions options w).1
               ∨ sessions_scanned stats = length (SelectCleaned.selectSessions options w).1)
              ∧ sessionId options
                = (if Js.truthy (default "" (cmd_session command)) then cmd_session command
                   else None)
              ∧ limit options
                = (if Js.truthy (default "" (cmd_session command)) then 10%nat
                   else Z.to_nat (Js.parseInt (cmd_limit command))))
    as (Hcount & options & Hscanned & Hid & Hlimit).
  { destruct Hreport as [H|H]; apply extract_report in H as (? & options & ? & ? & ?);
      (split; [done|]); exists options; auto. }
  split; [done|]. split.
  - intros Hwin n Hn.
    assert (Js.truthy (default "" (cmd_session command)) = false) as Hmode
      by by destruct Hwin as [-> | ->].
    rewrite Hmode in Hid, Hlimit. rewrite Hn, Nat2Z.id in Hlimit. rewrite <- Hlimit.
    assert (by_window options) as Hw by by left.
    destruct Hscanned as [-> | ->]; [|by apply cleaned_window_length].
    destruct (window_result options w Hw) as [[-> | ->] _]; cbn [length]; [lia|].
    rewrite length_take. lia.
  - intros sid Hsid Hne.
    assert (Js.truthy (default "" (cmd_session command)) = true) as Hmode
      by (rewrite Hsid; by destruct sid).
    rewrite Hmode, Hsid in Hid.
    assert (length (select_by_id sid w).1 ≤ 1)%nat as Hlen.
    { destruct (select_by_id_cases sid w) as [-> | ->]; cbn [length]; [lia|].
      destruct (head _); cbn; lia. }
    unfold SelectSessions.selectSessions, SelectCleaned.selectSessions in Hscanned.
    rewrite Hid in Hscanned. destruct sid as [|c sid]; [done|].
    destruct Hscanned as [-> | ->]; done.
Qed.

Lemma run_report_is_consistent_witness :
  (sessions_scanned (mkStats 1 1 1 1 1 0 0 0) ≤ 1)%nat.
Proof.
  apply (proj1 (proj2 (run_report_is_consistent Sample.one_command Example.store
                         (mkStats 1 1 1 1 1 0 0 0) ltac:(left; by vm_compute)))).
  - by left.
  - reflexivity.
Defined.

(** ** The work log and the validator *)
Section TitleFacts.

Lemma alpha_not_space (c : ascii) : Js.is_alpha c = true → Js.is_space c = false.
Proof. destruct c as [[] [] [] [] [] [] [] []]; by vm_compute. Qed.

Lemma starts_like_plain fl (word s : string) :
  ignoreCase fl = false → starts_like fl word s = Js.startsWith s word.
Proof.
  intros Hfl. revert s. induction word as [|c word IH]; intros [|x s]; cbn; try done.
  unfold chr_eq. rewrite Hfl, IH. done.
Qed.

Lemma test_anchored_false (r : regex) (t : string) :
  match_here no_flags (Seq Bol r) (Cursor None t 0) = None →
  test no_flags (Seq Bol r) t = false.
Proof.
  intros H. unfold test. rewrite exec_anchored by done. rewrite H.
  apply bool_decide_eq_false. by intros [? ?].
Qed.

Lemma match_here_none fl r cur :
  rmatch fl r (λ cur' caps, Some (cur', caps)) cur ∅ = None → match_here fl r cur = None.
Proof. intros H. unfold match_here. by rewrite H. Qed.

(** A title that begins with a letter, and not with the letters [http], is
    no garbage. *)
Lemma lettered_title_is_sound (c : ascii) (t : string) :
  Js.is_alpha c = true →
  Js.startsWith (String c t) "http" = false →
  title_is_garbage (String c t) = false.
Proof.
  intros Hc Hhttp. unfold title_is_garbage, garbagePatterns. cbn [existsb].
  rewrite !orb_false_iff. unfold Cat. cbn [foldr].
  split_and!; try done; apply test_anchored_false, match_here_none;
    (destruct (rmatch _ _ _ _ _) as [res|] eqn:E; [exfalso|done]);
    rewrite rmatch_seq in E; apply rmatch_bol_inv in E as [_ E].
  - rewrite rmatch_seq in E. apply rmatch_chr_inv in E as (x & s' & Hs & Hx & _).
    cbn in Hs. injection Hs as <- <-. unfold chr_eq in Hx. cbn in Hx.
    apply bool_decide_eq_true in Hx as <-. done.
  - rewrite rmatch_seq in E. apply rmatch_chr_inv in E as (x & s' & Hs & Hx & _).
    cbn in Hs. injection Hs as <- <-. unfold chr_eq in Hx. cbn in Hx.
    apply bool_decide_eq_true in Hx as <-. done.
  - rewrite rmatch_seq in E. apply rmatch_lit_inv in E as [Hlike _].
    rewrite starts_like_plain in Hlike by done. cbn [Regex.rest] in Hlike. congruence.
  - rewrite rmatch_seq in E. apply rmatch_rep_inv in E as (ws & s' & Hs & Hws & _ & _ & E).
    rewrite rmatch_seq in E. apply rmatch_eol_inv in E as [Heol _].
    cbn [Regex.rest] in Hs. unfold at_eol in Heol. cbn in Heol.
    destruct s'; [|done]. rewrite append_empty_r in Hs. subst ws.
    cbn in Hws. apply andb_true_iff in Hws as [Hsp _].
    by rewrite alpha_not_space in Hsp.
  - rewrite rmatch_seq in E. apply rmatch_rep_inv in E as (ws & s' & Hs & Hws & _ & _ & E).
    rewrite rmatch_seq in E. apply rmatch_eol_inv in E as [Heol _].
    cbn [Regex.rest] in Hs. unfold at_eol in Heol. cbn in Heol.
    destruct s'; [|done]. rewrite append_empty_r in Hs. subst ws.
    cbn in Hws. apply andb_true_iff in Hws as [Hna _]. by rewrite Hc in Hna.
Qed.

End TitleFacts.

Section TopicFacts.

Lemma search_elem fl r p s i (m : result) :
  search fl r p s i = Some m →
  ∃ pre p' s',
    s = pre +:+ s' ∧ match_here fl r (Cursor p' s' (i + String.length pre)) = Some m.
Proof.
  revert p i. induction s as [|c s IH]; intros p i; cbn [search].
  - destruct (match_here fl r (Cursor p "" i)) as [m'|] eqn:E; [|done].
    intros [= <-]. exists "", p, "". by rewrite Nat.add_0_r.
  - destruct (match_here fl r (Cursor p (String c s) i)) as [m'|] eqn:E.
    + intros [= <-]. exists "", p, (String c s). by rewrite Nat.add_0_r.
    + intros (pre & p' & s' & Hs & Hm)%IH.
      exists (String c pre), p', s'. rewrite append_cons, <- Hs. split; [done|].
      cbn [String.length]. by rewrite Nat.add_succ_r.
Qed.

Lemma capture_last fl f lo hi cur caps res :
  rmatch fl (Seq (Cap 1 (Rep f lo (Some hi))) Eps)
    (λ cur' caps', Some (cur', caps')) cur caps = Some res →
  ∃ cap, (String.length cap ≤ hi)%nat ∧ res.2 !! 1%nat = Some cap.
Proof.
  intros H. rewrite rmatch_seq in H. cbn [rmatch] in H.
  apply rep_greedy_sound in H as (cap & after & Hs & Hcap & Hlo & Hhi & H).
  cbn [Regex.rest Regex.index Regex.prev] in *. injection H as <-.
  exists cap. split; [by apply Hhi|].
  cbn. rewrite lookup_insert_eq. f_equal.
  replace (index cur + String.length cap - index cur)%nat with (String.length cap) by lia.
  rewrite Hs. apply take_append_length.
Qed.

Lemma length_first_line_le (s : string) :
  (String.length (Js.first_line s) ≤ String.length s)%nat.
Proof.
  induction s as [|c s IH]; [done|]. cbn [Js.first_line].
  destruct (_ =? _)%N; cbn [String.length]; lia.
Qed.

(** The topic of the work log has at most 200 characters. *)
Lemma length_topic (transcript : string) : (String.length (topic transcript) ≤ 200)%nat.
Proof.
  unfold topic. destruct (exec gm FIRST_USER transcript) as [m|] eqn:E; [|cbn; lia].
  etrans; [apply length_trim_le|]. etrans; [apply length_first_line_le|].
  unfold exec in E. apply search_elem in E as (pre & p' & s' & _ & Hm).
  unfold match_here in Hm.
  destruct (rmatch _ _ _ _ _) as [[cur' caps]|] eqn:Hr; [|done]. injection Hm as <-.
  unfold FIRST_USER in Hr.
  change (Cat [Bol; Lit "USER:"; star Js.is_space; Cap 1 (Rep Js.is_dot 20 (Some 200%nat))])
    with (foldr Seq (Seq (Cap 1 (Rep Js.is_dot 20 (Some 200%nat))) Eps)
            [Bol; Lit "USER:"; star Js.is_space]) in Hr.
  apply front_inv in Hr as (before & s1 & caps1 & _ & Hr).
  apply capture_last in Hr as (cap & Hlen & Hcap).
  unfold group. cbn [m_groups snd] in *. by rewrite Hcap.
Qed.

End TopicFacts.

Section WorklogValidity.

Lemma startsWith_http_colon (s y : string) :
  Js.startsWith s "http" = false → Js.startsWith (s +:+ ": " +:+ y) "http" = false.
Proof.
  destruct s as [|a [|b [|c [|d s]]]]; cbn; intros H; try done;
    repeat case_bool_decide; subst; cbn in *; done.
Qed.

Lemma trim_lettered (c : ascii) (s : string) :
  Js.is_space c = false → Js.trim (String c s) ≠ "".
Proof.
  intros Hc. unfold Js.trim. cbn [Js.trimStart]. rewrite Hc.
  unfold Js.trimEnd. cbn [Js.trimEnd_go].
  destruct (Js.trimEnd_go s); [done|]. by rewrite Hc.
Qed.

End WorklogValidity.

(** The one work log of a session passes validation unless it is too long.
    For a session with an identity whose slug (or the word "unknown" in its
    place) begins with a letter, does not begin with the letters [http] and
    has at most 418 characters, the validator accepts the work log exactly
    when its content has at most 10000 characters, whatever the
    transcript. *)
Theorem work_log_is_accepted (transcript : string) (session : Session)
    (c : ascii) (rest : string) :
  sess_id session ≠ "" →
  worklog_slug session = String c rest →
  Js.is_alpha c = true →
  Js.startsWith (worklog_slug session) "http" = false →
  (String.length (worklog_slug session) ≤ 418)%nat →
  let worklog := generateWorklog transcript session in
  valid (validateItem worklog) = true ↔ (String.length (content worklog) ≤ 10000)%nat.
Proof.
  intros Hid Hslug Hc Hhttp Hlen. cbn zeta.
  assert (valid (validateItem (generateWorklog transcript session)) = true
          ↔ errors (validateItem (generateWorklog transcript session)) = []) as ->.
  { unfold validateItem. cbn [valid errors]. rewrite bool_decide_eq_true.
    by rewrite length_zero_iff_nil. }
  rewrite validateItem_errors, validateBase_nil.
  unfold generateWorklog. fold (worklog_slug session).
  cbn [bucket title content priority evidence tags].
  set (slug := worklog_slug session) in *.
  set (text := "Development session on " +:+ slug +:+ ". "
               +:+ Js.show_nat (turns transcript) +:+ " conversation turns.").
  assert (23 ≤ String.length text)%nat as Htext.
  { unfold text. rewrite length_append. cbn [String.length]. lia. }
  assert (∃ x, text = String "D" x) as (x & Hx) by (unfold text; by eexists).
  split; [by intros ((_ & _ & [_ ?] & _) & _)|]. intros Hmax.
  pose proof (length_topic transcript) as Htopic.
  split_and!; try done.
  - unfold Work_Log, VALID_BUCKETS. rewrite !elem_of_cons. auto 20.
  - intros t Ht. assert (t = slug +:+ ": " +:+ Js.take 80 (topic transcript)) as ->
      by congruence.
    rewrite !length_append, length_take_min. cbn [String.length]. lia.
  - lia.
  - apply Forall_singleton. cbn [session_id excerpt]. split; [by eexists|lia].
  - rewrite Hx. apply truthy_spec. by apply trim_lettered.
  - cbn. by destruct (sess_id session).
  - intros t Ht _. assert (t = slug +:+ ": " +:+ Js.take 80 (topic transcript)) as ->
      by congruence.
    pose proof (startsWith_http_colon slug (Js.take 80 (topic transcript)) Hhttp) as Hh.
    rewrite Hslug in Hh |- *. rewrite append_cons in Hh |- *.
    by apply lettered_title_is_sound.
Qed.

Lemma work_log_is_accepted_witness :
  valid (validateItem (generateWorklog Example.transcript_text Example.old_session)) = true
  ↔ (String.length (content (generateWorklog Example.transcript_text Example.old_session))
     ≤ 10000)%nat.
Proof.
  apply (work_log_is_accepted Example.transcript_text Example.old_session "a"
           "i-jason-5408"); try done.
  apply Nat.leb_le. by vm_compute.
Defined.

(** ** The log file: rotation and size *)
Section LogFacts.

Lemma append_inj_l (s a b : string) : s +:+ a = s +:+ b → a = b.
Proof. induction s as [|c s IH]; [done|]. rewrite !append_cons. intros [= H]. auto. Qed.

Lemma generation_not_log (logFile : string) (i : nat) : generation logFile i ≠ logFile.
Proof.
  unfold generation. intros H. rewrite <- (append_empty_r logFile) in H at 2.
  by apply append_inj_l in H.
Qed.

Lemma generation_inj (logFile : string) (i j : nat) :
  Js.show_nat i ≠ Js.show_nat j → generation logFile i ≠ generation logFile j.
Proof.
  intros Hij H. unfold generation in H. apply append_inj_l in H. by injection H.
Qed.

Lemma utf8_append (a b : string) : Md5.utf8 (a +:+ b) = Md5.utf8 a ++ Md5.utf8 b.
Proof.
  induction a as [|c a IH]; [done|]. rewrite append_cons. cbn [Md5.utf8].
  destruct (_ <? 128); by rewrite IH.
Qed.

Lemma size_append (a b : string) : size (a +:+ b) = size a + size b.
Proof. unfold size. rewrite utf8_append, length_app. lia. Qed.

(** A generation moves into the place that the turn before has vacated. *)
Lemma shift_lookup (oldFile newFile : string) (files : Files) :
  oldFile ≠ newFile →
  files !! newFile = None →
  let shifted :=
    if bool_decide (is_Some (files !! oldFile)) then renameSync oldFile newFile files
    else files in
  shifted !! newFile = files !! oldFile
  ∧ shifted !! oldFile = None
  ∧ ∀ path, path ≠ oldFile → path ≠ newFile → shifted !! path = files !! path.
Proof.
  intros Hne Hnew. cbn zeta. unfold renameSync.
  destruct (files !! oldFile) as [content|] eqn:Hold.
  - rewrite bool_decide_true by eauto. cbv iota beta. split_and!.
    + by rewrite lookup_insert_eq.
    + rewrite lookup_insert_ne by done. by rewrite lookup_delete_eq.
    + intros path H1 H2. rewrite lookup_insert_ne by done. by rewrite lookup_delete_ne.
  - rewrite bool_decide_false by (by intros [? ?]). by split_and!.
Qed.

Lemma renameSync_lookup (oldFile newFile : string) (files : Files) (content : string) :
  oldFile ≠ newFile →
  files !! oldFile = Some content →
  renameSync oldFile newFile files !! newFile = Some content
  ∧ renameSync oldFile newFile files !! oldFile = None
  ∧ ∀ path, path ≠ oldFile → path ≠ newFile →
      renameSync oldFile newFile files !! path = files !! path.
Proof.
  intros Hne Hold. unfold renameSync. rewrite Hold. split_and!.
  - by rewrite lookup_insert_eq.
  - rewrite lookup_insert_ne by done. by rewrite lookup_delete_eq.
  - intros path H1 H2. rewrite lookup_insert_ne by done. by rewrite lookup_delete_ne.
Qed.

Lemma drop_lookup (oldFile : string) (files : Files) :
  let dropped :=
    if bool_decide (is_Some (files !! oldFile)) then delete oldFile files else files in
  dropped !! oldFile = None
  ∧ ∀ path, path ≠ oldFile → dropped !! path = files !! path.
Proof.
  cbn zeta. destruct (files !! oldFile) as [content|] eqn:Hold.
  - rewrite bool_decide_true by eauto. split; [by rewrite lookup_delete_eq|].
    intros path H1. by rewrite lookup_delete_ne.
  - rewrite bool_decide_false by (by intros [? ?]). by split.
Qed.

Lemma rotation_moves_the_log (logFile : string) (files : Files) (content : string) :
  files !! logFile = Some content →
  rotateLog logFile files !! logFile = None
  ∧ rotateLog logFile files !! generation logFile 1 = Some content.
Proof.
  intros Hlog. unfold rotateLog.
  assert (∀ turns (fs : Files), fs !! logFile = Some content →
            foldl (rotate_generation logFile) fs turns !! logFile = Some content) as Hfold.
  { clear. intros turns. induction turns as [|i turns IH]; intros files Hlog; [done|].
    cbn [foldl]. apply IH. unfold rotate_generation, renameSync.
    case_bool_decide; [|done]. case_bool_decide.
    - rewrite lookup_delete_ne by apply generation_not_log. done.
    - destruct (files !! generation logFile i); [|done].
      rewrite lookup_insert_ne by apply generation_not_log.
      rewrite lookup_delete_ne by apply generation_not_log. done. }
  specialize (Hfold (rev (seq 1 (MAX_LOG_FILES - 1))) files Hlog).
  destruct (renameSync_lookup logFile (generation logFile 1) _ content
              (not_eq_sym (generation_not_log logFile 1)) Hfold) as (H1 & H0 & _).
  by split.
Qed.

End LogFacts.

(** A rotation shifts every generation by one and loses nothing but the
    oldest: the log file becomes generation 1 and is gone under its own
    name, generations 1 to 3 become generations 2 to 4, what was generation
    4 is dropped, and no other file is touched.  So four generations are
    kept beside the log file itself. *)
Theorem rotation_shifts_the_generations (logFile : string) (files : Files)
    (current : string) :
  files !! logFile = Some current →
  let rotated := rotateLog logFile files in
  rotated !! logFile = None
  ∧ rotated !! generation logFile 1 = Some current
  ∧ (∀ i, i ∈ [1; 2; 3]%nat →
       rotated !! generation logFile (i + 1) = files !! generation logFile i)
  ∧ (∀ path,
       path ≠ logFile →
       (∀ i, i ∈ [1; 2; 3; 4]%nat → path ≠ generation logFile i) →
       rotated !! path = files !! path).
Proof.
  intros Hlog. cbn zeta. unfold rotateLog, rotate_generation, MAX_LOG_FILES.
  cbn [Nat.sub seq rev app foldl Nat.add].
  rewrite (bool_decide_true (4 = 4)%nat) by done.
  rewrite !(bool_decide_false (_ = 4)%nat) by lia.
  set (g1 := generation logFile 1). set (g2 := generation logFile 2).
  set (g3 := generation logFile 3). set (g4 := generation logFile 4).
  assert (g1 ≠ g2 ∧ g2 ≠ g3 ∧ g3 ≠ g4 ∧ g1 ≠ g3 ∧ g1 ≠ g4 ∧ g2 ≠ g4)
    as (D12 & D23 & D34 & D13 & D14 & D24) by (split_and!; by apply generation_inj).
  assert (g1 ≠ logFile ∧ g2 ≠ logFile ∧ g3 ≠ logFile ∧ g4 ≠ logFile)
    as (D1 & D2 & D3 & D4) by (split_and!; apply generation_not_log).
  destruct (drop_lookup g4 files) as (H44 & H4).
  set (f4 := if bool_decide (is_Some (files !! g4)) then delete g4 files else files) in *.
  destruct (shift_lookup g3 g4 f4 D34 H44) as (H34 & H33 & H3).
  set (f3 := if bool_decide (is_Some (f4 !! g3)) then renameSync g3 g4 f4 else f4) in *.
  destruct (shift_lookup g2 g3 f3 D23 H33) as (H23 & H22 & H2).
  set (f2 := if bool_decide (is_Some (f3 !! g2)) then renameSync g2 g3 f3 else f3) in *.
  destruct (shift_lookup g1 g2 f2 D12 H22) as (H12 & H11 & H1).
  set (f1 := if bool_decide (is_Some (f2 !! g1)) then renameSync g1 g2 f2 else f2) in *.
  assert (f1 !! logFile = Some current) as Hcur.
  { rewrite H1, H2, H3, H4 by done. done. }
  destruct (renameSync_lookup logFile g1 f1 current (not_eq_sym D1) Hcur)
    as (Hr1 & Hr0 & Hr).
  split_and!; try done.
  - intros i Hi. rewrite !elem_of_cons, elem_of_nil in Hi.
    destruct Hi as [->|[->|[->|[]]]]; cbn [Nat.add]; fold g1 g2 g3 g4.
    + rewrite Hr, H12, H2, H3, H4 by done. done.
    + rewrite Hr, H1, H23, H3, H4 by done. done.
    + rewrite Hr, H1, H2, H34, H4 by done. done.
  - intros path P0 Pg.
    assert (path ≠ g1 ∧ path ≠ g2 ∧ path ≠ g3 ∧ path ≠ g4) as (P1 & P2 & P3 & P4).
    { split_and!; apply Pg; rewrite !elem_of_cons; auto. }
    rewrite Hr, H1, H2, H3, H4 by done. done.
Qed.

Lemma rotation_shifts_the_generations_witness :
  rotateLog "jason.log" Sample.log_files !! "jason.log" = None
  ∧ rotateLog "jason.log" Sample.log_files !! "jason.log.1" = Some "today"
  ∧ rotateLog "jason.log" Sample.log_files !! "jason.log.2" = Some "yesterday".
Proof.
  destruct (rotation_shifts_the_generations "jason.log" Sample.log_files "today" eq_refl)
    as (H0 & H1 & H2 & _).
  split_and!; [exact H0|exact H1|].
  apply (H2 1%nat). left.
Defined.

(** Writing a line never lets the log file grow past the limit by more than
    that line.  A log file within [MAX_LOG_SIZE] gets the line appended; one
    that has grown beyond it is first rotated, so that the line begins a new
    file and the old content is kept as generation 1; a missing file is
    created.  In every case the file ends with the line and a line feed, and
    its size is at most [MAX_LOG_SIZE] plus the size of that line. *)
Theorem written_log_stays_bounded (logFile formatted : string) (files : Files) :
  let written := writeToFile logFile formatted files in
  let line := formatted +:+ Example.newline in
  (∀ content, files !! logFile = Some content → size content ≤ MAX_LOG_SIZE →
     written !! logFile = Some (content +:+ line))
  ∧ (∀ content, files !! logFile = Some content → MAX_LOG_SIZE < size content →
       written !! logFile = Some line
       ∧ written !! generation logFile 1 = Some content)
  ∧ (files !! logFile = None → written !! logFile = Some line)
  ∧ ∃ content,
      written !! logFile = Some content ∧ size content ≤ MAX_LOG_SIZE + size line.
Proof.
  cbn zeta. unfold writeToFile.
  assert (0 ≤ size (formatted +:+ Example.newline)) as Hline by (unfold size; lia).
  destruct (files !! logFile) as [content|] eqn:Hlog.
  - destruct (MAX_LOG_SIZE <? size content) eqn:Hbig.
    + apply Z.ltb_lt in Hbig.
      destruct (rotation_moves_the_log logFile files content Hlog) as (H0 & H1).
      rewrite H0. cbn [default from_option id]. rewrite append_empty_l.
      rewrite lookup_insert_eq. split_and!.
      * intros c [= <-] Hsmall. lia.
      * intros c [= <-] _. split; [done|].
        rewrite lookup_insert_ne by apply not_eq_sym, generation_not_log. done.
      * done.
      * eexists. split; [done|]. unfold MAX_LOG_SIZE. lia.
    + apply Z.ltb_ge in Hbig. rewrite Hlog. cbn [default from_option id].
      rewrite lookup_insert_eq. split_and!.
      * by intros c [= <-] _.
      * intros c [= <-] Hlarge. lia.
      * done.
      * eexists. split; [done|]. rewrite size_append. lia.
  - rewrite Hlog. cbn [default from_option id]. rewrite append_empty_l.
    rewrite lookup_insert_eq. split_and!; try done.
    eexists. split; [done|]. unfold MAX_LOG_SIZE. lia.
Qed.

Lemma written_log_stays_bounded_witness :
  writeToFile "jason.log" "[INFO] started" Sample.log_files !! "jason.log"
  = Some ("today" +:+ "[INFO] started" +:+ Example.newline).
Proof.
  apply (proj1 (written_log_stays_bounded "jason.log" "[INFO] started" Sample.log_files)
           "today" eq_refl).
  by vm_compute.
Defined.

(** ** The transcript formatter *)
Section ReplaceFacts.

(** A replacement that is no longer than what it replaces does not make the
    text longer. *)
Lemma length_replace_from (fl : flags) (r : regex) (replacement : string) (s : string) :
  (∀ cur m, match_here fl r cur = Some m →
     (String.length replacement ≤ String.length (m_text m))%nat) →
  ∀ skip p i,
    (String.length (replace_from fl r replacement skip p s i) + skip `min` String.length s
     ≤ String.length s)%nat.
Proof.
  intros Hlen. induction s as [|c s IH]; intros skip p i.
  - destruct skip as [|skip]; cbn [replace_from]; [|simpl; lia].
    destruct (match_here fl r (Cursor p "" i)) as [m|] eqn:Hm; [|simpl; lia].
    apply Hlen in Hm as Hle. unfold match_here in Hm.
    destruct (rmatch fl r _ _ ∅) as [[cur' caps]|]; [|done].
    injection Hm as <-. cbn [m_text rest] in Hle.
    rewrite length_append. destruct (index cur' - i)%nat; simpl in *; lia.
  - destruct skip as [|skip]; cbn [replace_from].
    + destruct (match_here fl r (Cursor p (String c s) i)) as [m|] eqn:Hm.
      * apply Hlen in Hm as Hle. unfold match_here in Hm.
        destruct (rmatch fl r _ _ ∅) as [[cur' caps]|]; [|done].
        injection Hm as <-. cbn [m_text rest index] in *.
        pose proof (length_take_le (index cur' - i) (String c s)) as Htake.
        rewrite length_append.
        destruct (String.length (Js.take (index cur' - i) (String c s))) as [|n].
        -- specialize (IH O (Some c) (S i)). cbn [String.length] in *. lia.
        -- specialize (IH n (Some c) (S i)). cbn [String.length] in *. lia.
      * specialize (IH O (Some c) (S i)). cbn [String.length]. lia.
    + specialize (IH skip (Some c) (S i)). cbn [String.length]. lia.
Qed.

Lemma length_replace_all (fl : flags) (r : regex) (replacement : string) (s : string) :
  (∀ cur m, match_here fl r cur = Some m →
     (String.length replacement ≤ String.length (m_text m))%nat) →
  (String.length (replace_all fl r replacement s) ≤ String.length s)%nat.
Proof.
  intros Hlen. pose proof (length_replace_from fl r replacement s Hlen O None 0%nat).
  unfold replace_all. lia.
Qed.

End ReplaceFacts.

Section NewlineRuns.

Lemma rep_greedy_reach (f : ascii → bool) (s : string) :
  ∀ lo hi p i caps res,
    rep_greedy f lo hi (λ cur' caps', Some (cur', caps')) p s i caps = Some res →
    (i + lo ≤ index res.1 ∧ index res.1 ≤ i + String.length s)%nat.
Proof.
  induction s as [|c s IH]; intros lo hi p i caps res; cbn [rep_greedy].
  - destruct lo; [|done]. intros [= <-]. simpl. lia.
  - destruct (f c && negb (bool_decide (hi = Some O))).
    + destruct (rep_greedy f (pred lo) (pred <$> hi) _ (Some c) s (S i) caps)
        as [res'|] eqn:Hrec.
      * intros [= <-]. apply IH in Hrec. cbn [String.length]. lia.
      * destruct lo; [|done]. intros [= <-]. simpl. lia.
    + destruct lo; [|done]. intros [= <-]. simpl. lia.
Qed.

(** A match of [/\n{3,}/] has three code units at least. *)
Lemma many_newlines_length (cur : cursor) (m : result) :
  match_here no_flags MANY_NEWLINES cur = Some m → (3 ≤ String.length (m_text m))%nat.
Proof.
  unfold match_here, MANY_NEWLINES. cbn [rmatch].
  destruct (rep_greedy _ 3 None _ (prev cur) (rest cur) (index cur) ∅)
    as [[cur' caps]|] eqn:Hrep; [|done].
  intros [= <-]. cbn [m_text]. apply rep_greedy_reach in Hrep. cbn [fst] in Hrep.
  rewrite length_take_min. lia.
Qed.

End NewlineRuns.

Section LineFacts.

Lemma split_newline_not_nil (s : string) : split_newline s ≠ [].
Proof.
  induction s as [|c s IH]; [done|]. cbn [split_newline].
  case_bool_decide; [done|]. by destruct (split_newline s).
Qed.

(** [split] and [join] on the line feed are inverse to each other. *)
Lemma join_split_newline (s : string) : join Example.newline (split_newline s) = s.
Proof.
  induction s as [|c s IH]; [done|]. cbn [split_newline].
  pose proof (split_newline_not_nil s) as Hne.
  case_bool_decide as Hc.
  - destruct (split_newline s) as [|line more] eqn:Hs; [done|].
    cbn [join]. cbn [join] in IH. rewrite IH. by rewrite Hc.
  - destruct (split_newline s) as [|line more] eqn:Hs; [done|].
    destruct more as [|line' more]; cbn [join] in *; [by rewrite IH|].
    by rewrite append_cons, IH.
Qed.

Lemma split_newline_lines (s : string) :
  Forall (λ line, Js.all_chars (λ c, negb (bool_decide (c = LF))) line = true)
         (split_newline s).
Proof.
  induction s as [|c s IH]; [by repeat constructor|]. cbn [split_newline].
  case_bool_decide as Hc; [by constructor|].
  destruct (split_newline s) as [|line more]; [repeat constructor|].
  - cbn [Js.all_chars]. by rewrite bool_decide_eq_false_2.
  - apply Forall_cons in IH as [Hline Hmore]. constructor; [|done].
    cbn [Js.all_chars]. by rewrite bool_decide_eq_false_2.
Qed.

Lemma length_join_map (sep : string) (f : string → string) (parts : list string) :
  (∀ part, String.length (f part) ≤ String.length part)%nat →
  (String.length (join sep (f <$> parts)) ≤ String.length (join sep parts))%nat.
Proof.
  intros Hf. induction parts as [|part [|part' more] IH]; [done|apply Hf|].
  change (f <$> part :: part' :: more) with (f part :: f part' :: (f <$> more)).
  change (f <$> part' :: more) with (f part' :: (f <$> more)) in IH.
  cbn [join] in *. rewrite !length_append. specialize (Hf part). lia.
Qed.

Lemma all_chars_trimEnd (f : ascii → bool) (s : string) :
  Js.all_chars f s = true → Js.all_chars f (Js.trimEnd s) = true.
Proof.
  destruct (trimEnd_decompose s) as (post & Hs & _). intros H.
  rewrite Hs, all_chars_append, andb_true_iff in H. tauto.
Qed.

Lemma trimEnd_tail_fixed (c : ascii) (s : string) :
  Js.trimEnd (String c s) = String c s → Js.trimEnd s = s.
Proof.
  unfold Js.trimEnd. cbn [Js.trimEnd_go].
  destruct (Js.trimEnd_go s) as [t|]; simpl.
  - by intros [= ->].
  - destruct (Js.is_space c); simpl; [done|]. by intros [= <-].
Qed.

Lemma no_space_before_newline_cons (x : ascii) (s : string) :
  (∀ back, s = String LF back → Js.is_space x = true → x = LF) →
  no_space_before_newline s → no_space_before_newline (String x s).
Proof.
  intros Hx Hs [|y front] c back; rewrite ?append_empty_l, ?append_cons.
  - intros [= -> ->]. by apply (Hx back).
  - intros [= -> ->]. by apply (Hs front c back).
Qed.

Lemma no_newline_no_space_before (s : string) :
  Js.all_chars (λ c, negb (bool_decide (c = LF))) s = true → no_space_before_newline s.
Proof.
  intros Hs front c back ->. rewrite all_chars_append in Hs.
  cbn [Js.all_chars] in Hs. rewrite (bool_decide_eq_true_2 (LF = LF)) in Hs by done.
  by rewrite !andb_false_r in Hs.
Qed.

Lemma no_space_before_newline_line (line more : string) :
  Js.all_chars (λ c, negb (bool_decide (c = LF))) line = true →
  Js.trimEnd line = line →
  no_space_before_newline more →
  no_space_before_newline (line +:+ String LF more).
Proof.
  intros Hline Hfix Hmore. induction line as [|x line IH].
  - rewrite append_empty_l. by apply no_space_before_newline_cons.
  - rewrite append_cons. cbn [Js.all_chars] in Hline.
    apply andb_true_iff in Hline as [Hx Hline].
    apply no_space_before_newline_cons.
    + destruct line as [|y line].
      * intros _ _ Hsp. unfold Js.trimEnd in Hfix. cbn [Js.trimEnd_go] in Hfix.
        by rewrite Hsp in Hfix.
      * rewrite append_cons. intros back [= -> _]. cbn [Js.all_chars] in Hline.
        by rewrite (bool_decide_eq_true_2 (LF = LF)) in Hline.
    + apply IH; [done|]. by eapply trimEnd_tail_fixed.
Qed.

Lemma no_space_before_newline_join (parts : list string) :
  Forall (λ line, Js.all_chars (λ c, negb (bool_decide (c = LF))) line = true
                  ∧ Js.trimEnd line = line) parts →
  no_space_before_newline (join Example.newline parts).
Proof.
  induction parts as [|part [|part' more] IH]; intros Hparts.
  - by intros [|? ?] ? ?.
  - apply Forall_cons in Hparts as [[Hp _] _]. by apply no_newline_no_space_before.
  - apply Forall_cons in Hparts as [[Hp Hfix] Hmore]. cbn [join] in *.
    change (Example.newline +:+ ?s) with (String LF s).
    apply no_space_before_newline_line; auto.
Qed.

Lemma no_space_before_newline_substring (t s : string) :
  substring_of t s → no_space_before_newline s → no_space_before_newline t.
Proof.
  intros (pre & post & ->) Hs front c back -> Hc.
  apply (Hs (pre +:+ front) c (back +:+ post)); [|done].
  by rewrite !append_assoc, !append_cons.
Qed.

End LineFacts.

Section FormatFacts.

(** The formatter on a terminal capture. *)
Example format_of_raw_capture :
  formatTranscript Sample.raw_capture = "USER: hi" +:+ String LF (String LF "done").
Proof. by vm_compute. Qed.

(** What [formatTranscript] of src/extract/loadTranscript.js returns for any
    content: a text without white space at either end, in which no line ends
    in white space, and which is not longer than the content. *)
Theorem formatted_transcript_is_trimmed (content : string) :
  Js.trim (formatTranscript content) = formatTranscript content
  ∧ no_space_before_newline (formatTranscript content)
  ∧ (String.length (formatTranscript content) ≤ String.length content)%nat.
Proof.
  unfold formatTranscript. destruct (negb (Js.truthy content)).
  { split_and!; [done| |simpl; lia]. by intros [|? ?] ? ?. }
  cbv zeta. split_and!.
  - apply trim_trim.
  - eapply no_space_before_newline_substring; [apply substring_of_trim|].
    apply no_space_before_newline_join, Forall_fmap, Forall_forall.
    intros line Hline. cbn. split; [|apply trimEnd_fixed].
    apply all_chars_trimEnd.
    revert line Hline. apply Forall_forall, split_newline_lines.
  - etrans; [apply length_trim_le|].
    etrans; [apply length_join_map, length_trimEnd_le|].
    rewrite join_split_newline.
    etrans; [apply length_replace_all|].
    { intros cur m Hm. apply many_newlines_length in Hm. simpl. lia. }
    etrans; [apply length_replace_all|]; [intros; simpl; lia|].
    apply length_replace_all. intros; simpl; lia.
Qed.

End FormatFacts.

(** ** The marker lines inside a transcript *)
Section ScanPositions.

Implicit Types (p : option ascii) (s : string) (m : result).






End ScanPositions.

Section MarkerLineMatch.










End MarkerLineMatch.

Section MarkerLineFound.




End MarkerLineFound.

Section FirstCapture.

Implicit Types (acc : list Item * gset string) (m : result) (item : Item).










End FirstCapture.

Section TheTwoLines.






End TheTwoLines.

Section ShortLines.

Implicit Types (p : option ascii) (s t : string).











End ShortLines.

Section ShortLineItems.






End ShortLineItems.

(** ** The marker lines of the specification *)



